(** * PCB system viewer: camera transform, module tree, layout and
    connection routing

    A shallow embedding of [canvas-manager.js] (class [CanvasManager]) and of
    the viewer script (class [PCBSystemViewer]).

    Conventions of the embedding.
    - A JavaScript number is an exact rational ([Qc], canonical fractions
      with Leibniz equality).  Rounding of IEEE doubles is not modelled, so a
      property stated "within floating-point tolerance" is stated here as an
      equation of exact arithmetic; [NaN] and the infinities are not numbers
      of the embedding.
    - A JavaScript [Map] keyed by strings is a [gmap string _], a [Set] of
      strings a [gset string]; a [Map] whose insertion order is observed is an
      association list.
    - The module objects are created once, one per directory path
      ([buildModuleTreeFromDirectories]), and never mutated afterwards: the
      tree is an inductive rose tree, and reference identity of two module
      objects is equality of their [path]. *)

From Stdlib Require Import Ascii String QArith Qcanon Field.
From stdpp Require Import numbers strings gmap fin_maps list.

#[local] Set Warnings "-clear-no-such-hyp".

Open Scope string_scope.
Open Scope list_scope.

(** ** Numbers *)

Abbreviation num := Qc.

(** [Math.max] and [Math.min] on two arguments. *)
Definition Math_max (a b : num) : num := if decide (a ≤ b)%Qc then b else a.
Definition Math_min (a b : num) : num := if decide (a ≤ b)%Qc then a else b.

(** Decimal literals of the source. *)
Definition dec (n : Z) (d : positive) : num := Q2Qc (Qmake n d).

(** ** canvas-manager.js *)

Module CanvasManager.

(** [this.camera = { x, y, zoom }] *)
Record Camera := mkCamera { x : num; y : num; zoom : num }.

(** [this.bounds = { minZoom: 0.1, maxZoom: 5 }], set once by the
    constructor and never written again. *)
Definition minZoom : num := dec 1 10.
Definition maxZoom : num := dec 5 1.

Record Point := mkPoint { px : num; py : num }.

(** The part of a wheel event [handleZoom] reads: [deltaY], [clientX],
    [clientY], and the container rectangle's [left] and [top]. *)
Record WheelEvent := mkWheel {
  deltaY : num;
  clientX : num;
  clientY : num;
  rectLeft : num;
  rectTop : num
}.

(** [/] of [Qc] is total ([_ / 0 = 0]); a zoom within the bounds is not
    zero, where the source and the model divide alike. *)
Definition screenToWorld (cam : Camera) (screenX screenY : num) : Point :=
  let worldX := ((screenX - x cam) / zoom cam)%Qc in
  let worldY := ((screenY - y cam) / zoom cam)%Qc in
  mkPoint worldX worldY.

Definition worldToScreen (cam : Camera) (worldX worldY : num) : Point :=
  let screenX := (worldX * zoom cam + x cam)%Qc in
  let screenY := (worldY * zoom cam + y cam)%Qc in
  mkPoint screenX screenY.

(** [constrainCamera] on a camera whose zoom is a number.  [Math.max] and
    [Math.min] return [NaN] when given [NaN], which the numbers of this
    embedding do not include; the source never stores one: the constructor
    sets the zoom to 1, [handleZoom] multiplies it by 1.1 or by 1/1.1, and
    [resetView], the only caller of [setCameraState], passes 1.0. *)
Definition constrainCamera (cam : Camera) : Camera :=
  mkCamera (x cam) (y cam) (Math_max minZoom (Math_min maxZoom (zoom cam))).

(** [setCameraState] on numbers as arguments (see [constrainCamera]). *)
Definition setCameraState (x0 y0 zoom0 : num) : Camera :=
  constrainCamera (mkCamera x0 y0 zoom0).

(** [resetView], given the container's width and height. *)
Definition resetView (width height : num) : Camera :=
  setCameraState (width / dec 4 1)%Qc (height / dec 4 1)%Qc (dec 1 1).

Definition zoomFactor : num := dec 11 10.

Definition zoomDelta (e : WheelEvent) : num :=
  if decide (0 < deltaY e)%Qc then (1 / zoomFactor)%Qc else zoomFactor.

Definition mouseX (e : WheelEvent) : num := (clientX e - rectLeft e)%Qc.
Definition mouseY (e : WheelEvent) : num := (clientY e - rectTop e)%Qc.

(** The tentative zoom of a wheel event. *)
Definition newZoom (cam : Camera) (e : WheelEvent) : num :=
  (zoom cam * zoomDelta e)%Qc.

Definition handleZoom (cam : Camera) (e : WheelEvent) : Camera :=
  let worldPos := screenToWorld cam (mouseX e) (mouseY e) in
  let newZoom := newZoom cam e in
  let constrainedZoom := Math_max minZoom (Math_min maxZoom newZoom) in
  if decide (constrainedZoom ≠ newZoom) then cam
  else
    let cam1 := mkCamera (x cam) (y cam) constrainedZoom in
    let newScreenPos := worldToScreen cam1 (px worldPos) (py worldPos) in
    mkCamera (x cam1 + (mouseX e - px newScreenPos))%Qc
             (y cam1 + (mouseY e - py newScreenPos))%Qc
             (zoom cam1).

(** Pan: [startPan] records the pointer and the camera, [updatePan] adds
    the pointer's displacement to the recorded camera. *)
Definition updatePan (panStartPos panStartCamera : Point) (cam : Camera)
    (mx my : num) : Camera :=
  let deltaX := (mx - px panStartPos)%Qc in
  let deltaY := (my - py panStartPos)%Qc in
  mkCamera (px panStartCamera + deltaX)%Qc (py panStartCamera + deltaY)%Qc
           (zoom cam).

(** The fields of [this] the pan handlers use. *)
Record Canvas := mkCanvas {
  camera : Camera;
  isPanning : bool;
  lastMousePos : Point;
  panStartPos : Point;
  panStartCamera : Point
}.

(** The part of a mouse event the pan handlers read. *)
Record PanEvent := mkPanEvent { button : Z; panX : num; panY : num }.

Definition startPan (c : Canvas) (e : PanEvent) : Canvas :=
  mkCanvas (camera c) true (mkPoint (panX e) (panY e))
           (mkPoint (panX e) (panY e))
           (mkPoint (x (camera c)) (y (camera c))).

Definition updatePan_canvas (c : Canvas) (e : PanEvent) : Canvas :=
  if isPanning c then
    mkCanvas (updatePan (panStartPos c) (panStartCamera c) (camera c) (panX e) (panY e))
             (isPanning c) (mkPoint (panX e) (panY e))
             (panStartPos c) (panStartCamera c)
  else c.

Definition endPan (c : Canvas) : Canvas :=
  mkCanvas (constrainCamera (camera c)) false (lastMousePos c)
           (panStartPos c) (panStartCamera c).

Definition handleMouseDown (c : Canvas) (e : PanEvent) : Canvas :=
  if decide (button e = 1%Z) then startPan c e else c.

Definition handleMouseMove (c : Canvas) (e : PanEvent) : Canvas :=
  if isPanning c then updatePan_canvas c e else c.

Definition handleMouseUp (c : Canvas) (e : PanEvent) : Canvas :=
  if bool_decide (button e = 1%Z) && isPanning c then endPan c else c.

Definition handleMouseLeave (c : Canvas) : Canvas :=
  if isPanning c then endPan c else c.

Definition set_camera (c : Canvas) (cam : Camera) : Canvas :=
  mkCanvas cam (isPanning c) (lastMousePos c) (panStartPos c) (panStartCamera c).

Definition handleWheel (c : Canvas) (e : WheelEvent) : Canvas :=
  set_camera c (handleZoom (camera c) e).

(** The canvas the constructor builds. *)
Definition initial : Canvas :=
  mkCanvas (mkCamera 0 0 1) false (mkPoint 0 0) (mkPoint 0 0) (mkPoint 0 0).

End CanvasManager.

(** ** The viewer script: class [PCBSystemViewer] *)

Module PCBSystemViewer.

(** *** Data *)

(** One entry of the [connections] array of a [connections.json] file. *)
Record Connection := mkConnection {
  target : string;
  type : string;
  interface : option string;
  signals : list string;
  description : option string
}.

(** The decoded [connections.json] object stored in [module.connections];
    its [connections] member may be missing. *)
Record ConnectionData := mkConnectionData {
  connections_ : option (list Connection)
}.

Inductive ModuleType := pcb | component | system.

#[local] Unset Elimination Schemes.

(** The object built for each directory by [buildModuleTreeFromDirectories]. *)
Inductive ModuleNode := mkModule {
  name : string;
  path : string;
  parentPath : string;
  children : list ModuleNode;
  level : nat;
  mtype : ModuleType;
  connections : option ConnectionData
}.

#[local] Set Elimination Schemes.

(** The test [module.connections && module.connections.connections]: the
    array when both are present ([[]] is truthy), nothing otherwise. *)
Definition declaredConnections (m : ModuleNode) : option (list Connection) :=
  match connections m with
  | Some data => connections_ data
  | None => None
  end.

(** The modules strictly below [m], in pre-order. *)
Fixpoint descendants (m : ModuleNode) : list ModuleNode :=
  flat_map (λ c, c :: descendants c) (children m).

(** Every module of a forest, in pre-order. *)
Definition all_nodes (roots : list ModuleNode) : list ModuleNode :=
  flat_map (λ r, r :: descendants r) roots.

(** An entry of [this.modulePositions]. *)
Record Box := mkBox { x : num; y : num; width : num; height : num }.

(** What the script reads from the element carrying
    [data-module-path = path]: [offsetWidth], [offsetHeight], and the [left]
    and [top] of its bounding rectangle. *)
Record Element := mkElement {
  offsetWidth : num;
  offsetHeight : num;
  rectLeft : num;
  rectTop : num
}.

(** The document as [document.querySelector] sees it at the time of a call:
    the rendered element of each path, if any.  It belongs to the rendering
    surface and is an input of the operations that consult it. *)
Abbreviation Document := (gmap string Element).

(** The part of a mouse event the drag handlers read, with the container
    rectangle's [left] and [top]. *)
Record MouseEvent := mkMouse {
  clientX : num;
  clientY : num;
  containerLeft : num;
  containerTop : num
}.

Record DragState := mkDragState {
  isDragging : bool;
  draggedModule : option ModuleNode;
  startPos : CanvasManager.Point;
  offset : CanvasManager.Point;
  hasMoved : bool
}.

(** The fields of [this]; [camera] is [this.canvasManager.camera]. *)
Record Viewer := mkViewer {
  allModules : gmap string ModuleNode;
  expandedModules : gset string;
  rootModules : list ModuleNode;
  modulePositions : gmap string Box;
  dragState : DragState;
  camera : CanvasManager.Camera
}.

Definition set_modulePositions (v : Viewer) (positions : gmap string Box) : Viewer :=
  mkViewer (allModules v) (expandedModules v) (rootModules v) positions
           (dragState v) (camera v).

Definition set_dragState (v : Viewer) (d : DragState) : Viewer :=
  mkViewer (allModules v) (expandedModules v) (rootModules v)
           (modulePositions v) d (camera v).

(** [modules.includes(m)]: one object per path, so the same object is the
    same path. *)
Definition includes (modules : list ModuleNode) (m : ModuleNode) : bool :=
  bool_decide (path m ∈ path <$> modules).

(** *** Well-formed trees

    Unique paths; roots at level 0 with an empty parent path; every child
    records its parent's path and lies one level deeper; [allModules] maps
    the path of each module of the forest to that module. *)
Definition wf_links (roots : list ModuleNode) : Prop :=
  Forall (λ r, level r = 0 ∧ parentPath r = "") roots ∧
  Forall (λ p, path p ≠ "" ∧
               Forall (λ c, parentPath c = path p ∧ level c = S (level p))
                      (children p))
         (all_nodes roots).

Definition wf_forest (roots : list ModuleNode) : Prop :=
  NoDup (path <$> all_nodes roots) ∧ wf_links roots.

Definition wf_index (index : gmap string ModuleNode) (roots : list ModuleNode) : Prop :=
  ∀ k m, index !! k = Some m ↔ (m ∈ all_nodes roots ∧ path m = k).

Definition wf_tree (v : Viewer) : Prop :=
  wf_forest (rootModules v) ∧ wf_index (allModules v) (rootModules v).

(** *** Visibility *)

Fixpoint addExpandedChildren (expanded : gset string) (module : ModuleNode)
    (visibleList : list ModuleNode) : list ModuleNode :=
  if decide (path module ∈ expanded) then
    fold_left (λ visibleList child,
                 addExpandedChildren expanded child (visibleList ++ [child]))
              (children module) visibleList
  else visibleList.

Definition getVisibleModulesOf (roots : list ModuleNode) (expanded : gset string)
    : list ModuleNode :=
  fold_left (λ visible rootModule,
               addExpandedChildren expanded rootModule (visible ++ [rootModule]))
            roots [].

Definition getVisibleModules (v : Viewer) : list ModuleNode :=
  getVisibleModulesOf (rootModules v) (expandedModules v).

(** *** Expansion *)

Fixpoint collapseModule (module : ModuleNode) (expanded : gset string) : gset string :=
  fold_left (λ expanded child, collapseModule child expanded)
            (children module) (expanded ∖ {[path module]}).

(** The writes of [toggleModuleExpansion] to [this.expandedModules].  The
    statements that follow them in the source ([renderSystem],
    [recalculateParentBounds], [updateParentContainer], [renderConnections],
    [selectModule]) read the set and do not write it. *)
Definition toggleModuleExpansion (module : ModuleNode) (expanded : gset string)
    : gset string :=
  match children module with
  | [] => expanded
  | _ :: _ =>
      if decide (path module ∈ expanded) then collapseModule module expanded
      else expanded ∪ {[path module]}
  end.

(** *** Dragging *)

Definition translate (deltaX deltaY : num) (childPos : Box) : Box :=
  mkBox (x childPos + deltaX)%Qc (y childPos + deltaY)%Qc
        (width childPos) (height childPos).

(** The inner function [moveChildren] of [moveAllDescendants]. *)
Fixpoint moveChildren (visibleModules : list ModuleNode) (expanded : gset string)
    (deltaX deltaY : num) (module : ModuleNode) (positions : gmap string Box)
    : gmap string Box :=
  fold_left
    (λ positions child,
       if includes visibleModules child then
         match positions !! path child with
         | Some childPos =>
             let newChildPos := translate deltaX deltaY childPos in
             let positions := <[path child := newChildPos]> positions in
             if decide (path child ∈ expanded) then
               moveChildren visibleModules expanded deltaX deltaY child positions
             else positions
         | None => positions
         end
       else positions)
    (children module) positions.

Definition moveAllDescendants (v : Viewer) (parentModule : ModuleNode)
    (deltaX deltaY : num) : Viewer :=
  let visibleModules := getVisibleModules v in
  set_modulePositions v
    (moveChildren visibleModules (expandedModules v) deltaX deltaY parentModule
                  (modulePositions v)).

(** [updateModulePosition(module, worldPos)]; only [worldPos.x] and
    [worldPos.y] are read. *)
Definition updateModulePosition (v : Viewer) (doc : Document)
    (module : ModuleNode) (worldX worldY : num) : Viewer :=
  let currentPos := modulePositions v !! path module in
  let deltaX := match currentPos with Some c => (worldX - x c)%Qc | None => 0%Qc end in
  let deltaY := match currentPos with Some c => (worldY - y c)%Qc | None => 0%Qc end in
  let moduleEl := doc !! path module in
  let width := match moduleEl with Some el => offsetWidth el | None => dec 250 1 end in
  let height := match moduleEl with Some el => offsetHeight el | None => dec 120 1 end in
  let v := set_modulePositions v
             (<[path module := mkBox worldX worldY width height]> (modulePositions v)) in
  if bool_decide (path module ∈ expandedModules v)
     && (bool_decide (deltaX ≠ 0%Qc) || bool_decide (deltaY ≠ 0%Qc))
  then moveAllDescendants v module deltaX deltaY
  else v.

(** The bounding box of the stored boxes of [children]; [None] stands for
    the initial [(Infinity, Infinity, -Infinity, -Infinity)]. *)
Definition boundsOf (positions : gmap string Box) (children : list ModuleNode)
    : option (num * num * num * num) :=
  fold_left
    (λ acc child,
       match positions !! path child with
       | Some pos =>
           Some match acc with
                | None => (x pos, y pos, (x pos + width pos)%Qc, (y pos + height pos)%Qc)
                | Some (minX, minY, maxX, maxY) =>
                    (Math_min minX (x pos), Math_min minY (y pos),
                     Math_max maxX (x pos + width pos)%Qc,
                     Math_max maxY (y pos + height pos)%Qc)
                end
       | None => acc
       end)
    children None.

Definition recalculateParentBounds (v : Viewer) (doc : Document)
    (parentModule : ModuleNode) : Viewer :=
  let visibleModules := getVisibleModules v in
  let children := filter (λ child, includes visibleModules child = true)
                         (children parentModule) in
  match doc !! path parentModule with
  | None => v
  | Some _ =>
      match children with
      | [] =>
          let currentPos := modulePositions v !! path parentModule in
          let currentX := match currentPos with Some c => x c | None => dec 50 1 end in
          let currentY := match currentPos with Some c => y c | None => dec 50 1 end in
          set_modulePositions v
            (<[path parentModule := mkBox currentX currentY (dec 250 1) (dec 120 1)]>
               (modulePositions v))
      | _ :: _ =>
          match boundsOf (modulePositions v) children with
          | None => v
          | Some (minX, minY, maxX, maxY) =>
              let padding := dec 40 1 in
              let titleHeight := dec 60 1 in
              let newX := (minX - padding)%Qc in
              let newY := (minY - titleHeight - padding)%Qc in
              let newWidth := (maxX - minX + padding * 2)%Qc in
              let newHeight := (maxY - minY + titleHeight + padding * 2)%Qc in
              set_modulePositions v
                (<[path parentModule := mkBox newX newY newWidth newHeight]>
                   (modulePositions v))
          end
      end
  end.

(** The [while] loop of [updateParentContainer].  Each turn moves to the
    parent, one level up in a well-formed tree, so [S (level movedModule)]
    turns are enough there; [fuel] bounds the turns. *)
Fixpoint updateParentContainer_loop (fuel : nat) (v : Viewer) (doc : Document)
    (currentModule : ModuleNode) : Viewer :=
  match fuel with
  | O => v
  | S fuel =>
      if bool_decide (parentPath currentModule ≠ "") then
        match allModules v !! parentPath currentModule with
        | Some parent =>
            if bool_decide (path parent ∈ expandedModules v) then
              updateParentContainer_loop fuel
                (recalculateParentBounds v doc parent) doc parent
            else v
        | None => v
        end
      else v
  end.

Definition updateParentContainer (v : Viewer) (doc : Document)
    (movedModule : ModuleNode) : Viewer :=
  updateParentContainer_loop (S (level movedModule)) v doc movedModule.

Definition noDrag : DragState :=
  mkDragState false None (CanvasManager.mkPoint 0 0) (CanvasManager.mkPoint 0 0) false.

(** [startModuleDrag]; without an element for the module the source raises
    a [TypeError] on [moduleEl.getBoundingClientRect()], here [None]. *)
Definition startModuleDrag (v : Viewer) (doc : Document) (module : ModuleNode)
    (mouseEvent : MouseEvent) : option Viewer :=
  match doc !! path module with
  | None => None
  | Some moduleEl =>
      Some (set_dragState v
        (mkDragState true (Some module)
           (CanvasManager.mkPoint (clientX mouseEvent) (clientY mouseEvent))
           (CanvasManager.mkPoint
              (clientX mouseEvent - rectLeft moduleEl + containerLeft mouseEvent)%Qc
              (clientY mouseEvent - rectTop moduleEl + containerTop mouseEvent)%Qc)
           false))
  end.

(** [renderConnections] writes the document only. *)
Definition updateModuleDrag (v : Viewer) (doc : Document) (mouseEvent : MouseEvent)
    : Viewer :=
  match draggedModule (dragState v), isDragging (dragState v) with
  | Some module, true =>
      let canvasX := (clientX mouseEvent - containerLeft mouseEvent)%Qc in
      let canvasY := (clientY mouseEvent - containerTop mouseEvent)%Qc in
      let worldPos := CanvasManager.screenToWorld (camera v)
                        (canvasX - CanvasManager.px (offset (dragState v)))%Qc
                        (canvasY - CanvasManager.py (offset (dragState v)))%Qc in
      let v := updateModulePosition v doc module
                 (CanvasManager.px worldPos) (CanvasManager.py worldPos) in
      updateParentContainer v doc module
  | _, _ => v
  end.

Definition endModuleDrag (v : Viewer) : Viewer := set_dragState v noDrag.

Definition cancelDrag (v : Viewer) (doc : Document) : Viewer :=
  let v :=
    match isDragging (dragState v), draggedModule (dragState v) with
    | true, Some module =>
        match modulePositions v !! path module with
        | Some originalPos =>
            updateModulePosition v doc module (x originalPos) (y originalPos)
        | None => v
        end
    | _, _ => v
    end in
  endModuleDrag v.

(** *** Connections *)

Fixpoint getConnectionsForModule (module : ModuleNode)
    (visibleModules : list ModuleNode) : list Connection :=
  let connections :=
    match declaredConnections module with
    | Some own =>
        let hasVisibleChildren := existsb (includes visibleModules) (children module) in
        if hasVisibleChildren then [] else own
    | None => []
    end in
  fold_left
    (λ connections child,
       if includes visibleModules child then connections
       else connections ++ getConnectionsForModule child visibleModules)
    (children module) connections.

(** [s.split('/').pop()] *)
Fixpoint lastSegment_from (acc s : string) : string :=
  match s with
  | EmptyString => acc
  | String c s' =>
      if Ascii.eqb c "/"%char then lastSegment_from "" s'
      else lastSegment_from (acc ++ String c "")%string s'
  end.

Definition lastSegment (s : string) : string := lastSegment_from "" s.

Definition findByName (targetName : string) (visibleModules : list ModuleNode)
    : option ModuleNode :=
  List.find (λ module, bool_decide (name module = targetName)) visibleModules.

Definition findTargetModule (v : Viewer) (targetPath : string)
    (visibleModules : list ModuleNode) : option ModuleNode :=
  if String.prefix "../" targetPath || String.prefix "./" targetPath then
    findByName (lastSegment targetPath) visibleModules
  else
    match allModules v !! targetPath with
    | Some targetModule =>
        if includes visibleModules targetModule then Some targetModule
        else findByName (lastSegment targetPath) visibleModules
    | None => findByName (lastSegment targetPath) visibleModules
    end.

(** An entry of the [pairs] map: [{ from, to, connections }]. *)
Record Pair := mkPair {
  from : ModuleNode;
  to : ModuleNode;
  pair_connections : list Connection
}.

(** The [Map] [pairs], whose insertion order [Array.from(pairs.values())]
    exposes: an association list with [has], [set] (a new key goes last, an
    old key keeps its place) and the in-place update of the entry under a
    key. *)
Definition Map_has {V} (key : string) (m : list (string * V)) : bool :=
  bool_decide (key ∈ m.*1).

Definition Map_update {V} (f : V → V) (key : string) (m : list (string * V))
    : list (string * V) :=
  (λ kv, if decide (kv.1 = key) then (kv.1, f kv.2) else kv) <$> m.

Definition Map_set {V} (key : string) (val : V) (m : list (string * V))
    : list (string * V) :=
  if Map_has key m then Map_update (λ _, val) key m else m ++ [(key, val)].

Definition pairKey (module target : ModuleNode) : string :=
  (path module ++ "->" ++ path target)%string.

Definition push_connection (conn : Connection) (p : Pair) : Pair :=
  mkPair (from p) (to p) (pair_connections p ++ [conn]).

(** The body of [connections.forEach] in [calculateConnectionPairs]. *)
Definition addConnection (v : Viewer) (visibleModules : list ModuleNode)
    (module : ModuleNode) (pairs : list (string * Pair)) (conn : Connection)
    : list (string * Pair) :=
  match findTargetModule v (target conn) visibleModules with
  | Some target =>
      let key := pairKey module target in
      let pairs :=
        if Map_has key pairs then pairs
        else Map_set key (mkPair module target []) pairs in
      Map_update (push_connection conn) key pairs
  | None => pairs
  end.

Definition connectionPairsMap (v : Viewer) (visibleModules : list ModuleNode)
    : list (string * Pair) :=
  fold_left
    (λ pairs module,
       let connections := getConnectionsForModule module visibleModules in
       fold_left (addConnection v visibleModules module) connections pairs)
    visibleModules [].

Definition calculateConnectionPairs (v : Viewer) (visibleModules : list ModuleNode)
    : list Pair :=
  (connectionPairsMap v visibleModules).*2.

(** [Math.min(8, Math.max(2, connections.length * 2))] in
    [renderConnectionArrow]; lengths are natural numbers. *)
Definition thickness (connections : list Connection) : nat :=
  Nat.min 8 (Nat.max 2 (length connections * 2)).

Fixpoint getConnectionCount (module : ModuleNode) : nat :=
  match declaredConnections module with
  | Some own => length own
  | None =>
      fold_left (λ count child, count + getConnectionCount child)
                (children module) 0
  end.

(** *** Automatic placement *)

Definition isChildOfExpandedParent (v : Viewer) (module : ModuleNode) : bool :=
  bool_decide (0 < level module)%nat
  && bool_decide (parentPath module ∈ expandedModules v).

(** An entry of the array [calculateModulePositions] returns:
    [{ x, y, width, height, isChild, isExpanded }]; [calculateChildPosition]
    leaves [isExpanded] out. *)
Record Position := mkPosition {
  posBox : Box;
  isChild : bool;
  isExpanded : option bool
}.

(** [modules.indexOf(m)], [-1] when absent; the same object is the same
    path. *)
Definition indexOf (modules : list ModuleNode) (m : ModuleNode) : Z :=
  match list_find (λ x, path x = path m) modules with
  | Some (i, _) => Z.of_nat i
  | None => (-1)%Z
  end.

Definition num_of_Z (z : Z) : num := dec z 1.

(** [Math.ceil(Math.sqrt(n))] for an array length [n]. *)
Definition ceil_sqrt (n : nat) : Z :=
  if (Nat.sqrt n * Nat.sqrt n =? n)%nat then Z.of_nat (Nat.sqrt n)
  else Z.of_nat (S (Nat.sqrt n)).

(** The column and row of [index] in a grid of [cols] columns:
    [index % cols] and [Math.floor(index / cols)].  With [cols = 0] the
    source computes [NaN], here [None]. *)
Definition gridCell (index cols : Z) : option (Z * Z) :=
  if decide (cols = 0%Z) then None
  else Some (Z.rem index cols, (index / cols)%Z).

(** [calculateExpandedSize(children)]; [None] for the [NaN] of an empty
    array (the callers pass a non-empty one). *)
Definition calculateExpandedSize (children : list ModuleNode) : option (num * num) :=
  let childCols := ceil_sqrt (length children) in
  if decide (childCols = 0%Z) then None
  else
    let childRows := ((Z.of_nat (length children) + childCols - 1) / childCols)%Z in
    let childWidth := 140%Z in
    let childHeight := 80%Z in
    let childSpacing := 20%Z in
    let width := (childWidth * childCols + childSpacing * (childCols - 1))%Z in
    let height := (childHeight * childRows + childSpacing * (childRows - 1))%Z in
    Some (num_of_Z width, num_of_Z height).

(** [calculateChildPosition]; [None] when the source raises a [TypeError]
    on [parentPosition.x] (no position yet at the parent's index) or
    computes [NaN] (no sibling in the list). *)
Definition calculateChildPosition (v : Viewer) (childModule : ModuleNode)
    (allModules_ : list ModuleNode) (existingPositions : list Position)
    : option Position :=
  let parent := allModules v !! parentPath childModule in
  let parentIndex := match parent with
                     | Some parent => indexOf allModules_ parent
                     | None => (-1)%Z
                     end in
  match parent with
  | Some parent =>
      if decide (parentIndex = (-1)%Z) then
        Some (mkPosition (mkBox (dec 50 1) (dec 50 1) (dec 140 1) (dec 80 1)) true None)
      else
        match existingPositions !! Z.to_nat parentIndex with
        | None => None
        | Some parentPosition =>
            let siblings := filter (λ child, includes allModules_ child = true)
                                   (children parent) in
            let childIndex := indexOf siblings childModule in
            let childCols := ceil_sqrt (length siblings) in
            match gridCell childIndex childCols with
            | None => None
            | Some (col, row) =>
                let padding := 40%Z in
                let titleHeight := 60%Z in
                let childSpacing := 20%Z in
                let childWidth := 140%Z in
                let childHeight := 80%Z in
                Some (mkPosition
                        (mkBox
                           (x (posBox parentPosition)
                            + num_of_Z (padding + col * (childWidth + childSpacing)))%Qc
                           (y (posBox parentPosition)
                            + num_of_Z (titleHeight + padding
                                        + row * (childHeight + childSpacing)))%Qc
                           (num_of_Z childWidth) (num_of_Z childHeight))
                        true None)
            end
        end
  | None =>
      Some (mkPosition (mkBox (dec 50 1) (dec 50 1) (dec 140 1) (dec 80 1)) true None)
  end.

(** [calculateInitialPosition]; [None] as in [calculateChildPosition], or
    when no module of the list is at root level ([NaN]). *)
Definition calculateInitialPosition (v : Viewer) (module : ModuleNode)
    (allModules_ : list ModuleNode) (existingPositions : list Position)
    : option Position :=
  let isExpanded := bool_decide (path module ∈ expandedModules v) in
  let hasChildren := bool_decide (0 < length (children module))%nat in
  let isChild := isChildOfExpandedParent v module in
  if isChild then calculateChildPosition v module allModules_ existingPositions
  else
    let rootModules := filter (λ m, isChildOfExpandedParent v m = false) allModules_ in
    let moduleIndex := indexOf rootModules module in
    let cols := ceil_sqrt (length rootModules) in
    match gridCell moduleIndex cols with
    | None => None
    | Some (col, row) =>
        let baseWidth := 250%Z in
        let baseHeight := 120%Z in
        let spacing := 50%Z in
        let size :=
          if isExpanded && hasChildren then
            let visibleChildren := filter (λ child, includes allModules_ child = true)
                                          (children module) in
            match visibleChildren with
            | [] => Some (num_of_Z baseWidth, num_of_Z baseHeight)
            | _ :: _ =>
                match calculateExpandedSize visibleChildren with
                | Some (w, h) =>
                    Some (Math_max (dec 300 1) (w + dec 80 1)%Qc,
                          Math_max (dec 200 1) (h + dec 120 1)%Qc)
                | None => None
                end
            end
          else Some (num_of_Z baseWidth, num_of_Z baseHeight) in
        match size with
        | None => None
        | Some (width, height) =>
            Some (mkPosition
                    (mkBox (num_of_Z (col * (baseWidth + spacing) + 50))
                           (num_of_Z (row * (baseHeight + spacing) + 50))
                           width height)
                    false (Some isExpanded))
        end
    end.

(** [v || d] for a number [v]: [0] is falsy. *)
Definition or_default (v d : num) : num := if decide (v = 0%Qc) then d else v.

(** The loop of [calculateModulePositions] over the modules still to place:
    the positions pushed so far and the map [this.modulePositions]. *)
Fixpoint calculateModulePositions_loop (v : Viewer) (modules rest : list ModuleNode)
    (positions : list Position) (stored : gmap string Box)
    : option (list Position * gmap string Box) :=
  match rest with
  | [] => Some (positions, stored)
  | module :: rest =>
      match stored !! path module with
      | Some storedPos =>
          calculateModulePositions_loop v modules rest
            (positions ++
               [mkPosition
                  (mkBox (x storedPos) (y storedPos)
                         (or_default (width storedPos) (dec 250 1))
                         (or_default (height storedPos) (dec 120 1)))
                  (isChildOfExpandedParent v module)
                  (Some (bool_decide (path module ∈ expandedModules v)))])
            stored
      | None =>
          match calculateInitialPosition v module modules positions with
          | None => None
          | Some position =>
              calculateModulePositions_loop v modules rest
                (positions ++ [position])
                (<[path module := posBox position]> stored)
          end
      end
  end.

Definition calculateModulePositions (v : Viewer) (modules : list ModuleNode)
    : option (list Position * Viewer) :=
  match calculateModulePositions_loop v modules modules [] (modulePositions v) with
  | Some (positions, stored) => Some (positions, set_modulePositions v stored)
  | None => None
  end.

(** [renderAllVisibleModules]: what it writes to [this]; [renderModule]
    writes the document only. *)
Definition renderAllVisibleModules (v : Viewer) : option Viewer :=
  let visibleModules := getVisibleModules v in
  match calculateModulePositions v visibleModules with
  | Some (_, v) => Some v
  | None => None
  end.

(** [renderSystem]: without root modules it returns before it lays
    anything out.  It creates the canvas manager when there is none yet;
    [camera] stands for the camera that manager has from then on, and the
    clearing and filling of the document are not part of [Viewer]. *)
Definition renderSystem (v : Viewer) : option Viewer :=
  match rootModules v with
  | [] => Some v
  | _ :: _ => renderAllVisibleModules v
  end.

Definition set_expandedModules (v : Viewer) (expanded : gset string) : Viewer :=
  mkViewer (allModules v) expanded (rootModules v) (modulePositions v)
           (dragState v) (camera v).

(** [toggleModuleExpansion] on the whole state, [doc] being the document
    once [renderSystem] has rebuilt it.  [None] when [renderSystem] raises.
    [selectModule] writes [this.selectedModule] and the document, which are
    not part of [Viewer]. *)
Definition toggleModuleExpansion_viewer (v : Viewer) (doc : Document)
    (module : ModuleNode) : option Viewer :=
  match children module with
  | [] => Some v
  | _ :: _ =>
      let v := set_expandedModules v
                 (if decide (path module ∈ expandedModules v) then
                    collapseModule module (expandedModules v)
                  else expandedModules v ∪ {[path module]}) in
      match renderSystem v with
      | None => None
      | Some v =>
          let v := recalculateParentBounds v doc module in
          Some (updateParentContainer v doc module)
      end
  end.

(** *** Input handlers *)

(** [handleCanvasMouseMove], [handleCanvasMouseUp] (the event's [button]),
    [handleCanvasMouseLeave] and the [Escape] branch of [handleKeyDown]. *)
Definition handleCanvasMouseMove (v : Viewer) (doc : Document) (e : MouseEvent)
    : Viewer :=
  if isDragging (dragState v) then updateModuleDrag v doc e else v.

Definition handleCanvasMouseUp (v : Viewer) (button : Z) : Viewer :=
  if isDragging (dragState v) && bool_decide (button = 2%Z) then endModuleDrag v
  else v.

Definition handleCanvasMouseLeave (v : Viewer) : Viewer :=
  if isDragging (dragState v) then endModuleDrag v else v.

Definition handleEscape (v : Viewer) (doc : Document) : Viewer :=
  if isDragging (dragState v) then cancelDrag v doc else v.

(** [handleModuleMouseDown]: the left button toggles, the right button
    starts a drag; [doc] is the document the branch taken consults. *)
Definition handleModuleMouseDown (v : Viewer) (doc : Document) (module : ModuleNode)
    (button : Z) (mouseEvent : MouseEvent) : option Viewer :=
  if decide (button = 0%Z) then toggleModuleExpansion_viewer v doc module
  else if decide (button = 2%Z) then startModuleDrag v doc module mouseEvent
  else Some v.

(** *** Connection anchors *)

(** The rectangle [renderConnectionArrow] reads off an element. *)
Record Rect := mkRect {
  left : num;
  top : num;
  rwidth : num;
  rheight : num
}.

Definition Math_abs (a : num) : num := if decide (0 ≤ a)%Qc then a else (- a)%Qc.

(** The part of [renderConnectionArrow] that picks the two ends of the
    line: [(startX, startY, endX, endY)]. *)
Definition connectionAnchors (fromRect toRect : Rect) : num * num * num * num :=
  let fromCenterX := (left fromRect + rwidth fromRect / dec 2 1)%Qc in
  let fromCenterY := (top fromRect + rheight fromRect / dec 2 1)%Qc in
  let toCenterX := (left toRect + rwidth toRect / dec 2 1)%Qc in
  let toCenterY := (top toRect + rheight toRect / dec 2 1)%Qc in
  let dx := (toCenterX - fromCenterX)%Qc in
  let dy := (toCenterY - fromCenterY)%Qc in
  let '(startX, startY) :=
    if decide (Math_abs dy < Math_abs dx)%Qc then
      if decide (0 < dx)%Qc then ((left fromRect + rwidth fromRect)%Qc, fromCenterY)
      else (left fromRect, fromCenterY)
    else
      if decide (0 < dy)%Qc then (fromCenterX, (top fromRect + rheight fromRect)%Qc)
      else (fromCenterX, top fromRect) in
  let '(endX, endY) :=
    if decide (Math_abs dy < Math_abs dx)%Qc then
      if decide (0 < dx)%Qc then (left toRect, toCenterY)
      else ((left toRect + rwidth toRect)%Qc, toCenterY)
    else
      if decide (0 < dy)%Qc then (toCenterX, top toRect)
      else (toCenterX, (top toRect + rheight toRect)%Qc) in
  (startX, startY, endX, endY).

End PCBSystemViewer.

(** ** Notions used in the statements

    Lists and sets that describe what the operations above compute; the
    theorems relate the operations to them. *)

Module Notions.
Import PCBSystemViewer.

(** The modules [addExpandedChildren] appends for [m]. *)
Fixpoint shown (expanded : gset string) (m : ModuleNode) : list ModuleNode :=
  if decide (path m ∈ expanded) then
    flat_map (λ c, c :: shown expanded c) (children m)
  else [].

(** The paths of [m] and of the modules below it. *)
Definition subtree_paths (m : ModuleNode) : gset string :=
  list_to_set (path <$> (m :: descendants m)).

(** The children [moveChildren] moves, and those it reaches below them:
    the visible ones with a stored box ([D] is the set of stored paths),
    followed down through the expanded ones. *)
Fixpoint reached (vis : list ModuleNode) (E D : gset string) (m : ModuleNode)
    : list ModuleNode :=
  flat_map
    (λ c, if includes vis c && bool_decide (path c ∈ D) then
            c :: (if decide (path c ∈ E) then reached vis E D c else [])
          else [])
    (children m).

(** The box stored under [q] once the boxes of the modules [S] have been
    translated. *)
Definition moved (dx dy : num) (S : list ModuleNode) (boxes : gmap string Box)
    (q : string) : option Box :=
  if decide (q ∈ path <$> S) then translate dx dy <$> boxes !! q else boxes !! q.

(** A connection together with the visible module it was gathered for and
    the visible module its target resolved to. *)
Definition Item : Type := ModuleNode * ModuleNode * Connection.

Definition itemKey (i : Item) : string := pairKey i.1.1 i.1.2.

Definition resolveConnections (v : Viewer) (vis : list ModuleNode)
    (m : ModuleNode) : list Item :=
  flat_map
    (λ conn, match findTargetModule v (target conn) vis with
             | Some t => [(m, t, conn)]
             | None => []
             end)
    (getConnectionsForModule m vis).

(** The resolved connections of a render pass, in traversal order. *)
Definition resolved (v : Viewer) (vis : list ModuleNode) : list Item :=
  flat_map (resolveConnections v vis) vis.

Definition addItem (pairs : list (string * Pair)) (i : Item)
    : list (string * Pair) :=
  Map_update (push_connection i.2) (itemKey i)
    (if Map_has (itemKey i) pairs then pairs
     else Map_set (itemKey i) (mkPair i.1.1 i.1.2 []) pairs).

(** The entries group the items by key: one entry per key, holding in
    order the connections of the items with that key, under the endpoints
    of one of them. *)
Definition grouped (items : list Item) (pairs : list (string * Pair)) : Prop :=
  NoDup pairs.*1 ∧
  (∀ k e, (k, e) ∈ pairs →
     k = pairKey (from e) (to e) ∧
     pair_connections e = snd <$> filter (λ i, itemKey i = k) items ∧
     ∃ conn, (from e, to e, conn) ∈ items) ∧
  (∀ i, i ∈ items → itemKey i ∈ pairs.*1).

(** Two states of the viewer over the same tree, expansion set, drag state
    and camera: they differ in the stored boxes at most. *)
Definition same_tree (v v' : Viewer) : Prop :=
  allModules v' = allModules v ∧ expandedModules v' = expandedModules v ∧
  rootModules v' = rootModules v ∧ dragState v' = dragState v ∧
  camera v' = camera v.

(** The world position [updateModuleDrag] computes for the dragged module
    from a mouse event. *)
Definition dragTarget (v : Viewer) (mouseEvent : MouseEvent) : CanvasManager.Point :=
  CanvasManager.screenToWorld (camera v)
    (clientX mouseEvent - containerLeft mouseEvent
     - CanvasManager.px (offset (dragState v)))%Qc
    (clientY mouseEvent - containerTop mouseEvent
     - CanvasManager.py (offset (dragState v)))%Qc.

(** In [l], read after [pre], every module is one of [exempt] or comes
    after a module that is expanded and has it as a child. *)
Definition parents_first (E : gset string) (exempt pre l : list ModuleNode) : Prop :=
  ∀ l1 d l2, l = l1 ++ d :: l2 →
    d ∈ exempt ∨ ∃ p, p ∈ pre ++ l1 ∧ path p ∈ E ∧ d ∈ children p.

(** The layout invariant: every visible module has a stored box. *)
Definition layout_ok (v : Viewer) : Prop :=
  ∀ u, u ∈ getVisibleModules v → is_Some (modulePositions v !! path u).

(** The drag state is coherent: dragging exactly when a module is held. *)
Definition drag_ok (d : DragState) : Prop :=
  isDragging d = true ↔ is_Some (draggedModule d).

(** What happens to a canvas: the events its listeners are registered for
    in [initEventListeners], and the call of [resetView] (with the
    container's width and height) that the [R] key makes. *)
Inductive CanvasEvent :=
| Wheel (e : CanvasManager.WheelEvent)
| MouseDown (e : CanvasManager.PanEvent)
| MouseMove (e : CanvasManager.PanEvent)
| MouseUp (e : CanvasManager.PanEvent)
| MouseLeave
| ResetView (width height : num).

Definition dispatch (c : CanvasManager.Canvas) (ev : CanvasEvent)
    : CanvasManager.Canvas :=
  match ev with
  | Wheel e => CanvasManager.handleWheel c e
  | MouseDown e => CanvasManager.handleMouseDown c e
  | MouseMove e => CanvasManager.handleMouseMove c e
  | MouseUp e => CanvasManager.handleMouseUp c e
  | MouseLeave => CanvasManager.handleMouseLeave c
  | ResetView width height =>
      CanvasManager.set_camera c (CanvasManager.resetView width height)
  end.

(** What can happen to the viewer once a tree is loaded: a mouse button
    goes down on a rendered module, the pointer moves over the canvas, a
    button is released, the pointer leaves, [Escape] is pressed.  Each
    event comes with the document as it is when the handler consults it. *)
Inductive ViewerEvent :=
| ModuleMouseDown (doc : Document) (module : ModuleNode) (button : Z)
                  (mouseEvent : MouseEvent)
| CanvasMouseMove (doc : Document) (mouseEvent : MouseEvent)
| CanvasMouseUp (button : Z)
| CanvasMouseLeave
| Escape (doc : Document).

Definition handle (v : Viewer) (ev : ViewerEvent) : option Viewer :=
  match ev with
  | ModuleMouseDown doc module button mouseEvent =>
      handleModuleMouseDown v doc module button mouseEvent
  | CanvasMouseMove doc mouseEvent => Some (handleCanvasMouseMove v doc mouseEvent)
  | CanvasMouseUp button => Some (handleCanvasMouseUp v button)
  | CanvasMouseLeave => Some (handleCanvasMouseLeave v)
  | Escape doc => Some (handleEscape v doc)
  end.

(** The events in turn; [None] as soon as a handler raises. *)
Fixpoint handle_all (v : Viewer) (events : list ViewerEvent) : option Viewer :=
  match events with
  | [] => Some v
  | ev :: events =>
      match handle v ev with
      | Some v => handle_all v events
      | None => None
      end
  end.

(** The module an event is about is a module of the tree. *)
Definition about_tree (roots : list ModuleNode) (ev : ViewerEvent) : Prop :=
  match ev with
  | ModuleMouseDown _ module _ _ => module ∈ all_nodes roots
  | _ => True
  end.

(** The stored boxes of the modules of a list, in order. *)
Definition boxesOf (positions : gmap string Box) (modules : list ModuleNode)
    : list Box :=
  omap (λ m, positions !! path m) modules.

(** [(minX, minY, maxX, maxY)] is the bounding box of [boxes]: it contains
    each of them and each of its sides touches one. *)
Definition bounding (boxes : list Box) (r : num * num * num * num) : Prop :=
  let '(minX, minY, maxX, maxY) := r in
  (∀ b, b ∈ boxes →
        (minX ≤ x b)%Qc ∧ (minY ≤ y b)%Qc ∧
        (x b + width b ≤ maxX)%Qc ∧ (y b + height b ≤ maxY)%Qc) ∧
  (∃ b, b ∈ boxes ∧ x b = minX) ∧ (∃ b, b ∈ boxes ∧ y b = minY) ∧
  (∃ b, b ∈ boxes ∧ (x b + width b)%Qc = maxX) ∧
  (∃ b, b ∈ boxes ∧ (y b + height b)%Qc = maxY).

(** The container box [pb] leaves a margin of 40 around the box [b], and
    60 more above it for the title. *)
Definition encloses (pb b : Box) : Prop :=
  (x pb + dec 40 1 ≤ x b)%Qc ∧ (y pb + dec 60 1 + dec 40 1 ≤ y b)%Qc ∧
  (x b + width b + dec 40 1 ≤ x pb + width pb)%Qc ∧
  (y b + height b + dec 40 1 ≤ y pb + height pb)%Qc.

(** Each margin of [pb] is exact for one of [boxes]. *)
Definition hugs (pb : Box) (boxes : list Box) : Prop :=
  (∃ b, b ∈ boxes ∧ (x pb + dec 40 1)%Qc = x b) ∧
  (∃ b, b ∈ boxes ∧ (y pb + dec 60 1 + dec 40 1)%Qc = y b) ∧
  (∃ b, b ∈ boxes ∧ (x b + width b + dec 40 1)%Qc = (x pb + width pb)%Qc) ∧
  (∃ b, b ∈ boxes ∧ (y b + height b + dec 40 1)%Qc = (y pb + height pb)%Qc).

(** The connections a module declares itself, none when it has no
    connection file. *)
Definition declared (m : ModuleNode) : list Connection :=
  default [] (declaredConnections m).

(** The centre of a rectangle. *)
Definition centre (r : Rect) : num * num :=
  ((left r + rwidth r / dec 2 1)%Qc, (top r + rheight r / dec 2 1)%Qc).

(** Two boxes whose corners are at least [dx] apart horizontally or at
    least [dy] apart vertically. *)
Definition apart (dx dy : Z) (b1 b2 : Box) : Prop :=
  (x b1 + num_of_Z dx ≤ x b2)%Qc ∨ (x b2 + num_of_Z dx ≤ x b1)%Qc ∨
  (y b1 + num_of_Z dy ≤ y b2)%Qc ∨ (y b2 + num_of_Z dy ≤ y b1)%Qc.

(** Whether a string holds [->], the separator of the keys of
    [calculateConnectionPairs]. *)
Fixpoint has_arrow (s : string) : bool :=
  match s with
  | EmptyString => false
  | String c s' =>
      (Ascii.eqb c "-"%char
       && match s' with
          | String d _ => Ascii.eqb d ">"%char
          | EmptyString => false
          end)
      || has_arrow s'
  end.

(** Whether a string holds the separator [/]. *)
Fixpoint has_slash (s : string) : bool :=
  match s with
  | EmptyString => false
  | String c s' => Ascii.eqb c "/"%char || has_slash s'
  end.

(** Only modules of the forest that have children are expanded. *)
Definition expansion_ok (roots : list ModuleNode) (E : gset string) : Prop :=
  ∀ q, q ∈ E → ∃ n, n ∈ all_nodes roots ∧ path n = q ∧ children n ≠ [].

(** The state the handlers keep: a well-formed tree, a box for every
    visible module, a coherent drag state holding a module of the tree,
    and only modules with children expanded. *)
Definition viewer_ok (v : Viewer) : Prop :=
  wf_tree v ∧ layout_ok v ∧ drag_ok (dragState v) ∧
  (∀ m, draggedModule (dragState v) = Some m → m ∈ all_nodes (rootModules v)) ∧
  expansion_ok (rootModules v) (expandedModules v).

End Notions.

(** ** Sample data

    A small tree: root [A] with child [A/B] and grandchild [A/B/D], and a
    second root [C]; [A] declares a connection to [C] by absolute path,
    [A/B] one by relative path. *)

Module Samples.
Import PCBSystemViewer.

Definition link (target : string) : Connection :=
  mkConnection target "bus" (Some "i2c") ["sda"; "scl"] (Some "link").

Definition declares (l : list Connection) : option ConnectionData :=
  Some (mkConnectionData (Some l)).

Definition D : ModuleNode := mkModule "D" "A/B/D" "A/B" [] 2 system None.
Definition B : ModuleNode :=
  mkModule "B" "A/B" "A" [D] 1 system (declares [link "../C"]).
Definition A : ModuleNode :=
  mkModule "A" "A" "" [B] 0 system (declares [link "C"]).
Definition C : ModuleNode := mkModule "C" "C" "" [] 0 system None.

Definition roots : list ModuleNode := [A; C].

(** [allModules] as [buildModuleTreeFromDirectories] fills it: one entry
    per module, under its path. *)
Definition index_of (roots : list ModuleNode) : gmap string ModuleNode :=
  list_to_map ((λ m, (path m, m)) <$> all_nodes roots).

Definition box (x y width height : Z) : Box :=
  mkBox (dec x 1) (dec y 1) (dec width 1) (dec height 1).

(** Boxes as the grid places the two roots, and boxes for the tree with
    [A] and [A/B] expanded. *)
Definition laid_out : gmap string Box :=
  <["A" := box 50 50 250 120]> (<["C" := box 350 50 250 120]> ∅).

Definition laid_out_open : gmap string Box :=
  <["A" := box 50 50 300 360]>
    (<["A/B" := box 90 150 220 220]>
       (<["A/B/D" := box 130 250 140 80]>
          (<["C" := box 500 50 250 120]> ∅))).

Definition identity_camera : CanvasManager.Camera :=
  CanvasManager.mkCamera (dec 0 1) (dec 0 1) (dec 1 1).

Definition viewer (expanded : gset string) (positions : gmap string Box) : Viewer :=
  mkViewer (index_of roots) expanded roots positions noDrag identity_camera.

(** Everything collapsed; [A] and [A/B] expanded. *)
Definition collapsed : Viewer := viewer ∅ laid_out.
Definition opened : Viewer := viewer {["A"; "A/B"]} laid_out_open.

(** [A] and [A/B] expanded, but no box stored for [A/B]. *)
Definition opened_gap : Viewer :=
  viewer {["A"; "A/B"]} (delete "A/B" laid_out_open).

(** A module with one connection of its own whose two children declare
    five more. *)
Definition hub : ModuleNode :=
  mkModule "hub" "hub" ""
    [mkModule "k1" "hub/k1" "hub" [] 1 system
       (declares [link "a"; link "b"]);
     mkModule "k2" "hub/k2" "hub" [] 1 system
       (declares [link "c"; link "d"; link "e"])]
    0 system (declares [link "x"]).

(** The document while the sample tree is shown collapsed: [A] and [C]
    are rendered where their boxes are. *)
Definition document : Document :=
  <["A" := mkElement (dec 250 1) (dec 120 1) (dec 50 1) (dec 50 1)]>
    (<["C" := mkElement (dec 250 1) (dec 120 1) (dec 350 1) (dec 50 1)]> ∅).

(** A drag of [A]: the button goes down at [(60, 60)], the pointer moves to
    [(160, 110)], then the drag is cancelled. *)
Definition press : MouseEvent := mkMouse (dec 60 1) (dec 60 1) (dec 0 1) (dec 0 1).
Definition move : MouseEvent := mkMouse (dec 160 1) (dec 110 1) (dec 0 1) (dec 0 1).

Definition drag_started : Viewer :=
  default collapsed (startModuleDrag collapsed document A press).
Definition drag_moved : Viewer := updateModuleDrag drag_started document move.
Definition drag_cancelled : Viewer := cancelDrag drag_moved document.

(** The document while [A] and [A/B] are shown expanded, and a drag of
    [A/B] by [(10, -5)]. *)
Definition document_open : Document :=
  <["A" := mkElement (dec 300 1) (dec 360 1) (dec 50 1) (dec 50 1)]>
    (<["A/B" := mkElement (dec 220 1) (dec 220 1) (dec 90 1) (dec 150 1)]>
       (<["A/B/D" := mkElement (dec 140 1) (dec 80 1) (dec 130 1) (dec 250 1)]>
          (<["C" := mkElement (dec 250 1) (dec 120 1) (dec 500 1) (dec 50 1)]> ∅))).

Definition press_B : MouseEvent :=
  mkMouse (dec 100 1) (dec 160 1) (dec 0 1) (dec 0 1).
Definition move_B : MouseEvent :=
  mkMouse (dec 110 1) (dec 155 1) (dec 0 1) (dec 0 1).

Definition dragging_B : Viewer :=
  default opened (startModuleDrag opened document_open B press_B).

(** The same with no box stored for [A/B], and a drag of [A]. *)
Definition dragging_A_gap : Viewer :=
  default opened_gap (startModuleDrag opened_gap document_open A press).

(** Cameras and wheel events. *)
Definition cam0 : CanvasManager.Camera :=
  CanvasManager.mkCamera (dec 30 1) (dec (-12) 1) (dec 3 2).
Definition cam_top : CanvasManager.Camera :=
  CanvasManager.mkCamera (dec 30 1) (dec (-12) 1) (dec 5 1).
Definition wheel_in : CanvasManager.WheelEvent :=
  CanvasManager.mkWheel (dec (-100) 1) (dec 400 1) (dec 250 1) (dec 8 1) (dec 8 1).

Definition wheel_out : CanvasManager.WheelEvent :=
  CanvasManager.mkWheel (dec 100 1) (dec 400 1) (dec 250 1) (dec 8 1) (dec 8 1).

(** A canvas at rest, a middle-button press and pointer moves. *)
Definition still : CanvasManager.Canvas :=
  CanvasManager.mkCanvas cam0 false (CanvasManager.mkPoint 0 0)
    (CanvasManager.mkPoint 0 0) (CanvasManager.mkPoint 0 0).
Definition middle_down : CanvasManager.PanEvent :=
  CanvasManager.mkPanEvent 1 (dec 200 1) (dec 100 1).
Definition drift (px py : Z) : CanvasManager.PanEvent :=
  CanvasManager.mkPanEvent 1 (dec px 1) (dec py 1).
Definition panning : CanvasManager.Canvas :=
  fold_left CanvasManager.handleMouseMove [drift 260 140]
            (CanvasManager.handleMouseDown still middle_down).


(** The tree of [hub] alone, expanded, with nothing laid out yet; its two
    children; the position of [hub] on the grid. *)
Definition hub_k1 : ModuleNode :=
  mkModule "k1" "hub/k1" "hub" [] 1 system (declares [link "a"; link "b"]).
Definition hub_k2 : ModuleNode :=
  mkModule "k2" "hub/k2" "hub" [] 1 system
    (declares [link "c"; link "d"; link "e"]).
Definition hub_viewer : Viewer :=
  mkViewer (index_of [hub]) {["hub"]} [hub] ∅ noDrag identity_camera.
Definition hub_position : Position :=
  mkPosition (box 50 50 300 200) false (Some true).

(** A folder [P] with the directories [A], [A->P] (which holds [B]) and
    [B->P]; [P] and [A->P] are expanded.  [P/A] declares two connections to
    [P/B->P], and [P/A->P/B] one to [P]. *)
Definition wire (target description : string) : Connection :=
  mkConnection target "bus" (Some "i2c") ["sda"; "scl"] (Some description).

Definition arrow_A : ModuleNode :=
  mkModule "A" "P/A" "P" [] 1 system
    (declares [wire "P/B->P" "first"; wire "P/B->P" "second"]).
Definition arrow_B : ModuleNode :=
  mkModule "B" "P/A->P/B" "P/A->P" [] 2 system (declares [wire "P" "third"]).
Definition arrow_AP : ModuleNode :=
  mkModule "A->P" "P/A->P" "P" [arrow_B] 1 system None.
Definition arrow_BP : ModuleNode :=
  mkModule "B->P" "P/B->P" "P" [] 1 system None.
Definition arrow_P : ModuleNode :=
  mkModule "P" "P" "" [arrow_A; arrow_AP; arrow_BP] 0 system None.

Definition arrow_viewer : Viewer :=
  mkViewer (index_of [arrow_P]) {["P"; "P/A->P"]} [arrow_P] ∅ noDrag
           identity_camera.

(** The rectangles of the elements of [A] and [C] in the collapsed tree. *)
Definition rect_A : Rect := mkRect (dec 50 1) (dec 50 1) (dec 250 1) (dec 120 1).
Definition rect_C : Rect := mkRect (dec 350 1) (dec 50 1) (dec 250 1) (dec 120 1).

Definition blind_press : list Notions.ViewerEvent :=
  [Notions.ModuleMouseDown ∅ A 2 press].

End Samples.

(** * Theorems *)

(** A decidable proposition about closed terms, by evaluation; an equation
    between closed boxes or points, by evaluation up to the canonicity
    proofs of [Qc]. *)
Ltac by_computation := apply (bool_decide_unpack _); vm_compute; exact I.

Ltac qc_eq := vm_compute; repeat f_equal; apply Qc_is_canon; reflexivity.

(** ** Camera *)

Section CameraTheorems.
Import CanvasManager.
Import Samples.

Lemma minZoom_pos : (0 < minZoom)%Qc.
Proof. reflexivity. Qed.

Lemma minZoom_le_maxZoom : (minZoom ≤ maxZoom)%Qc.
Proof. discriminate. Qed.

Lemma valid_zoom_nonzero (cam : Camera) :
  (minZoom ≤ zoom cam)%Qc → zoom cam ≠ 0%Qc.
Proof.
  intros Hle Hz. rewrite Hz in Hle. exact (Qclt_not_le _ _ minZoom_pos Hle).
Qed.

Lemma roundtrip_arith (p c z : num) :
  z ≠ 0%Qc → ((p - c) / z * z + c)%Qc = p ∧ ((p * z + c - c) / z)%Qc = p.
Proof. intros Hz. split; field; exact Hz. Qed.

(** C1. For a camera whose zoom lies within the bounds, the two coordinate
    conversions are mutual inverses: [worldToScreen (screenToWorld p) = p]
    and [screenToWorld (worldToScreen p) = p], for every point [p]. *)
Theorem screen_world_roundtrip (cam : Camera) (sx sy : num) :
  (minZoom ≤ zoom cam ≤ maxZoom)%Qc →
  (let w := screenToWorld cam sx sy in
   worldToScreen cam (px w) (py w) = mkPoint sx sy) ∧
  (let s := worldToScreen cam sx sy in
   screenToWorld cam (px s) (py s) = mkPoint sx sy).
Proof.
  intros [Hlo _]. apply valid_zoom_nonzero in Hlo.
  unfold screenToWorld, worldToScreen; simpl.
  destruct (roundtrip_arith sx (x cam) (zoom cam) Hlo) as [-> ->].
  destruct (roundtrip_arith sy (y cam) (zoom cam) Hlo) as [-> ->].
  split; reflexivity.
Qed.

Lemma screen_world_roundtrip_witness :
  (let w := screenToWorld cam0 (dec 7 1) (dec 9 2) in
   worldToScreen cam0 (px w) (py w) = mkPoint (dec 7 1) (dec 9 2)) ∧
  (let s := worldToScreen cam0 (dec 7 1) (dec 9 2) in
   screenToWorld cam0 (px s) (py s) = mkPoint (dec 7 1) (dec 9 2)).
Proof.
  apply (screen_world_roundtrip cam0 (dec 7 1) (dec 9 2)).
  split; discriminate.
Defined.

Lemma clamp_outside (z : num) :
  (z < minZoom ∨ maxZoom < z)%Qc →
  Math_max minZoom (Math_min maxZoom z) ≠ z.
Proof.
  unfold Math_max, Math_min. intros [Hlt | Hgt].
  - destruct (decide (maxZoom ≤ z)%Qc) as [Hmz | _].
    + exfalso. apply (Qclt_not_le _ _ Hlt).
      exact (Qcle_trans _ _ _ minZoom_le_maxZoom Hmz).
    + rewrite decide_False by (apply Qclt_not_le; exact Hlt).
      intros Heq. rewrite Heq in Hlt. exact (Qclt_not_eq _ _ Hlt eq_refl).
  - rewrite (decide_True (P := (maxZoom ≤ z)%Qc)) by (apply Qclt_le_weak; exact Hgt).
    rewrite decide_True by exact minZoom_le_maxZoom.
    intros Heq. rewrite Heq in Hgt. exact (Qclt_not_eq _ _ Hgt eq_refl).
Qed.

Lemma clamp_inside (z : num) :
  (minZoom ≤ z ≤ maxZoom)%Qc → Math_max minZoom (Math_min maxZoom z) = z.
Proof.
  unfold Math_max, Math_min. intros [Hlo Hhi].
  destruct (decide (maxZoom ≤ z)%Qc) as [Hmz | _].
  - rewrite decide_True by exact minZoom_le_maxZoom.
    apply Qcle_antisym; assumption.
  - rewrite decide_True by exact Hlo. reflexivity.
Qed.

(** C2. A wheel event whose tentative zoom falls outside
    [[minZoom, maxZoom]] leaves the camera unchanged: [x], [y] and [zoom]
    are all what they were. *)
Theorem handleZoom_out_of_bounds_noop (cam : Camera) (e : WheelEvent) :
  (minZoom ≤ zoom cam ≤ maxZoom)%Qc →
  (newZoom cam e < minZoom ∨ maxZoom < newZoom cam e)%Qc →
  handleZoom cam e = cam ∧
  x (handleZoom cam e) = x cam ∧
  y (handleZoom cam e) = y cam ∧
  zoom (handleZoom cam e) = zoom cam.
Proof.
  intros _ Hout. apply clamp_outside in Hout.
  assert (handleZoom cam e = cam) as ->; [| done].
  unfold handleZoom. cbv zeta. rewrite decide_True by exact Hout. reflexivity.
Qed.

Lemma handleZoom_out_of_bounds_noop_witness :
  handleZoom cam_top wheel_in = cam_top ∧
  x (handleZoom cam_top wheel_in) = x cam_top ∧
  y (handleZoom cam_top wheel_in) = y cam_top ∧
  zoom (handleZoom cam_top wheel_in) = zoom cam_top.
Proof.
  apply (handleZoom_out_of_bounds_noop cam_top wheel_in).
  - split; discriminate.
  - right. reflexivity.
Defined.

(** C3. After an in-bounds zoom at the screen point [(mouseX, mouseY)], the
    world point that was under that screen point before the zoom is mapped
    back to [(mouseX, mouseY)] by the updated camera, whose zoom is the
    tentative zoom. *)
Theorem handleZoom_fixes_cursor (cam : Camera) (e : WheelEvent) :
  (minZoom ≤ zoom cam ≤ maxZoom)%Qc →
  (minZoom ≤ newZoom cam e ≤ maxZoom)%Qc →
  let worldPos := screenToWorld cam (mouseX e) (mouseY e) in
  let cam' := handleZoom cam e in
  zoom cam' = newZoom cam e ∧
  worldToScreen cam' (px worldPos) (py worldPos) = mkPoint (mouseX e) (mouseY e).
Proof.
  intros _ Hin. apply clamp_inside in Hin.
  unfold handleZoom. cbv zeta. rewrite Hin.
  rewrite decide_False by (intros Hne; exact (Hne eq_refl)).
  unfold worldToScreen, screenToWorld; simpl. split; [reflexivity |].
  f_equal; ring.
Qed.

Lemma handleZoom_fixes_cursor_witness :
  let worldPos := screenToWorld cam0 (mouseX wheel_in) (mouseY wheel_in) in
  let cam' := handleZoom cam0 wheel_in in
  zoom cam' = newZoom cam0 wheel_in ∧
  worldToScreen cam' (px worldPos) (py worldPos)
    = mkPoint (mouseX wheel_in) (mouseY wheel_in).
Proof.
  apply (handleZoom_fixes_cursor cam0 wheel_in); split; discriminate.
Defined.

Lemma clamp_bounds (z : num) :
  (minZoom ≤ Math_max minZoom (Math_min maxZoom z) ≤ maxZoom)%Qc.
Proof.
  unfold Math_max, Math_min.
  destruct (decide (maxZoom ≤ z)%Qc) as [Hmz | Hmz].
  - rewrite decide_True by exact minZoom_le_maxZoom.
    split; [exact minZoom_le_maxZoom | apply Qcle_refl].
  - destruct (decide (minZoom ≤ z)%Qc) as [Hlo | Hlo].
    + split; [exact Hlo |]. apply Qclt_le_weak. by apply Qcnot_le_lt.
    + split; [apply Qcle_refl | exact minZoom_le_maxZoom].
Qed.

(** The zoom is within its bounds after [constrainCamera], and stays
    within them across [handleZoom]. *)
Lemma constrainCamera_bounds (cam : Camera) :
  (minZoom ≤ zoom (constrainCamera cam) ≤ maxZoom)%Qc.
Proof. apply clamp_bounds. Qed.

Lemma handleZoom_keeps_bounds (cam : Camera) (e : WheelEvent) :
  (minZoom ≤ zoom cam ≤ maxZoom)%Qc →
  (minZoom ≤ zoom (handleZoom cam e) ≤ maxZoom)%Qc.
Proof.
  intros Hcam. unfold handleZoom. cbv zeta.
  destruct (decide _); [exact Hcam | apply clamp_bounds].
Qed.

End CameraTheorems.

(** ** Module trees *)

Section TreeTheorems.
Import PCBSystemViewer Notions.

(** Induction on a module with the hypothesis for all its children. *)
Lemma ModuleNode_ind (P : ModuleNode → Prop) :
  (∀ m, Forall P (children m) → P m) → ∀ m, P m.
Proof.
  intros step. fix IH 1. intros [n p pp cs l t c]. apply step. simpl.
  induction cs as [| c0 cs IHcs]; constructor; [apply IH | exact IHcs].
Qed.

Lemma fold_left_ext_Forall {A B} (f g : A → B → A) (l : list B) :
  Forall (λ b, ∀ a, f a b = g a b) l → ∀ a, fold_left f l a = fold_left g l a.
Proof.
  induction 1 as [| b l Hb _ IH]; intros a; simpl; [reflexivity |].
  rewrite Hb. apply IH.
Qed.

Lemma fold_left_app_flat_map {A B} (f : B → list A) (l : list B) (acc : list A) :
  fold_left (λ acc b, acc ++ f b) l acc = acc ++ flat_map f l.
Proof.
  revert acc. induction l as [| b l IH]; intros acc; simpl.
  - by rewrite app_nil_r.
  - by rewrite IH, app_assoc.
Qed.

Lemma addExpandedChildren_app (E : gset string) (m : ModuleNode) :
  ∀ acc, addExpandedChildren E m acc = acc ++ shown E m.
Proof.
  induction m as [m IH] using ModuleNode_ind. intros acc.
  destruct m as [n p pp cs l t c]; simpl in *.
  destruct (decide (p ∈ E)); [| by rewrite app_nil_r].
  rewrite (fold_left_ext_Forall _ (λ acc c, acc ++ (c :: shown E c))).
  - apply fold_left_app_flat_map.
  - eapply Forall_impl; [exact IH |]. intros c0 Hc a. simpl in Hc.
    by rewrite Hc, <- app_assoc.
Qed.

Lemma getVisibleModulesOf_flat_map (roots : list ModuleNode) (E : gset string) :
  getVisibleModulesOf roots E = flat_map (λ r, r :: shown E r) roots.
Proof.
  unfold getVisibleModulesOf.
  rewrite (fold_left_ext_Forall _ (λ acc r, acc ++ (r :: shown E r))).
  - by rewrite fold_left_app_flat_map.
  - apply Forall_forall. intros r _ a.
    by rewrite addExpandedChildren_app, <- app_assoc.
Qed.

Lemma elem_of_flat_map {A B} (f : A → list B) (l : list A) (b : B) :
  b ∈ flat_map f l ↔ ∃ a, a ∈ l ∧ b ∈ f a.
Proof.
  rewrite !list_elem_of_In, in_flat_map.
  split; intros (a & Ha & Hb); exists a; by rewrite ?list_elem_of_In in *.
Qed.

(** Whatever [shown] lists below [m] is the child of an expanded module,
    which is [m] itself or is listed too. *)
Lemma shown_parent (E : gset string) (m d : ModuleNode) :
  d ∈ shown E m →
  ∃ p, (p = m ∨ p ∈ shown E m) ∧ path p ∈ E ∧ d ∈ children p.
Proof.
  induction m as [m IH] using ModuleNode_ind.
  destruct m as [n p pp cs l t c]; simpl in *.
  destruct (decide (p ∈ E)) as [HpE |]; [| by intros ?%elem_of_nil].
  intros (c0 & Hc0 & Hd)%elem_of_flat_map.
  apply elem_of_cons in Hd as [-> | Hd].
  - eexists. split; [by left |]. by split.
  - rewrite Forall_forall in IH. destruct (IH c0 Hc0 Hd) as (q & Hq & HqE & Hdq).
    exists q. split; [| done]. right.
    apply elem_of_flat_map. exists c0. split; [done |].
    destruct Hq as [-> | Hq]; [by left | by right].
Qed.

Lemma shown_descendants (E : gset string) (m d : ModuleNode) :
  d ∈ shown E m → d ∈ descendants m.
Proof.
  induction m as [m IH] using ModuleNode_ind.
  destruct m as [n p pp cs l t c]; simpl in *.
  destruct (decide (p ∈ E)); [| by intros ?%elem_of_nil].
  intros (c0 & Hc0 & Hd)%elem_of_flat_map.
  apply elem_of_flat_map. exists c0. split; [done |].
  apply elem_of_cons in Hd as [-> | Hd]; [by left | right].
  rewrite Forall_forall in IH. by apply IH.
Qed.

Lemma visible_cases (roots : list ModuleNode) (E : gset string) (m : ModuleNode) :
  m ∈ getVisibleModulesOf roots E →
  m ∈ roots ∨
  ∃ p, p ∈ getVisibleModulesOf roots E ∧ path p ∈ E ∧ m ∈ children p.
Proof.
  rewrite getVisibleModulesOf_flat_map.
  intros (r & Hr & Hm)%elem_of_flat_map.
  apply elem_of_cons in Hm as [-> | Hm]; [by left | right].
  destruct (shown_parent E r m Hm) as (p & Hp & HpE & Hmp).
  exists p. split; [| done].
  apply elem_of_flat_map. exists r. split; [done |].
  destruct Hp as [-> | Hp]; [by left | by right].
Qed.

Lemma visible_all_nodes (roots : list ModuleNode) (E : gset string) (m : ModuleNode) :
  m ∈ getVisibleModulesOf roots E → m ∈ all_nodes roots.
Proof.
  rewrite getVisibleModulesOf_flat_map. unfold all_nodes.
  intros (r & Hr & Hm)%elem_of_flat_map.
  apply elem_of_flat_map. exists r. split; [done |].
  apply elem_of_cons in Hm as [-> | Hm]; [by left | right].
  by eapply shown_descendants.
Qed.

Lemma wf_links_child (roots : list ModuleNode) (p c : ModuleNode) :
  wf_links roots → p ∈ all_nodes roots → c ∈ children p →
  parentPath c = path p ∧ level c = S (level p) ∧ path p ≠ "".
Proof.
  intros [_ Hall] Hp Hc. rewrite Forall_forall in Hall.
  destruct (Hall p Hp) as [Hne Hcs]. rewrite Forall_forall in Hcs.
  destruct (Hcs c Hc). done.
Qed.

Lemma elem_of_descendants (m d : ModuleNode) :
  d ∈ descendants m ↔ ∃ c, c ∈ children m ∧ (d = c ∨ d ∈ descendants c).
Proof.
  destruct m as [n p pp cs l t c]; simpl.
  rewrite elem_of_flat_map. by setoid_rewrite elem_of_cons.
Qed.

Lemma descendants_trans (m c d : ModuleNode) :
  c ∈ descendants m → d ∈ descendants c → d ∈ descendants m.
Proof.
  induction m as [m IH] using ModuleNode_ind. rewrite Forall_forall in IH.
  intros (c0 & Hc0 & Hc)%elem_of_descendants Hd.
  apply elem_of_descendants. exists c0. split; [done |]. right.
  destruct Hc as [-> | Hc]; [done |]. by apply IH.
Qed.

Lemma elem_of_all_nodes (roots : list ModuleNode) (m : ModuleNode) :
  m ∈ all_nodes roots ↔ ∃ r, r ∈ roots ∧ (m = r ∨ m ∈ descendants r).
Proof.
  unfold all_nodes. rewrite elem_of_flat_map. by setoid_rewrite elem_of_cons.
Qed.

Lemma all_nodes_descendants (roots : list ModuleNode) (m d : ModuleNode) :
  m ∈ all_nodes roots → d ∈ descendants m → d ∈ all_nodes roots.
Proof.
  intros (r & Hr & Hm)%elem_of_all_nodes Hd.
  apply elem_of_all_nodes. exists r. split; [done |]. right.
  destruct Hm as [-> | Hm]; [done |]. by eapply descendants_trans.
Qed.

Lemma all_nodes_child (roots : list ModuleNode) (m c : ModuleNode) :
  m ∈ all_nodes roots → c ∈ children m → c ∈ all_nodes roots.
Proof.
  intros Hm Hc. eapply all_nodes_descendants; [exact Hm |].
  apply elem_of_descendants. exists c. split; [done | by left].
Qed.

(** With unique paths, the modules of the forest are told apart by path. *)
Lemma unique_path (roots : list ModuleNode) (a b : ModuleNode) :
  NoDup (path <$> all_nodes roots) →
  a ∈ all_nodes roots → b ∈ all_nodes roots → path a = path b → a = b.
Proof.
  generalize (all_nodes roots). intros l Hnd Ha Hb Hab.
  induction l as [| z l IH]; [by apply elem_of_nil in Ha |].
  rewrite fmap_cons in Hnd. apply NoDup_cons in Hnd as [Hz Hnd].
  apply elem_of_cons in Ha as [-> | Ha]; apply elem_of_cons in Hb as [-> | Hb].
  - done.
  - exfalso. apply Hz. rewrite Hab. by apply list_elem_of_fmap_2.
  - exfalso. apply Hz. rewrite <- Hab. by apply list_elem_of_fmap_2.
  - by apply IH.
Qed.

Lemma descendants_level (roots : list ModuleNode) (m d : ModuleNode) :
  wf_links roots → m ∈ all_nodes roots → d ∈ descendants m →
  level m < level d.
Proof.
  intros Hwf. induction m as [m IH] using ModuleNode_ind.
  rewrite Forall_forall in IH.
  intros Hm (c & Hc & Hd)%elem_of_descendants.
  destruct (wf_links_child _ _ _ Hwf Hm Hc) as (_ & Hlev & _).
  destruct Hd as [-> | Hd]; [lia |].
  pose proof (all_nodes_child _ _ _ Hm Hc) as Hcn.
  specialize (IH c Hc Hcn Hd). lia.
Qed.

Lemma path_not_below (roots : list ModuleNode) (m d : ModuleNode) :
  wf_forest roots → m ∈ all_nodes roots → d ∈ descendants m →
  path d ≠ path m.
Proof.
  intros [Hnd Hwf] Hm Hd Heq.
  pose proof (all_nodes_descendants _ _ _ Hm Hd) as Hdn.
  pose proof (descendants_level _ _ _ Hwf Hm Hd) as Hlev.
  rewrite (unique_path _ _ _ Hnd Hdn Hm Heq) in Hlev. lia.
Qed.

Lemma includes_elem (roots : list ModuleNode) (l : list ModuleNode) (d : ModuleNode) :
  NoDup (path <$> all_nodes roots) →
  (∀ x, x ∈ l → x ∈ all_nodes roots) → d ∈ all_nodes roots →
  includes l d = true ↔ d ∈ l.
Proof.
  intros Hnd Hl Hd. unfold includes. rewrite bool_decide_eq_true.
  split; [| by apply list_elem_of_fmap_2].
  intros (x & Hx & Hxl)%list_elem_of_fmap.
  symmetry in Hx.
  by rewrite <- (unique_path _ _ _ Hnd (Hl x Hxl) Hd Hx).
Qed.

(** In a well-formed tree a module below an expanded, visible chain is
    visible only through its own parent. *)
Lemma visible_child_parent (roots : list ModuleNode) (E : gset string)
    (c d : ModuleNode) :
  wf_forest roots → c ∈ all_nodes roots → d ∈ children c →
  includes (getVisibleModulesOf roots E) d = true →
  c ∈ getVisibleModulesOf roots E ∧ path c ∈ E.
Proof.
  intros Hwf Hc Hd Hvis. pose proof Hwf as [Hnd Hlinks].
  pose proof (all_nodes_child _ _ _ Hc Hd) as Hdn.
  apply (includes_elem roots) in Hvis;
    [| done | apply visible_all_nodes | done].
  destruct (wf_links_child _ _ _ Hlinks Hc Hd) as (Hpp & _ & Hne).
  destruct (visible_cases _ _ _ Hvis) as [Hroot | (p & Hp & HpE & Hdp)].
  - destruct Hlinks as [Hroots _]. rewrite Forall_forall in Hroots.
    destruct (Hroots d Hroot) as [_ Hempty]. congruence.
  - pose proof (visible_all_nodes _ _ _ Hp) as Hpn.
    destruct (wf_links_child _ _ _ Hlinks Hpn Hdp) as (Hpp' & _ & _).
    assert (p = c) as -> by (apply (unique_path roots); congruence).
    done.
Qed.

(** C4. In a well-formed tree, whatever the expansion set, every module
    listed by [getVisibleModules] is a root module (level 0) or has its
    parent module, the one [allModules] holds for its [parentPath], in the
    list as well. *)
Theorem getVisibleModules_parent_closed (v : Viewer) (m : ModuleNode) :
  wf_tree v →
  m ∈ getVisibleModules v →
  (m ∈ rootModules v ∧ level m = 0) ∨
  (∃ p, allModules v !! parentPath m = Some p ∧
        p ∈ getVisibleModules v ∧
        includes (getVisibleModules v) p = true ∧
        m ∈ children p).
Proof.
  intros [[Hnd Hlinks] Hidx] Hm. unfold getVisibleModules in *.
  destruct (visible_cases _ _ _ Hm) as [Hroot | (p & Hp & _ & Hmp)].
  - left. split; [done |]. destruct Hlinks as [Hroots _].
    rewrite Forall_forall in Hroots. by destruct (Hroots m Hroot).
  - right. exists p.
    pose proof (visible_all_nodes _ _ _ Hp) as Hpn.
    destruct (wf_links_child _ _ _ Hlinks Hpn Hmp) as (Hpp & _ & _).
    split; [by apply Hidx |]. split; [done |]. split; [| done].
    unfold includes. apply bool_decide_eq_true. by apply list_elem_of_fmap_2.
Qed.

End TreeTheorems.

(** ** Expansion and collapse *)

Section ExpansionTheorems.
Import PCBSystemViewer Notions.

Lemma collapse_children (cs : list ModuleNode) :
  Forall (λ c, ∀ E, collapseModule c E = E ∖ subtree_paths c) cs →
  ∀ E, fold_left (λ E c, collapseModule c E) cs E
       = E ∖ list_to_set (path <$> flat_map (λ c, c :: descendants c) cs).
Proof.
  induction 1 as [| c cs Hc _ IH]; intros E; simpl.
  - set_solver.
  - rewrite IH, Hc. unfold subtree_paths.
    rewrite fmap_app, list_to_set_app_L. simpl. set_solver.
Qed.

Lemma collapseModule_spec (m : ModuleNode) :
  ∀ E, collapseModule m E = E ∖ subtree_paths m.
Proof.
  induction m as [m IH] using ModuleNode_ind. intros E.
  destruct m as [n p pp cs l t c]; simpl in *.
  rewrite (collapse_children cs IH). unfold subtree_paths. simpl. set_solver.
Qed.

Lemma elem_of_subtree_paths (m : ModuleNode) (q : string) :
  q ∈ subtree_paths m ↔ q = path m ∨ ∃ d, d ∈ descendants m ∧ path d = q.
Proof.
  unfold subtree_paths. rewrite elem_of_list_to_set, fmap_cons, elem_of_cons.
  rewrite list_elem_of_fmap. naive_solver.
Qed.

(** C5.  In a well-formed tree with an expansion set as the viewer builds
    them (only modules that have children are expanded, [expansion_ok]),
    toggling a module whose path is in the expansion set removes from the
    set the module's path and the path of every descendant, expanded or
    not, and nothing else; toggling it again puts back the module's path
    alone, so that no module below one of its descendants is listed by
    [getVisibleModules]. *)
Theorem collapse_clears_subtree (roots : list ModuleNode) (E : gset string)
    (m : ModuleNode) :
  wf_forest roots → m ∈ all_nodes roots →
  expansion_ok roots E → path m ∈ E →
  let E' := toggleModuleExpansion m E in
  let E'' := toggleModuleExpansion m E' in
  (path m ∉ E') ∧
  (∀ d, d ∈ descendants m → path d ∉ E') ∧
  (∀ q, q ∉ subtree_paths m → q ∈ E' ↔ q ∈ E) ∧
  path m ∈ E'' ∧
  (∀ d, d ∈ descendants m → path d ∉ E'') ∧
  (∀ c d, c ∈ descendants m → d ∈ children c →
          includes (getVisibleModulesOf roots E'') d = false).
Proof.
  intros Hwf Hm Hok HmE.
  assert (children m ≠ []) as Hcs.
  { destruct (Hok (path m) HmE) as (n & Hn & Hpath & Hch).
    by rewrite <- (unique_path roots n m (proj1 Hwf) Hn Hm Hpath). }
  unfold toggleModuleExpansion.
  destruct (children m) as [| c0 cs] eqn:Hch; [done |].
  rewrite decide_True by done. rewrite collapseModule_spec.
  rewrite decide_False
    by (intros [_ Hn]%elem_of_difference; apply Hn, elem_of_subtree_paths; by left).
  cbv zeta.
  assert (∀ d, d ∈ descendants m → path d ∉ E ∖ subtree_paths m ∪ {[path m]}) as Hgone.
  { intros d Hd [[_ Hn]%elem_of_difference | Heq%elem_of_singleton]%elem_of_union.
    - apply Hn, elem_of_subtree_paths. right. by exists d.
    - by apply (path_not_below roots m d). }
  split; [| split; [| split; [| split; [| split]]]].
  - intros [_ Hn]%elem_of_difference. apply Hn, elem_of_subtree_paths. by left.
  - intros d Hd [_ Hn]%elem_of_difference.
    apply Hn, elem_of_subtree_paths. right. by exists d.
  - intros q Hq. rewrite elem_of_difference. tauto.
  - apply elem_of_union_r. by apply elem_of_singleton.
  - exact Hgone.
  - intros c d Hc Hd. apply not_true_is_false. intros Hvis.
    pose proof (all_nodes_descendants _ _ _ Hm Hc) as Hcn.
    destruct (visible_child_parent _ _ _ _ Hwf Hcn Hd Hvis) as [_ HcE].
    by apply (Hgone c Hc).
Qed.

End ExpansionTheorems.

(** ** Dragging *)

Section DragTheorems.
Import PCBSystemViewer Notions.

Lemma descendants_eq (m : ModuleNode) :
  descendants m = flat_map (λ c, c :: descendants c) (children m).
Proof. by destruct m. Qed.

Lemma flat_map_sublist {A B} (f : A → list B) (l : list A) (a : A) :
  a ∈ l → f a `sublist_of` flat_map f l.
Proof.
  induction l as [| z l IH]; intros Ha; [by apply elem_of_nil in Ha |].
  simpl. apply elem_of_cons in Ha as [-> | Ha].
  - by apply sublist_inserts_r.
  - by apply sublist_inserts_l, IH.
Qed.

Lemma descendants_sublist (m d : ModuleNode) :
  d ∈ descendants m → d :: descendants d `sublist_of` descendants m.
Proof.
  induction m as [m IH] using ModuleNode_ind. rewrite Forall_forall in IH.
  intros (c & Hc & Hd)%elem_of_descendants.
  assert (c :: descendants c `sublist_of` descendants m) as Hsub.
  { rewrite (descendants_eq m).
    by apply (flat_map_sublist (λ c, c :: descendants c)). }
  destruct Hd as [-> | Hd]; [done |].
  etrans; [by apply IH |]. etrans; [by apply sublist_cons | exact Hsub].
Qed.

Lemma subtree_sublist (roots : list ModuleNode) (m : ModuleNode) :
  m ∈ all_nodes roots → m :: descendants m `sublist_of` all_nodes roots.
Proof.
  intros (r & Hr & Hm)%elem_of_all_nodes.
  assert (r :: descendants r `sublist_of` all_nodes roots) as Hsub
    by apply (flat_map_sublist (λ r, r :: descendants r)), Hr.
  destruct Hm as [-> | Hm]; [done |].
  etrans; [by apply descendants_sublist |].
  etrans; [by apply sublist_cons | exact Hsub].
Qed.

Lemma subtree_NoDup (roots : list ModuleNode) (m : ModuleNode) :
  NoDup (path <$> all_nodes roots) → m ∈ all_nodes roots →
  NoDup (path <$> (m :: descendants m)).
Proof.
  intros Hnd Hm. eapply sublist_NoDup; [exact Hnd |].
  by apply fmap_sublist, subtree_sublist.
Qed.

Lemma reached_sound (vis : list ModuleNode) (E D : gset string) (m d : ModuleNode) :
  d ∈ reached vis E D m →
  d ∈ descendants m ∧ includes vis d = true ∧ path d ∈ D.
Proof.
  induction m as [m IH] using ModuleNode_ind. rewrite Forall_forall in IH.
  destruct m as [n p pp cs l t c]; simpl in *.
  intros (c0 & Hc0 & Hd)%elem_of_flat_map.
  destruct (includes vis c0) eqn:Hinc; [| by apply elem_of_nil in Hd].
  destruct (bool_decide (path c0 ∈ D)) eqn:HD; [| by apply elem_of_nil in Hd].
  simpl in Hd. apply bool_decide_eq_true in HD.
  apply elem_of_cons in Hd as [-> | Hd].
  - split; [| done]. apply elem_of_flat_map. exists c0. split; [done | by left].
  - destruct (decide (path c0 ∈ E)); [| by apply elem_of_nil in Hd].
    destruct (IH c0 Hc0 Hd) as (Hdd & ? & ?). split; [| done].
    apply elem_of_flat_map. exists c0. split; [done | by right].
Qed.

Lemma moveChildren_lookup (vis : list ModuleNode) (E D : gset string)
    (dx dy : num) (m : ModuleNode) :
  NoDup (path <$> descendants m) →
  ∀ boxes, dom boxes = D →
    dom (moveChildren vis E dx dy m boxes) = D ∧
    ∀ q, moveChildren vis E dx dy m boxes !! q
         = moved dx dy (reached vis E D m) boxes q.
Proof.
  induction m as [m IH] using ModuleNode_ind.
  destruct m as [n p pp cs l t c]; simpl in *. clear n p pp l t c.
  induction cs as [| c cs IHcs]; intros Hnd boxes Hdom; simpl.
  - split; [done |]. intros q. unfold moved. by rewrite decide_False by apply not_elem_of_nil.
  - apply Forall_cons in IH as [IHc IH]. specialize (IHcs IH).
    cbn [flat_map app] in Hnd. rewrite fmap_cons, fmap_app in Hnd.
    apply NoDup_cons in Hnd as [Hc Hnd].
    apply not_elem_of_app in Hc as [Hc_c Hc_cs].
    apply NoDup_app in Hnd as (Hnd_c & Hdisj & Hnd_cs).
    specialize (IHc Hnd_c). specialize (IHcs Hnd_cs).
    set (R := if includes vis c && bool_decide (path c ∈ D) then
                c :: (if decide (path c ∈ E) then reached vis E D c else [])
              else []).
    set (boxes1 :=
      if includes vis c then
        match boxes !! path c with
        | Some childPos =>
            if decide (path c ∈ E) then
              moveChildren vis E dx dy c
                (<[path c := translate dx dy childPos]> boxes)
            else <[path c := translate dx dy childPos]> boxes
        | None => boxes
        end
      else boxes).
    assert (dom boxes1 = D ∧ ∀ q, boxes1 !! q = moved dx dy R boxes q) as [Hdom1 Hlk1].
    { subst R boxes1. destruct (includes vis c); simpl.
      2:{ split; [done |]. intros q. unfold moved.
          by rewrite decide_False by apply not_elem_of_nil. }
      destruct (boxes !! path c) as [b |] eqn:Hb.
      2:{ rewrite bool_decide_eq_false_2.
          - split; [done |]. intros q. unfold moved.
            by rewrite decide_False by apply not_elem_of_nil.
          - rewrite <- Hdom. by apply not_elem_of_dom. }
      rewrite bool_decide_eq_true_2
        by (rewrite <- Hdom; apply elem_of_dom; by eexists).
      assert (dom (<[path c := translate dx dy b]> boxes) = D) as Hdom2.
      { rewrite dom_insert_lookup_L; [done | by eexists]. }
      destruct (decide (path c ∈ E)).
      - destruct (IHc _ Hdom2) as [Hd Hl]. split; [done |].
        intros q. rewrite Hl. unfold moved. rewrite fmap_cons.
        destruct (decide (q = path c)) as [-> | Hne].
        + rewrite decide_False.
          * rewrite lookup_insert_eq, Hb.
            rewrite decide_True by apply list_elem_of_here. done.
          * intros (d & Hd1 & Hd2)%list_elem_of_fmap.
            apply reached_sound in Hd2 as (Hd2 & _). apply Hc_c.
            rewrite Hd1. by apply list_elem_of_fmap_2.
        + rewrite lookup_insert_ne by done.
          destruct (decide (q ∈ path <$> reached vis E D c)).
          * rewrite decide_True by (by apply list_elem_of_further). done.
          * rewrite decide_False; [done |].
            intros [? | ?]%elem_of_cons; done.
      - split; [done |]. intros q. unfold moved. rewrite fmap_cons.
        destruct (decide (q = path c)) as [-> | Hne].
        + rewrite lookup_insert_eq, Hb.
          rewrite decide_True by apply list_elem_of_here. done.
        + rewrite lookup_insert_ne by done. rewrite decide_False; [done |].
          intros [? | ?%elem_of_nil]%elem_of_cons; done. }
    fold boxes1. destruct (IHcs boxes1 Hdom1) as [Hd Hl]. split; [exact Hd |].
    intros q. rewrite Hl. unfold moved in *. rewrite Hlk1. fold R.
    rewrite fmap_app.
    assert (∀ d, d ∈ R → path d ∈ path <$> (c :: descendants c)) as HR.
    { intros d Hd'. subst R.
      destruct (includes vis c && bool_decide (path c ∈ D));
        [| by apply elem_of_nil in Hd'].
      apply elem_of_cons in Hd' as [-> | Hd'];
        [rewrite fmap_cons; apply list_elem_of_here |].
      destruct (decide (path c ∈ E)); [| by apply elem_of_nil in Hd'].
      apply reached_sound in Hd' as (Hd' & _).
      rewrite fmap_cons. by apply list_elem_of_further, list_elem_of_fmap_2. }
    assert (q ∈ path <$> R → q ∈ path <$> flat_map
              (λ c, if includes vis c && bool_decide (path c ∈ D) then
                      c :: (if decide (path c ∈ E) then reached vis E D c else [])
                    else []) cs → False) as Hexcl.
    { intros HqR (d & -> & Hd2)%list_elem_of_fmap.
      apply list_elem_of_fmap in HqR as (d' & Heq & Hd').
      apply HR in Hd'. rewrite <- Heq, fmap_cons in Hd'.
      assert (path d ∈ path <$> flat_map (λ c, c :: descendants c) cs) as Hin.
      { apply list_elem_of_fmap_2.
        apply elem_of_flat_map in Hd2 as (c1 & Hc1 & Hd2).
        apply elem_of_flat_map. exists c1. split; [done |].
        destruct (includes vis c1 && bool_decide (path c1 ∈ D));
          [| by apply elem_of_nil in Hd2].
        apply elem_of_cons in Hd2 as [-> | Hd2]; [by left | right].
        destruct (decide (path c1 ∈ E)); [| by apply elem_of_nil in Hd2].
        by apply reached_sound in Hd2 as (Hd2 & _). }
      apply elem_of_cons in Hd' as [Heq' | Hd'].
      - apply Hc_cs. by rewrite <- Heq'.
      - by apply (Hdisj _ Hd'). }
    destruct (decide (q ∈ path <$> R)) as [HqR | HqR];
      destruct (decide (q ∈ path <$> flat_map _ cs)) as [Hq | Hq];
      destruct (decide (q ∈ (path <$> R) ++ _)) as [Hqq | Hqq];
      try done.
    + by destruct (Hexcl HqR Hq).
    + by destruct (Hexcl HqR Hq).
    + destruct Hqq. apply elem_of_app. by left.
    + destruct Hqq. apply elem_of_app. by right.
    + apply elem_of_app in Hqq as [? | ?]; done.
Qed.

Lemma visible_below (roots : list ModuleNode) (E : gset string) (c d : ModuleNode) :
  wf_forest roots → c ∈ all_nodes roots → d ∈ descendants c →
  includes (getVisibleModulesOf roots E) d = true →
  c ∈ getVisibleModulesOf roots E ∧ path c ∈ E.
Proof.
  intros Hwf. induction c as [c IH] using ModuleNode_ind.
  rewrite Forall_forall in IH.
  intros Hc (c' & Hc' & Hd)%elem_of_descendants Hvis.
  destruct Hd as [-> | Hd]; [by eapply visible_child_parent |].
  pose proof (all_nodes_child _ _ _ Hc Hc') as Hcn.
  destruct (IH c' Hc' Hcn Hd Hvis) as [Hv _].
  eapply visible_child_parent; [done | done | exact Hc' |].
  unfold includes. apply bool_decide_eq_true. by apply list_elem_of_fmap_2.
Qed.

Lemma reached_complete (roots : list ModuleNode) (E D : gset string)
    (m d : ModuleNode) :
  wf_forest roots →
  (∀ u, u ∈ getVisibleModulesOf roots E → path u ∈ D) →
  m ∈ all_nodes roots → d ∈ descendants m →
  includes (getVisibleModulesOf roots E) d = true →
  d ∈ reached (getVisibleModulesOf roots E) E D m.
Proof.
  intros Hwf HD. pose proof Hwf as [Hnd _].
  induction m as [m IH] using ModuleNode_ind. rewrite Forall_forall in IH.
  intros Hm (c & Hc & Hd)%elem_of_descendants Hvis.
  pose proof (all_nodes_child _ _ _ Hm Hc) as Hcn.
  destruct m as [n p pp cs l t k]; simpl in *.
  apply elem_of_flat_map. exists c. split; [done |].
  assert (includes (getVisibleModulesOf roots E) c = true ∧
          (d = c ∨ path c ∈ E)) as [Hcv HcE].
  { destruct Hd as [-> | Hd]; [by split; [| left] |].
    destruct (visible_below _ E _ _ Hwf Hcn Hd Hvis) as [Hv He].
    split; [| by right].
    unfold includes. apply bool_decide_eq_true. by apply list_elem_of_fmap_2. }
  rewrite Hcv. rewrite bool_decide_eq_true_2; simpl.
  - destruct Hd as [-> | Hd]; [by left | right].
    destruct HcE as [-> | HcE].
    + exfalso. eapply (path_not_below roots c c); done.
    + rewrite decide_True by done. by apply IH.
  - apply HD. by apply (includes_elem roots);
      [| apply visible_all_nodes | |].
Qed.

Lemma translate_0 (b : Box) : translate 0 0 b = b.
Proof.
  destruct b as [bx by_ bw bh]. unfold translate; simpl.
  by rewrite !Qcplus_0_r.
Qed.

(** What [updateModulePosition] stores, path by path, when the module has a
    stored box [cur] and its descendants have pairwise distinct paths. *)
Lemma updateModulePosition_lookup (v : Viewer) (doc : Document) (m : ModuleNode)
    (cur : Box) (dx dy : num) :
  NoDup (path <$> descendants m) →
  modulePositions v !! path m = Some cur →
  let v' := updateModulePosition v doc m (x cur + dx)%Qc (y cur + dy)%Qc in
  ∃ w h,
    let boxes1 := <[path m := mkBox (x cur + dx)%Qc (y cur + dy)%Qc w h]>
                    (modulePositions v) in
    ∀ q, modulePositions v' !! q
         = if decide (path m ∈ expandedModules v) then
             moved dx dy
               (reached (getVisibleModules v) (expandedModules v) (dom boxes1) m)
               boxes1 q
           else boxes1 !! q.
Proof.
  intros Hnd Hcur. unfold updateModulePosition. rewrite Hcur. cbv zeta.
  replace (x cur + dx - x cur)%Qc with dx by ring.
  replace (y cur + dy - y cur)%Qc with dy by ring.
  eexists _, _. intros q.
  destruct v as [idx E roots boxes drag cam]; simpl in *.
  destruct (decide (path m ∈ E)) as [HE | HE].
  - rewrite (bool_decide_eq_true_2 _ HE). simpl.
    destruct (bool_decide (dx ≠ 0%Qc) || bool_decide (dy ≠ 0%Qc)) eqn:Hd.
    + unfold moveAllDescendants, getVisibleModules; simpl.
      match goal with
      | |- moveChildren _ _ _ _ _ ?B !! _ = _ =>
          by destruct (moveChildren_lookup (getVisibleModulesOf roots E) E
                         (dom B) dx dy m Hnd B eq_refl) as [_ ->]
      end.
    + apply orb_false_iff in Hd as [Hx Hy].
      apply bool_decide_eq_false in Hx, Hy.
      apply dec_stable in Hx, Hy. subst dx dy. simpl.
      unfold moved. destruct (decide _); [| done].
      destruct (_ !! q) as [b |]; [| done]. simpl. by rewrite translate_0.
  - by rewrite (bool_decide_eq_false_2 _ HE).
Qed.

(** *** The ancestor cascade *)

Lemma descendants_parent (r d : ModuleNode) :
  d ∈ descendants r → ∃ p, (p = r ∨ p ∈ descendants r) ∧ d ∈ children p.
Proof.
  induction r as [r IH] using ModuleNode_ind. rewrite Forall_forall in IH.
  intros (c & Hc & Hd)%elem_of_descendants.
  destruct Hd as [-> | Hd]; [exists r; split; [by left | done] |].
  destruct (IH c Hc Hd) as (p & Hp & Hdp). exists p. split; [| done]. right.
  apply elem_of_descendants. exists c. split; [done |].
  destruct Hp as [-> | Hp]; [by left | by right].
Qed.

Lemma all_nodes_cases (roots : list ModuleNode) (m : ModuleNode) :
  m ∈ all_nodes roots →
  m ∈ roots ∨ ∃ p, p ∈ all_nodes roots ∧ m ∈ children p.
Proof.
  intros (r & Hr & Hm)%elem_of_all_nodes.
  destruct Hm as [-> | Hm]; [by left | right].
  destruct (descendants_parent r m Hm) as (p & Hp & Hmp). exists p.
  split; [| done]. apply elem_of_all_nodes. exists r. split; [done |].
  destruct Hp as [-> | Hp]; [by left | by right].
Qed.

(** In a well-formed tree the module [allModules] holds for a non-empty
    [parentPath] is the parent. *)
Lemma parent_lookup (v : Viewer) (cur parent : ModuleNode) :
  wf_tree v → cur ∈ all_nodes (rootModules v) →
  parentPath cur ≠ "" →
  allModules v !! parentPath cur = Some parent →
  parent ∈ all_nodes (rootModules v) ∧ cur ∈ children parent.
Proof.
  intros [[Hnd Hlinks] Hidx] Hcur Hne Hlk.
  apply Hidx in Hlk as [Hp Hpath]. split; [done |].
  destruct (all_nodes_cases _ _ Hcur) as [Hroot | (p & Hpn & Hc)].
  - destruct Hlinks as [Hroots _]. rewrite Forall_forall in Hroots.
    by destruct (Hroots cur Hroot).
  - destruct (wf_links_child _ _ _ Hlinks Hpn Hc) as (Hpp & _ & _).
    assert (p = parent) as <- by (apply (unique_path (rootModules v)); congruence).
    done.
Qed.

Lemma same_tree_wf (v v' : Viewer) : same_tree v v' → wf_tree v → wf_tree v'.
Proof. intros (Ha & _ & Hr & _) Hwf. unfold wf_tree. by rewrite Ha, Hr. Qed.

Lemma same_tree_trans (v1 v2 v3 : Viewer) :
  same_tree v1 v2 → same_tree v2 v3 → same_tree v1 v3.
Proof. unfold same_tree. intros (?&?&?&?&?) (?&?&?&?&?). repeat split; congruence. Qed.

Lemma recalculateParentBounds_frame (v : Viewer) (doc : Document) (parent : ModuleNode) :
  same_tree v (recalculateParentBounds v doc parent) ∧
  ∀ q, q ≠ path parent →
       modulePositions (recalculateParentBounds v doc parent) !! q
       = modulePositions v !! q.
Proof.
  unfold recalculateParentBounds.
  destruct (doc !! path parent); [| done].
  destruct (filter _ _).
  - split; [done |]. intros q Hq. simpl. by rewrite lookup_insert_ne.
  - destruct (boundsOf _ _) as [[[[minX minY] maxX] maxY] |]; [| done].
    split; [done |]. intros q Hq. simpl. by rewrite lookup_insert_ne.
Qed.

(** The loop of [updateParentContainer] writes only the boxes of modules
    above the one it starts from. *)
Lemma updateParentContainer_loop_frame (doc : Document) (fuel : nat) :
  ∀ v cur, wf_tree v → cur ∈ all_nodes (rootModules v) →
    same_tree v (updateParentContainer_loop fuel v doc cur) ∧
    ∀ q, (∀ a, a ∈ all_nodes (rootModules v) → cur ∈ descendants a →
               path a ≠ q) →
         modulePositions (updateParentContainer_loop fuel v doc cur) !! q
         = modulePositions v !! q.
Proof.
  induction fuel as [| fuel IH]; intros v cur Hwf Hcur; simpl; [done |].
  destruct (bool_decide (parentPath cur ≠ "")) eqn:Hpp; [| done].
  apply bool_decide_eq_true in Hpp.
  destruct (allModules v !! parentPath cur) as [parent |] eqn:Hlk; [| done].
  destruct (bool_decide (path parent ∈ expandedModules v)); [| done].
  destruct (parent_lookup v cur parent Hwf Hcur Hpp Hlk) as [Hp Hchild].
  destruct (recalculateParentBounds_frame v doc parent) as [Hsame Hframe].
  pose proof Hsame as (_ & _ & Hroots & _).
  destruct (IH (recalculateParentBounds v doc parent) parent) as [Hsame' Hframe'].
  { by eapply same_tree_wf. }
  { by rewrite Hroots. }
  split; [by eapply same_tree_trans |].
  intros q Hq. rewrite Hframe'.
  - apply Hframe. intros ->. apply (Hq parent); [done | | done].
    apply elem_of_descendants. exists cur. split; [done | by left].
  - rewrite Hroots. intros a Ha Hpa. apply Hq; [done |].
    eapply descendants_trans; [exact Hpa |].
    apply elem_of_descendants. exists cur. split; [done | by left].
Qed.

(** In a well-formed tree the loop has come to its end within
    [S (level cur)] turns: more turns change nothing. *)
Lemma updateParentContainer_loop_fuel (doc : Document) (k : nat) :
  ∀ v cur n, wf_tree v → cur ∈ all_nodes (rootModules v) →
    (level cur < k)%nat → (k ≤ n)%nat →
    updateParentContainer_loop n v doc cur = updateParentContainer_loop k v doc cur.
Proof.
  induction k as [| k IH]; intros v cur n Hwf Hcur Hlev Hn; [lia |].
  destruct n as [| n]; [lia |]. simpl.
  destruct (bool_decide (parentPath cur ≠ "")) eqn:Hpp; [| done].
  apply bool_decide_eq_true in Hpp.
  destruct (allModules v !! parentPath cur) as [parent |] eqn:Hlk; [| done].
  destruct (bool_decide (path parent ∈ expandedModules v)); [| done].
  destruct (parent_lookup v cur parent Hwf Hcur Hpp Hlk) as [Hp Hchild].
  destruct (recalculateParentBounds_frame v doc parent) as [Hsame _].
  pose proof Hsame as (_ & _ & Hroots & _).
  pose proof Hwf as [[_ Hlinks] _].
  destruct (wf_links_child _ _ _ Hlinks Hp Hchild) as (_ & Hl & _).
  apply IH; [by eapply same_tree_wf | by rewrite Hroots | lia | lia].
Qed.

(** The position update of a drag, on its own. *)
Lemma updateModulePosition_moves_descendants (v : Viewer) (doc : Document)
    (m : ModuleNode) (cur : Box) (dx dy : num) :
  wf_forest (rootModules v) → m ∈ all_nodes (rootModules v) →
  path m ∈ expandedModules v →
  (∀ u, u ∈ getVisibleModules v → is_Some (modulePositions v !! path u)) →
  modulePositions v !! path m = Some cur →
  let v' := updateModulePosition v doc m (x cur + dx)%Qc (y cur + dy)%Qc in
  (∃ w h, modulePositions v' !! path m
          = Some (mkBox (x cur + dx)%Qc (y cur + dy)%Qc w h)) ∧
  (∀ d, d ∈ descendants m → includes (getVisibleModules v) d = true →
        ∃ b, modulePositions v !! path d = Some b ∧
             modulePositions v' !! path d
             = Some (mkBox (x b + dx)%Qc (y b + dy)%Qc (width b) (height b))) ∧
  (∀ q, q ≠ path m →
        (∀ d, d ∈ descendants m → includes (getVisibleModules v) d = true →
              path d ≠ q) →
        modulePositions v' !! q = modulePositions v !! q).
Proof.
  intros Hwf Hm HE Hboxes Hcur. pose proof Hwf as [Hnd _].
  pose proof (subtree_NoDup _ _ Hnd Hm) as Hsub.
  rewrite fmap_cons in Hsub. apply NoDup_cons in Hsub as [_ Hsub].
  destruct (updateModulePosition_lookup v doc m cur dx dy Hsub Hcur) as (w & h & Hlk).
  cbv zeta in *. set (boxes1 := <[path m := _]> (modulePositions v)) in Hlk.
  assert (∀ q, modulePositions
                 (updateModulePosition v doc m (x cur + dx)%Qc (y cur + dy)%Qc) !! q
               = moved dx dy
                   (reached (getVisibleModules v) (expandedModules v) (dom boxes1) m)
                   boxes1 q) as Hlk'
    by (intros q; rewrite Hlk; by rewrite decide_True).
  clear Hlk. rename Hlk' into Hlk.
  assert (∀ d, d ∈ reached (getVisibleModules v) (expandedModules v) (dom boxes1) m →
               d ∈ descendants m ∧ includes (getVisibleModules v) d = true) as Hsound.
  { intros d Hd. apply reached_sound in Hd. tauto. }
  split; [| split].
  - exists w, h. rewrite Hlk. unfold moved. rewrite decide_False.
    + by apply lookup_insert_eq.
    + intros (d & Hd1 & Hd2)%list_elem_of_fmap. apply Hsound in Hd2 as [Hd2 _].
      by apply (path_not_below (rootModules v) m d).
  - intros d Hd Hvis.
    pose proof (all_nodes_descendants _ _ _ Hm Hd) as Hdn.
    assert (d ∈ getVisibleModules v) as Hdv.
    { by apply (includes_elem (rootModules v));
        [| apply visible_all_nodes | |]. }
    destruct (Hboxes d Hdv) as [b Hb]. exists b. split; [done |].
    rewrite Hlk. unfold moved. rewrite decide_True.
    + subst boxes1. rewrite lookup_insert_ne, Hb; [done |].
      intros Heq. by apply (path_not_below (rootModules v) m d).
    + apply list_elem_of_fmap_2.
      apply (reached_complete (rootModules v)); try done.
      intros u Hu. subst boxes1. apply elem_of_dom.
      destruct (decide (path m = path u)) as [-> | Hne].
      * rewrite lookup_insert_eq. by eexists.
      * rewrite lookup_insert_ne by done. by apply Hboxes.
  - intros q Hq Hnot. rewrite Hlk. unfold moved. rewrite decide_False.
    + subst boxes1. by rewrite lookup_insert_ne.
    + intros (d & -> & Hd2)%list_elem_of_fmap. apply Hsound in Hd2 as [Hd2 Hv].
      by apply (Hnot d).
Qed.

Lemma updateModulePosition_same_tree (v : Viewer) (doc : Document)
    (m : ModuleNode) (wx wy : num) :
  same_tree v (updateModulePosition v doc m wx wy).
Proof.
  unfold updateModulePosition. cbv zeta.
  by destruct (bool_decide _ && _).
Qed.

Lemma updateModuleDrag_steps (v : Viewer) (doc : Document) (m : ModuleNode)
    (e : MouseEvent) :
  isDragging (dragState v) = true → draggedModule (dragState v) = Some m →
  updateModuleDrag v doc e
  = updateParentContainer
      (updateModulePosition v doc m
         (CanvasManager.px (dragTarget v e)) (CanvasManager.py (dragTarget v e)))
      doc m.
Proof. intros Hdrag Hm. unfold updateModuleDrag. by rewrite Hdrag, Hm. Qed.

(** C6, as amended.  In a well-formed tree whose box map holds a box for
    every visible module, a drag update of an expanded container with stored
    box [cur] to the position [target] stores the container there,
    translates the stored box of every visible descendant by
    [target - cur] with its width and height kept, and leaves the other
    stored boxes as they were: all of them after [updateModulePosition],
    all but those of the modules above the container after the cascade of
    [updateModuleDrag]. *)
Theorem drag_moves_visible_descendants (v : Viewer) (doc : Document)
    (m : ModuleNode) (cur : Box) (e : MouseEvent) :
  wf_tree v → m ∈ all_nodes (rootModules v) →
  isDragging (dragState v) = true → draggedModule (dragState v) = Some m →
  path m ∈ expandedModules v →
  (∀ u, u ∈ getVisibleModules v → is_Some (modulePositions v !! path u)) →
  modulePositions v !! path m = Some cur →
  let target := dragTarget v e in
  let dx := (CanvasManager.px target - x cur)%Qc in
  let dy := (CanvasManager.py target - y cur)%Qc in
  let v1 := updateModulePosition v doc m
              (CanvasManager.px target) (CanvasManager.py target) in
  let v2 := updateModuleDrag v doc e in
  (∃ w h,
     modulePositions v1 !! path m
     = Some (mkBox (CanvasManager.px target) (CanvasManager.py target) w h) ∧
     modulePositions v2 !! path m
     = Some (mkBox (CanvasManager.px target) (CanvasManager.py target) w h)) ∧
  (∀ d, d ∈ descendants m → includes (getVisibleModules v) d = true →
        ∃ b, modulePositions v !! path d = Some b ∧
             modulePositions v1 !! path d
             = Some (mkBox (x b + dx)%Qc (y b + dy)%Qc (width b) (height b)) ∧
             modulePositions v2 !! path d
             = Some (mkBox (x b + dx)%Qc (y b + dy)%Qc (width b) (height b))) ∧
  (∀ q, q ≠ path m →
        (∀ d, d ∈ descendants m → includes (getVisibleModules v) d = true →
              path d ≠ q) →
        modulePositions v1 !! q = modulePositions v !! q ∧
        ((∀ a, a ∈ all_nodes (rootModules v) → m ∈ descendants a → path a ≠ q) →
         modulePositions v2 !! q = modulePositions v !! q)).
Proof.
  intros Hwf Hm Hdrag Hdm HE Hboxes Hcur. cbv zeta.
  pose proof Hwf as [Hforest _].
  rewrite (updateModuleDrag_steps v doc m e Hdrag Hdm).
  set (target := dragTarget v e).
  destruct (updateModulePosition_moves_descendants v doc m cur
              (CanvasManager.px target - x cur)%Qc
              (CanvasManager.py target - y cur)%Qc
              Hforest Hm HE Hboxes Hcur) as (Hown & Hdesc & Hframe).
  cbv zeta in *.
  replace (x cur + (CanvasManager.px target - x cur))%Qc
    with (CanvasManager.px target) in * by ring.
  replace (y cur + (CanvasManager.py target - y cur))%Qc
    with (CanvasManager.py target) in * by ring.
  set (v1 := updateModulePosition v doc m
               (CanvasManager.px target) (CanvasManager.py target)) in *.
  pose proof (updateModulePosition_same_tree v doc m
                (CanvasManager.px target) (CanvasManager.py target)) as Hsame.
  fold v1 in Hsame. pose proof Hsame as (_ & _ & Hroots & _).
  destruct (updateParentContainer_loop_frame doc (S (level m)) v1 m) as [_ Hcascade].
  { by eapply same_tree_wf. }
  { by rewrite Hroots. }
  rewrite Hroots in Hcascade. fold (updateParentContainer v1 doc m) in Hcascade.
  split; [| split].
  - destruct Hown as (w & h & Hown). exists w, h. split; [done |].
    rewrite Hcascade; [done |]. intros a Ha Hma Heq.
    by apply (path_not_below (rootModules v) a m).
  - intros d Hd Hvis. destruct (Hdesc d Hd Hvis) as (b & Hb & Hb1).
    exists b. split; [done |]. split; [done |].
    rewrite Hcascade; [done |]. intros a Ha Hma Heq.
    apply (path_not_below (rootModules v) a d); [done | done | | done].
    by eapply descendants_trans.
  - intros q Hq Hnot. split; [by apply Hframe |].
    intros Habove. rewrite Hcascade by done. by apply Hframe.
Qed.

End DragTheorems.

(** ** Connections *)

Section ConnectionTheorems.
Import PCBSystemViewer Notions.

(** With no visible child, every child is gathered from. *)
Lemma gather_all_children (vis : list ModuleNode) (cs : list ModuleNode)
    (acc : list Connection) :
  existsb (includes vis) cs = false →
  fold_left
    (λ connections child,
       if includes vis child then connections
       else connections ++ getConnectionsForModule child vis)
    cs acc
  = acc ++ flat_map (λ c, getConnectionsForModule c vis) cs.
Proof.
  revert acc. induction cs as [| c cs IH]; intros acc Hex; simpl in *.
  - by rewrite app_nil_r.
  - apply orb_false_iff in Hex as [-> Hex]. by rewrite IH, app_assoc.
Qed.

Lemma getConnectionsForModule_eq (m : ModuleNode) (vis : list ModuleNode) :
  getConnectionsForModule m vis
  = fold_left
      (λ connections child,
         if includes vis child then connections
         else connections ++ getConnectionsForModule child vis)
      (children m)
      match declaredConnections m with
      | Some own => if existsb (includes vis) (children m) then [] else own
      | None => []
      end.
Proof. by destruct m. Qed.

(** A subtree that declares nothing contributes nothing. *)
Lemma gather_nothing (vis : list ModuleNode) (m : ModuleNode) :
  (∀ d own, d ∈ m :: descendants m → declaredConnections d = Some own → own = []) →
  getConnectionsForModule m vis = [].
Proof.
  induction m as [m IH] using ModuleNode_ind. intros Hnone.
  rewrite getConnectionsForModule_eq.
  assert (match declaredConnections m with
          | Some own => if existsb (includes vis) (children m) then [] else own
          | None => []
          end = []) as ->.
  { destruct (declaredConnections m) as [own |] eqn:Hown; [| done].
    rewrite (Hnone m own); [by destruct (existsb _ _) | by left | done]. }
  assert (Forall (λ c, getConnectionsForModule c vis = []) (children m)) as Hcs.
  { rewrite Forall_forall in IH. apply Forall_forall. intros c Hc.
    apply IH; [done |]. intros d own Hd. apply Hnone. right.
    apply elem_of_descendants. exists c. split; [done |].
    by apply elem_of_cons in Hd. }
  clear IH Hnone. induction Hcs as [| c cs Hc _ IHcs]; simpl; [done |].
  rewrite Hc. by destruct (includes vis c).
Qed.

(** C7, as amended.  For a module with declared connections and no
    visible child, the list of [getConnectionsForModule] is the module's own
    declared connections followed by what the same function gathers from
    each of its children; it is the module's own declared connections and
    nothing else when no descendant declares a connection. *)
Theorem leaf_in_view_connections (m : ModuleNode) (vis : list ModuleNode)
    (own : list Connection) :
  declaredConnections m = Some own →
  existsb (includes vis) (children m) = false →
  getConnectionsForModule m vis
  = own ++ flat_map (λ c, getConnectionsForModule c vis) (children m) ∧
  ((∀ d l, d ∈ descendants m → declaredConnections d = Some l → l = []) →
   getConnectionsForModule m vis = own).
Proof.
  intros Hown Hex.
  assert (getConnectionsForModule m vis
          = own ++ flat_map (λ c, getConnectionsForModule c vis) (children m)) as Heq.
  { rewrite getConnectionsForModule_eq, Hown, Hex.
    by apply gather_all_children. }
  split; [exact Heq |]. intros Hnone. rewrite Heq.
  assert (Forall (λ c, getConnectionsForModule c vis = []) (children m)) as Hcs.
  { apply Forall_forall. intros c Hc. apply gather_nothing.
    intros d l Hd. apply Hnone, elem_of_descendants.
    exists c. split; [done |]. by apply elem_of_cons in Hd. }
  clear Heq Hex Hnone. induction Hcs as [| c cs Hc _ IHcs]; simpl;
    [by rewrite app_nil_r |].
  rewrite Hc. exact IHcs.
Qed.

Lemma fold_left_flat_map {A B C} (f : A → C → A) (g : B → list C)
    (l : list B) (a : A) :
  fold_left f (flat_map g l) a = fold_left (λ a b, fold_left f (g b) a) l a.
Proof.
  revert a. induction l as [| b l IH]; intros a; simpl; [done |].
  by rewrite fold_left_app, IH.
Qed.

Lemma addConnection_fold (v : Viewer) (vis : list ModuleNode) (m : ModuleNode)
    (conns : list Connection) (pairs : list (string * Pair)) :
  fold_left (addConnection v vis m) conns pairs
  = fold_left addItem
      (flat_map (λ conn, match findTargetModule v (target conn) vis with
                         | Some t => [(m, t, conn)]
                         | None => []
                         end) conns)
      pairs.
Proof.
  revert pairs. induction conns as [| conn conns IH]; intros pairs; simpl; [done |].
  rewrite IH, fold_left_app. f_equal. unfold addConnection.
  by destruct (findTargetModule v (target conn) vis).
Qed.

Lemma connectionPairsMap_resolved (v : Viewer) (vis : list ModuleNode) :
  connectionPairsMap v vis = fold_left addItem (resolved v vis) [].
Proof.
  unfold connectionPairsMap, resolved. rewrite fold_left_flat_map.
  apply fold_left_ext_Forall, Forall_forall. intros m _ pairs.
  apply addConnection_fold.
Qed.

Lemma Map_update_keys {V} (f : V → V) (k : string) (m : list (string * V)) :
  (Map_update f k m).*1 = m.*1.
Proof.
  unfold Map_update. induction m as [| [k' e] m IH]; csimpl; [done |].
  rewrite IH. by destruct (decide (k' = k)).
Qed.

Lemma elem_of_Map_update {V} (f : V → V) (k : string) (m : list (string * V))
    (k' : string) (e' : V) :
  (k', e') ∈ Map_update f k m ↔
  ∃ e, (k', e) ∈ m ∧ e' = if decide (k' = k) then f e else e.
Proof.
  unfold Map_update. rewrite list_elem_of_fmap. split.
  - intros ([k0 e] & Heq & Hin). simpl in Heq.
    destruct (decide (k0 = k)) as [-> | Hne]; simplify_eq.
    + exists e. by rewrite decide_True.
    + exists e. by rewrite decide_False.
  - intros (e & Hin & ->). exists (k', e). split; [| done]. simpl.
    by destruct (decide (k' = k)).
Qed.

Lemma filter_none {A} (P : A → Prop) `{∀ x, Decision (P x)} (l : list A) :
  (∀ x, x ∈ l → ¬ P x) → filter P l = [].
Proof.
  induction l as [| a l IH]; intros Hno; [done |].
  rewrite filter_cons, decide_False by (apply Hno; by left).
  apply IH. intros x Hx. apply Hno. by right.
Qed.

Lemma addItem_grouped (items : list Item) (pairs : list (string * Pair)) (i : Item) :
  grouped items pairs → grouped (items ++ [i]) (addItem pairs i).
Proof.
  intros (Hnd & Hent & Hall). unfold addItem.
  destruct i as [[m t] conn]. unfold itemKey at 1 2 3. simpl.
  set (key := pairKey m t).
  assert (∀ k, filter (λ i, itemKey i = k) (items ++ [(m, t, conn)])
               = filter (λ i, itemKey i = k) items
                 ++ if decide (key = k) then [(m, t, conn)] else []) as Hfilter.
  { intros k. rewrite filter_app. reflexivity. }
  destruct (Map_has key pairs) eqn:Hhas; unfold Map_has in Hhas.
  - apply bool_decide_eq_true in Hhas. split; [| split].
    + by rewrite Map_update_keys.
    + intros k e' (e & Hin & ->)%elem_of_Map_update.
      destruct (Hent k e Hin) as (Hk & Hconns & conn0 & Hc0).
      rewrite Hfilter, fmap_app.
      destruct (decide (k = key)) as [-> | Hne]; simpl.
      * rewrite decide_True by done. rewrite <- Hconns. split; [done |].
        split; [done |]. exists conn0. apply elem_of_app. by left.
      * rewrite decide_False by done. rewrite app_nil_r. split; [done |].
        split; [done |]. exists conn0. apply elem_of_app. by left.
    + intros i Hi. rewrite Map_update_keys.
      apply elem_of_app in Hi as [Hi | Hi]; [by apply Hall |].
      apply list_elem_of_singleton in Hi as ->. exact Hhas.
  - apply bool_decide_eq_false in Hhas.
    unfold Map_set, Map_has. rewrite bool_decide_eq_false_2 by done.
    split; [| split].
    + rewrite Map_update_keys, fmap_app. apply NoDup_app. split; [done |].
      split; [| apply NoDup_singleton].
      intros k Hk ->%list_elem_of_singleton. done.
    + intros k e' (e & Hin & ->)%elem_of_Map_update.
      rewrite Hfilter, fmap_app.
      apply elem_of_app in Hin as [Hin | Hin].
      * destruct (Hent k e Hin) as (Hk & Hconns & conn0 & Hc0).
        assert (k ≠ key) as Hne.
        { intros ->. apply Hhas. by apply (list_elem_of_fmap_2 fst _ (key, e)). }
        rewrite decide_False by done. rewrite decide_False by done.
        rewrite app_nil_r. split; [done |]. split; [done |].
        exists conn0. apply elem_of_app. by left.
      * apply list_elem_of_singleton in Hin. simplify_eq.
        rewrite decide_True by done. rewrite decide_True by done. simpl.
        split; [done |]. split.
        -- assert (filter (λ i, itemKey i = key) items = []) as ->; [| done].
           apply filter_none. intros i Hi Hkey. apply Hhas.
           rewrite <- Hkey. by apply Hall.
        -- exists conn. apply elem_of_app. right. by apply list_elem_of_singleton.
    + intros i Hi. rewrite Map_update_keys, fmap_app.
      apply elem_of_app in Hi as [Hi | Hi].
      * apply elem_of_app. left. by apply Hall.
      * apply list_elem_of_singleton in Hi as ->.
        apply elem_of_app. right. by apply list_elem_of_singleton.
Qed.

Lemma filter_agree {A} (P Q : A → Prop) `{∀ x, Decision (P x)}
    `{∀ x, Decision (Q x)} (l : list A) :
  (∀ x, x ∈ l → P x ↔ Q x) → filter P l = filter Q l.
Proof.
  induction l as [| a l IH]; intros Hpq; [done |].
  rewrite !filter_cons, IH by (intros x Hx; apply Hpq; by right).
  destruct (decide (P a)) as [Hp | Hp], (decide (Q a)) as [Hq | Hq]; try done.
  - destruct Hq. by apply (Hpq a); [left |].
  - destruct Hp. by apply (Hpq a); [left |].
Qed.

Lemma resolved_grouped (v : Viewer) (vis : list ModuleNode) :
  grouped (resolved v vis) (connectionPairsMap v vis).
Proof.
  rewrite connectionPairsMap_resolved.
  induction (resolved v vis) as [| i items IH] using rev_ind.
  - split; [constructor |]. split; [by intros k e ?%elem_of_nil |].
    by intros i ?%elem_of_nil.
  - rewrite fold_left_app. simpl. by apply addItem_grouped.
Qed.

Lemma thickness_mono (cs1 cs2 : list Connection) :
  (length cs1 ≤ length cs2)%nat → (thickness cs1 ≤ thickness cs2)%nat.
Proof. unfold thickness. lia. Qed.

Lemma thickness_range (cs : list Connection) : (2 ≤ thickness cs ≤ 8)%nat.
Proof. unfold thickness. lia. Qed.

(** What the aggregation of [calculateConnectionPairs] does whatever the
    paths are.  The connections whose resolved source and target paths
    coincide end up in one and the same entry; an entry holds, in order,
    exactly the resolved connections under its key [from.path->to.path],
    which are those of its pair of paths when no other pair spells the same
    key; no two entries have the same ordered pair of paths; the thickness
    drawn for an entry is a non-decreasing function of its number of
    connections, within [[2, 8]]. *)
Lemma connections_grouped_by_pair (v : Viewer) (vis : list ModuleNode) :
  let edges := calculateConnectionPairs v vis in
  let items := resolved v vis in
  (∀ m1 t1 c1 m2 t2 c2,
     (m1, t1, c1) ∈ items → (m2, t2, c2) ∈ items →
     path m1 = path m2 → path t1 = path t2 →
     ∃ e, e ∈ edges ∧ c1 ∈ pair_connections e ∧ c2 ∈ pair_connections e) ∧
  (∀ e, e ∈ edges →
     (∃ conn, (from e, to e, conn) ∈ items) ∧
     pair_connections e
     = snd <$> filter (λ i, itemKey i = pairKey (from e) (to e)) items ∧
     ((∀ i, i ∈ items → itemKey i = pairKey (from e) (to e) →
            path i.1.1 = path (from e) ∧ path i.1.2 = path (to e)) →
      pair_connections e
      = snd <$> filter (λ i, path i.1.1 = path (from e) ∧
                             path i.1.2 = path (to e)) items)) ∧
  (∀ i j e1 e2,
     edges !! i = Some e1 → edges !! j = Some e2 →
     path (from e1) = path (from e2) → path (to e1) = path (to e2) → i = j) ∧
  (∀ cs1 cs2, (length cs1 ≤ length cs2)%nat → (thickness cs1 ≤ thickness cs2)%nat) ∧
  (∀ cs, (2 ≤ thickness cs ≤ 8)%nat).
Proof.
  cbv zeta. unfold calculateConnectionPairs.
  destruct (resolved_grouped v vis) as (Hnd & Hent & Hall).
  assert (∀ m t c, (m, t, c) ∈ resolved v vis →
            ∃ e, (pairKey m t, e) ∈ connectionPairsMap v vis ∧
                 c ∈ pair_connections e) as Hitem.
  { intros m t c Hi.
    pose proof (Hall _ Hi) as Hk. unfold itemKey in Hk; simpl in Hk.
    apply list_elem_of_fmap in Hk as ([k e] & Hk & Hin). simpl in Hk. subst k.
    exists e. split; [done |].
    destruct (Hent _ _ Hin) as (_ & -> & _).
    apply (list_elem_of_fmap_2 snd _ (m, t, c)).
    apply list_elem_of_filter. split; [done | exact Hi]. }
  split; [| split; [| split; [| split]]].
  - intros m1 t1 c1 m2 t2 c2 H1 H2 Hm Ht.
    destruct (Hitem _ _ _ H1) as (e1 & He1 & Hc1).
    destruct (Hitem _ _ _ H2) as (e2 & He2 & Hc2).
    assert (pairKey m1 t1 = pairKey m2 t2) as Hkey
      by (unfold pairKey; by rewrite Hm, Ht).
    rewrite Hkey in He1.
    assert (e1 = e2) as ->.
    { apply list_elem_of_lookup in He1 as [i1 Hi1].
      apply list_elem_of_lookup in He2 as [i2 Hi2].
      assert (i1 = i2) as ->.
      { apply (NoDup_lookup _ _ _ (pairKey m2 t2) Hnd);
          by rewrite list_lookup_fmap; (rewrite Hi1 || rewrite Hi2). }
      congruence. }
    exists e2. split; [| done].
    by apply (list_elem_of_fmap_2 snd _ (pairKey m2 t2, e2)).
  - intros e ([k e'] & -> & Hin)%list_elem_of_fmap. simpl.
    destruct (Hent _ _ Hin) as (Hk & Hconns & Hex). split; [done |].
    rewrite <- Hk. split; [done |]. intros Hkeys. rewrite Hconns. f_equal.
    apply filter_agree. intros i Hi. split.
    + intros Hik. by apply Hkeys.
    + intros [Hf Ht]. rewrite Hk. unfold itemKey, pairKey. by rewrite Hf, Ht.
  - intros i j e1 e2 Hi Hj Hfrom Hto.
    apply list_lookup_fmap_Some in Hi as ([k1 e1'] & -> & Hi).
    apply list_lookup_fmap_Some in Hj as ([k2 e2'] & -> & Hj). simpl in *.
    destruct (Hent k1 e1') as (Hk1 & _); [by eapply list_elem_of_lookup_2 |].
    destruct (Hent k2 e2') as (Hk2 & _); [by eapply list_elem_of_lookup_2 |].
    assert (k1 = k2) as <-
      by (rewrite Hk1, Hk2; unfold pairKey; by rewrite Hfrom, Hto).
    apply (NoDup_lookup _ _ _ k1 Hnd);
      by rewrite list_lookup_fmap; (rewrite Hi || rewrite Hj).
  - apply thickness_mono.
  - apply thickness_range.
Qed.

Lemma count_fold (cs : list ModuleNode) (n : nat) :
  fold_left (λ count child, count + getConnectionCount child) cs n
  = n + sum_list (getConnectionCount <$> cs).
Proof.
  revert n. induction cs as [| c cs IH]; intros n; csimpl; [lia |].
  rewrite IH. lia.
Qed.

(** C10. The count reported for a module is the length of its own
    declared connection list whenever it has one, whatever its descendants
    declare; only without a list of its own is it the sum of the counts of
    its children. *)
Theorem getConnectionCount_own_first (m : ModuleNode) :
  (∀ own, declaredConnections m = Some own →
          getConnectionCount m = length own) ∧
  (declaredConnections m = None →
   getConnectionCount m = sum_list (getConnectionCount <$> children m)).
Proof.
  destruct m as [n p pp cs l t c]; simpl.
  split.
  - intros own Hown. unfold declaredConnections in *. simpl in *. by rewrite Hown.
  - intros Hnone. unfold declaredConnections in *. simpl in *.
    rewrite Hnone. by rewrite count_fold.
Qed.

End ConnectionTheorems.

(** ** Cancelling a drag *)

Section CancelTheorems.
Import PCBSystemViewer Notions.

(** Storing a module at the position it already has moves nothing else. *)
Lemma updateModulePosition_in_place (v : Viewer) (doc : Document)
    (m : ModuleNode) (b : Box) :
  modulePositions v !! path m = Some b →
  ∃ w h,
    modulePositions (updateModulePosition v doc m (x b) (y b))
    = <[path m := mkBox (x b) (y b) w h]> (modulePositions v).
Proof.
  intros Hb. unfold updateModulePosition. rewrite Hb. cbv zeta.
  replace (x b - x b)%Qc with 0%Qc by ring.
  replace (y b - y b)%Qc with 0%Qc by ring.
  rewrite (bool_decide_eq_false_2 (0%Qc ≠ 0%Qc)) by (intros Hne; by apply Hne).
  rewrite andb_false_r. by eexists _, _.
Qed.

(** [cancelDrag] reads the position to go back to from [modulePositions],
    where the drag updates have been writing: the dragged module stays
    where the last update put it, and the drag state is reset as
    [endModuleDrag] resets it. *)
Lemma cancelDrag_stays (v : Viewer) (doc : Document) (m : ModuleNode) (b : Box) :
  isDragging (dragState v) = true →
  draggedModule (dragState v) = Some m →
  modulePositions v !! path m = Some b →
  (∃ w h, modulePositions (cancelDrag v doc)
          = <[path m := mkBox (x b) (y b) w h]> (modulePositions v)) ∧
  dragState (cancelDrag v doc) = dragState (endModuleDrag v).
Proof.
  intros Hdrag Hm Hb. unfold cancelDrag. rewrite Hdrag, Hm, Hb.
  destruct (updateModulePosition_in_place v doc m b Hb) as (w & h & Heq).
  split; [| done]. exists w, h. by rewrite <- Heq.
Qed.

End CancelTheorems.

(** ** The theorems at the sample data *)

Section Instances.
Import PCBSystemViewer Notions Samples.

Lemma wf_index_of (roots : list ModuleNode) :
  NoDup (path <$> all_nodes roots) → wf_index (index_of roots) roots.
Proof.
  intros Hnd k m. unfold index_of.
  rewrite <- elem_of_list_to_map.
  - rewrite list_elem_of_fmap. split.
    + intros (m' & Heq & Hin). by simplify_eq.
    + intros [Hin <-]. by exists m.
  - by rewrite <- list_fmap_compose.
Qed.

Lemma roots_unique : NoDup (path <$> all_nodes roots).
Proof. by_computation. Qed.

Lemma roots_links : wf_links roots.
Proof. by_computation. Qed.

Lemma roots_wf : wf_forest roots.
Proof. split; [exact roots_unique | exact roots_links]. Qed.

Lemma viewer_wf (E : gset string) (positions : gmap string Box) :
  wf_tree (viewer E positions).
Proof. split; [exact roots_wf | apply wf_index_of, roots_unique]. Qed.

Lemma getVisibleModules_parent_closed_witness :
  (B ∈ rootModules opened ∧ level B = 0) ∨
  (∃ p, allModules opened !! parentPath B = Some p ∧
        p ∈ getVisibleModules opened ∧
        includes (getVisibleModules opened) p = true ∧
        B ∈ children p).
Proof.
  apply (getVisibleModules_parent_closed opened B).
  - apply viewer_wf.
  - vm_compute. repeat constructor.
Defined.

Lemma collapse_clears_subtree_witness :
  let E' := toggleModuleExpansion A {["A"; "A/B"]} in
  let E'' := toggleModuleExpansion A E' in
  (path A ∉ E') ∧
  (∀ d, d ∈ descendants A → path d ∉ E') ∧
  (∀ q, q ∉ subtree_paths A → q ∈ E' ↔ q ∈ ({["A"; "A/B"]} : gset string)) ∧
  path A ∈ E'' ∧
  (∀ d, d ∈ descendants A → path d ∉ E'') ∧
  (∀ c d, c ∈ descendants A → d ∈ children c →
          includes (getVisibleModulesOf roots E'') d = false).
Proof.
  apply (collapse_clears_subtree roots {["A"; "A/B"]} A).
  - exact roots_wf.
  - vm_compute. repeat constructor.
  - intros q [Hq | Hq]%elem_of_union; apply elem_of_singleton in Hq as ->.
    + exists A. split; [vm_compute; repeat constructor |]. split; [done | discriminate].
    + exists B. split; [vm_compute; repeat constructor |]. split; [done | discriminate].
  - by_computation.
Defined.

Lemma dragging_B_wf : wf_tree dragging_B.
Proof. exact (viewer_wf _ _). Qed.

Lemma dragging_A_gap_wf : wf_tree dragging_A_gap.
Proof. exact (viewer_wf _ _). Qed.

Lemma drag_moves_visible_descendants_witness :
  let target := dragTarget dragging_B move_B in
  let dx := (CanvasManager.px target - x (box 90 150 220 220))%Qc in
  let dy := (CanvasManager.py target - y (box 90 150 220 220))%Qc in
  let v1 := updateModulePosition dragging_B document_open B
              (CanvasManager.px target) (CanvasManager.py target) in
  let v2 := updateModuleDrag dragging_B document_open move_B in
  (∃ w h,
     modulePositions v1 !! path B
     = Some (mkBox (CanvasManager.px target) (CanvasManager.py target) w h) ∧
     modulePositions v2 !! path B
     = Some (mkBox (CanvasManager.px target) (CanvasManager.py target) w h)) ∧
  (∀ d, d ∈ descendants B → includes (getVisibleModules dragging_B) d = true →
        ∃ b, modulePositions dragging_B !! path d = Some b ∧
             modulePositions v1 !! path d
             = Some (mkBox (x b + dx)%Qc (y b + dy)%Qc (width b) (height b)) ∧
             modulePositions v2 !! path d
             = Some (mkBox (x b + dx)%Qc (y b + dy)%Qc (width b) (height b))) ∧
  (∀ q, q ≠ path B →
        (∀ d, d ∈ descendants B → includes (getVisibleModules dragging_B) d = true →
              path d ≠ q) →
        modulePositions v1 !! q = modulePositions dragging_B !! q ∧
        ((∀ a, a ∈ all_nodes (rootModules dragging_B) → B ∈ descendants a →
               path a ≠ q) →
         modulePositions v2 !! q = modulePositions dragging_B !! q)).
Proof.
  apply (drag_moves_visible_descendants dragging_B document_open B
           (box 90 150 220 220) move_B).
  - exact dragging_B_wf.
  - vm_compute. repeat constructor.
  - reflexivity.
  - reflexivity.
  - by_computation.
  - intros u Hu. vm_compute in Hu.
    repeat (apply elem_of_cons in Hu as [-> | Hu]);
      [by eexists .. | by apply elem_of_nil in Hu].
  - reflexivity.
Defined.

(** C6 as stated fails in two ways.  With [A] and [A/B] expanded and laid
    out, a drag update of [A/B] by [(10, -5)] also rewrites the box of its
    expanded parent [A], which is not one of its descendants
    ([updateParentContainer]).  And on a box map without a box for the
    visible, expanded child [A/B], a drag update of [A] by [(100, 50)]
    leaves the box of the visible grandchild [A/B/D] where it was:
    [moveChildren] skips a child without a box and everything below it. *)
Lemma drag_counterexamples :
  (wf_tree dragging_B ∧
   draggedModule (dragState dragging_B) = Some B ∧
   isDragging (dragState dragging_B) = true ∧
   path B ∈ expandedModules dragging_B ∧
   (∀ u, u ∈ getVisibleModules dragging_B →
         is_Some (modulePositions dragging_B !! path u)) ∧
   (A ∉ descendants B) ∧
   modulePositions dragging_B !! path A = Some (box 50 50 300 360) ∧
   modulePositions (updateModuleDrag dragging_B document_open move_B) !! path A
   = Some (box 60 45 300 360) ∧
   box 50 50 300 360 ≠ box 60 45 300 360) ∧
  (wf_tree dragging_A_gap ∧
   draggedModule (dragState dragging_A_gap) = Some A ∧
   isDragging (dragState dragging_A_gap) = true ∧
   path A ∈ expandedModules dragging_A_gap ∧
   modulePositions dragging_A_gap !! path A = Some (box 50 50 300 360) ∧
   dragTarget dragging_A_gap move = CanvasManager.mkPoint (dec 150 1) (dec 100 1) ∧
   D ∈ descendants A ∧
   includes (getVisibleModules dragging_A_gap) D = true ∧
   modulePositions dragging_A_gap !! path D = Some (box 130 250 140 80) ∧
   modulePositions
     (updateModulePosition dragging_A_gap document_open A (dec 150 1) (dec 100 1))
     !! path D = Some (box 130 250 140 80) ∧
   modulePositions (updateModuleDrag dragging_A_gap document_open move) !! path D
   = Some (box 130 250 140 80) ∧
   box 130 250 140 80 ≠ box 230 300 140 80).
Proof.
  split.
  - split; [exact dragging_B_wf |].
    split; [reflexivity |]. split; [reflexivity |]. split; [by_computation |].
    split.
    { intros u Hu. vm_compute in Hu.
      repeat (apply elem_of_cons in Hu as [-> | Hu]);
        [by eexists .. | by apply elem_of_nil in Hu]. }
    split.
    { intros Hin. vm_compute in Hin.
      apply list_elem_of_singleton in Hin. discriminate. }
    split; [reflexivity |]. split; [qc_eq |].
    intros Heq. apply (f_equal x), (f_equal this) in Heq.
    vm_compute in Heq. discriminate.
  - split; [exact dragging_A_gap_wf |].
    split; [reflexivity |]. split; [reflexivity |]. split; [by_computation |].
    split; [reflexivity |]. split; [qc_eq |].
    split; [vm_compute; repeat constructor |].
    split; [reflexivity |]. split; [reflexivity |].
    split; [vm_compute; reflexivity |]. split; [vm_compute; reflexivity |].
    intros Heq. apply (f_equal x), (f_equal this) in Heq.
    vm_compute in Heq. discriminate.
Qed.

Lemma leaf_in_view_connections_witness :
  getConnectionsForModule A (getVisibleModules collapsed)
  = [link "C"]
    ++ flat_map (λ c, getConnectionsForModule c (getVisibleModules collapsed))
                (children A) ∧
  ((∀ d l, d ∈ descendants A → declaredConnections d = Some l → l = []) →
   getConnectionsForModule A (getVisibleModules collapsed) = [link "C"]).
Proof.
  apply (leaf_in_view_connections A (getVisibleModules collapsed) [link "C"]);
    reflexivity.
Defined.

(** C7 as stated fails on a module with a collapsed child that declares a
    connection: the child's connection is appended to the module's own. *)
Lemma collapsed_child_connection_is_added :
  includes (getVisibleModules collapsed) A = true ∧
  declaredConnections A = Some [link "C"] ∧
  existsb (includes (getVisibleModules collapsed)) (children A) = false ∧
  getConnectionsForModule A (getVisibleModules collapsed)
  = [link "C"; link "../C"] ∧
  getConnectionsForModule A (getVisibleModules collapsed) ≠ [link "C"].
Proof.
  split; [reflexivity |]. split; [reflexivity |]. split; [reflexivity |].
  split; [reflexivity |]. discriminate.
Qed.

(** Two connections resolving to the same visible pair: one entry, with
    both connections, drawn 4 pixels thick. *)
Lemma same_pair_single_edge :
  calculateConnectionPairs collapsed (getVisibleModules collapsed)
  = [mkPair A C [link "C"; link "../C"]] ∧
  thickness [link "C"; link "../C"] = 4.
Proof. split; reflexivity. Qed.

Lemma getConnectionCount_own_first_witness :
  getConnectionCount hub = length [link "x"] ∧
  sum_list (getConnectionCount <$> children hub) = 5.
Proof.
  split.
  - apply (proj1 (getConnectionCount_own_first hub)). reflexivity.
  - reflexivity.
Defined.

(** C9 fails on the code.  [A] rests at (50, 50); a drag moves it to
    (150, 100); cancelling leaves it at (150, 100), and resets the drag
    state as a drop does. *)
Theorem cancelDrag_keeps_dragged_position :
  startModuleDrag collapsed document A press = Some drag_started ∧
  modulePositions collapsed !! path A = Some (box 50 50 250 120) ∧
  modulePositions drag_moved !! path A = Some (box 150 100 250 120) ∧
  modulePositions drag_cancelled !! path A = Some (box 150 100 250 120) ∧
  dragState drag_cancelled = dragState (endModuleDrag drag_moved).
Proof.
  split; [reflexivity |]. split; [reflexivity |].
  split; [qc_eq |]. split; [qc_eq |]. reflexivity.
Qed.

(** C8 fails on the code.  The folder [P] holds [A], [A->P] with [B] inside,
    and [B->P].  The two connections of [P/A] resolve to the pair
    [(P/A, P/B->P)] and the connection of [P/A->P/B] to the different pair
    [(P/A->P/B, P)], but both pairs spell the key [P/A->P/B->P]: the three
    connections land in the single entry of the first pair, drawn 6 pixels
    thick, and the second pair has no entry. *)
Theorem key_collision_merges_pairs :
  wf_tree arrow_viewer ∧
  getVisibleModules arrow_viewer = [arrow_P; arrow_A; arrow_AP; arrow_B; arrow_BP] ∧
  resolved arrow_viewer (getVisibleModules arrow_viewer)
  = [(arrow_A, arrow_BP, wire "P/B->P" "first");
     (arrow_A, arrow_BP, wire "P/B->P" "second");
     (arrow_B, arrow_P, wire "P" "third")] ∧
  (path arrow_A, path arrow_BP) ≠ (path arrow_B, path arrow_P) ∧
  pairKey arrow_A arrow_BP = pairKey arrow_B arrow_P ∧
  calculateConnectionPairs arrow_viewer (getVisibleModules arrow_viewer)
  = [mkPair arrow_A arrow_BP
       [wire "P/B->P" "first"; wire "P/B->P" "second"; wire "P" "third"]] ∧
  thickness [wire "P/B->P" "first"; wire "P/B->P" "second"; wire "P" "third"] = 6.
Proof.
  split.
  { split; [split; by_computation | apply wf_index_of; by_computation]. }
  split; [reflexivity |]. split; [reflexivity |]. split; [discriminate |].
  split; [reflexivity |]. split; reflexivity.
Qed.

End Instances.

(** * Further properties *)

(** ** Zoom and pan *)

Section CanvasProperties.
Import CanvasManager.
Import Notions Samples.

(** Whatever number the zoom is, [constrainCamera] brings it within the
    bounds and leaves the pan offset alone; a camera within the bounds is
    left as it is. *)
Lemma constrainCamera_clamps (cam : Camera) :
  (minZoom ≤ zoom (constrainCamera cam) ≤ maxZoom)%Qc ∧
  x (constrainCamera cam) = x cam ∧ y (constrainCamera cam) = y cam ∧
  ((minZoom ≤ zoom cam ≤ maxZoom)%Qc → constrainCamera cam = cam) ∧
  ((zoom cam < minZoom)%Qc → zoom (constrainCamera cam) = minZoom) ∧
  ((maxZoom < zoom cam)%Qc → zoom (constrainCamera cam) = maxZoom).
Proof.
  split; [apply clamp_bounds |]. split; [done |]. split; [done |].
  unfold constrainCamera. split; [| split].
  - intros Hin. rewrite (clamp_inside _ Hin). by destruct cam.
  - intros Hlt. simpl. unfold Math_max, Math_min.
    destruct (decide (maxZoom ≤ zoom cam)%Qc) as [Hmz | _].
    + exfalso. apply (Qclt_not_le _ _ Hlt).
      exact (Qcle_trans _ _ _ minZoom_le_maxZoom Hmz).
    + by rewrite decide_False by (by apply Qclt_not_le).
  - intros Hgt. simpl. unfold Math_max, Math_min.
    rewrite (decide_True (P := (maxZoom ≤ zoom cam)%Qc)) by (by apply Qclt_le_weak).
    by rewrite decide_True by exact minZoom_le_maxZoom.
Qed.

(** X1. The zoom invariant: starting from the camera the constructor builds,
    no sequence of wheel events, mouse presses, moves and releases, pointer
    leaves and [resetView] calls takes the zoom out of the bounds. *)
Theorem zoom_stays_within_bounds (events : list CanvasEvent) :
  (minZoom ≤ zoom (camera (fold_left dispatch events initial)) ≤ maxZoom)%Qc.
Proof.
  assert (∀ c, (minZoom ≤ zoom (camera c) ≤ maxZoom)%Qc →
               (minZoom ≤ zoom (camera (fold_left dispatch events c)) ≤ maxZoom)%Qc)
    as Hinv.
  { induction events as [| ev events IH]; intros c Hc; simpl; [done |].
    apply IH. destruct ev as [e | e | e | e | | w h]; simpl.
    - by apply handleZoom_keeps_bounds.
    - unfold handleMouseDown. by destruct (decide _).
    - unfold handleMouseMove, updatePan_canvas. by destruct (isPanning c).
    - unfold handleMouseUp. destruct (_ && _); [apply clamp_bounds | done].
    - unfold handleMouseLeave. destruct (isPanning c); [apply clamp_bounds | done].
    - apply clamp_bounds. }
  apply Hinv. split; discriminate.
Qed.

Lemma zoomFactor_inverse (z : num) : (z * zoomFactor * (1 / zoomFactor))%Qc = z.
Proof. field. discriminate. Qed.

(** X2. A wheel step in followed by a wheel step out at the same pointer
    position, both within the bounds, gives back the camera: zoom and pan
    offset (in the exact arithmetic of the model). *)
Theorem zoom_in_then_out (cam : Camera) (e_in e_out : WheelEvent) :
  (minZoom ≤ zoom cam ≤ maxZoom)%Qc →
  (minZoom ≤ zoom cam * zoomFactor ≤ maxZoom)%Qc →
  ¬ (0 < deltaY e_in)%Qc → (0 < deltaY e_out)%Qc →
  mouseX e_out = mouseX e_in → mouseY e_out = mouseY e_in →
  handleZoom (handleZoom cam e_in) e_out = cam.
Proof.
  intros Hcam Hin Hneg Hpos Hmx Hmy.
  pose proof (valid_zoom_nonzero cam (proj1 Hcam)) as Hz.
  assert (zoom cam * zoomFactor ≠ 0)%Qc as Hz1.
  { intros Hzero. destruct Hin as [Hlo _]. rewrite Hzero in Hlo.
    exact (Qclt_not_le _ _ minZoom_pos Hlo). }
  assert (newZoom cam e_in = zoom cam * zoomFactor)%Qc as Hn1.
  { unfold newZoom, zoomDelta. by rewrite decide_False. }
  unfold handleZoom at 2. cbv zeta. rewrite Hn1, (clamp_inside _ Hin).
  rewrite decide_False by (intros Hne; by apply Hne).
  set (cam1 := mkCamera _ _ _).
  assert (newZoom cam1 e_out = zoom cam) as Hn2.
  { unfold newZoom, zoomDelta. rewrite decide_True by done. subst cam1. simpl.
    apply zoomFactor_inverse. }
  unfold handleZoom. cbv zeta. rewrite Hn2, (clamp_inside _ Hcam).
  rewrite decide_False by (intros Hne; by apply Hne).
  rewrite Hmx, Hmy. subst cam1.
  unfold screenToWorld, worldToScreen. destruct cam as [cx cy cz]; simpl in *.
  f_equal; field; done.
Qed.

Lemma zoom_in_then_out_witness :
  handleZoom (handleZoom cam0 wheel_in) wheel_out = cam0.
Proof.
  apply (zoom_in_then_out cam0 wheel_in wheel_out);
    try (split; discriminate); try reflexivity.
  discriminate.
Defined.

Lemma pan_moves (c : Canvas) (moves : list PanEvent) :
  isPanning c = true →
  let c' := fold_left handleMouseMove moves c in
  isPanning c' = true ∧ panStartPos c' = panStartPos c ∧
  panStartCamera c' = panStartCamera c ∧ zoom (camera c') = zoom (camera c).
Proof.
  revert c. induction moves as [| e moves IH]; intros c Hpan; simpl; [done |].
  set (c2 := mkCanvas (updatePan (panStartPos c) (panStartCamera c) (camera c)
                                 (panX e) (panY e))
                      true (mkPoint (panX e) (panY e))
                      (panStartPos c) (panStartCamera c)).
  assert (handleMouseMove c e = c2) as ->.
  { unfold handleMouseMove, updatePan_canvas. by rewrite Hpan. }
  by destruct (IH c2 eq_refl) as (-> & -> & -> & ->).
Qed.

(** X3. Panning does not drift.  After the middle button goes down at [e0],
    whatever pointer moves come in between, a move to [e] leaves the camera
    at its offset at [e0] plus the pointer's displacement from [e0], with
    the zoom unchanged; the world point grabbed at [e0] is the one under
    the pointer at [e]. *)
Theorem pan_follows_pointer (c : Canvas) (e0 e : PanEvent) (moves : list PanEvent) :
  button e0 = 1%Z →
  let c' := fold_left handleMouseMove (moves ++ [e]) (handleMouseDown c e0) in
  x (camera c') = (x (camera c) + (panX e - panX e0))%Qc ∧
  y (camera c') = (y (camera c) + (panY e - panY e0))%Qc ∧
  zoom (camera c') = zoom (camera c) ∧
  isPanning c' = true ∧
  screenToWorld (camera c') (panX e) (panY e)
  = screenToWorld (camera c) (panX e0) (panY e0).
Proof.
  intros Hb. cbv zeta. unfold handleMouseDown. rewrite decide_True by done.
  rewrite fold_left_app. simpl.
  destruct (pan_moves (startPan c e0) moves eq_refl) as (Hpan & Hpos & Hcam & Hzoom).
  cbv zeta in *. set (c1 := fold_left handleMouseMove moves (startPan c e0)) in *.
  unfold handleMouseMove, updatePan_canvas. rewrite Hpan. simpl.
  rewrite Hpos, Hcam, Hzoom. simpl.
  repeat split; try done.
  unfold screenToWorld; simpl. f_equal; f_equal; (ring || exact Hzoom).
Qed.

Lemma pan_follows_pointer_witness :
  let c' := fold_left handleMouseMove ([drift 210 90; drift 3 7] ++ [drift 260 140])
                      (handleMouseDown still middle_down) in
  x (camera c') = (x (camera still) + (panX (drift 260 140) - panX middle_down))%Qc ∧
  y (camera c') = (y (camera still) + (panY (drift 260 140) - panY middle_down))%Qc ∧
  zoom (camera c') = zoom (camera still) ∧
  isPanning c' = true ∧
  screenToWorld (camera c') (panX (drift 260 140)) (panY (drift 260 140))
  = screenToWorld (camera still) (panX middle_down) (panY middle_down).
Proof.
  apply (pan_follows_pointer still middle_down (drift 260 140)
           [drift 210 90; drift 3 7]).
  reflexivity.
Defined.

(** X4. Releasing the middle button, or leaving the container, ends the pan
    and keeps the camera of a pan that started within the zoom bounds. *)
Theorem pan_end_keeps_camera (c : Canvas) (e : PanEvent) :
  isPanning c = true → (minZoom ≤ zoom (camera c) ≤ maxZoom)%Qc →
  button e = 1%Z →
  camera (handleMouseUp c e) = camera c ∧ isPanning (handleMouseUp c e) = false ∧
  camera (handleMouseLeave c) = camera c ∧ isPanning (handleMouseLeave c) = false ∧
  handleMouseMove (handleMouseUp c e) e = handleMouseUp c e.
Proof.
  intros Hpan Hin Hb. unfold handleMouseUp, handleMouseLeave, handleMouseMove.
  rewrite Hpan, (bool_decide_eq_true_2 _ Hb). simpl.
  destruct (constrainCamera_clamps (camera c)) as (_ & _ & _ & Hid & _).
  by rewrite (Hid Hin).
Qed.

Lemma pan_end_keeps_camera_witness :
  camera (handleMouseUp panning middle_down) = camera panning ∧
  isPanning (handleMouseUp panning middle_down) = false ∧
  camera (handleMouseLeave panning) = camera panning ∧
  isPanning (handleMouseLeave panning) = false ∧
  handleMouseMove (handleMouseUp panning middle_down) middle_down
  = handleMouseUp panning middle_down.
Proof.
  apply (pan_end_keeps_camera panning middle_down).
  - reflexivity.
  - split; discriminate.
  - reflexivity.
Defined.

End CanvasProperties.

(** ** Visibility *)

Section VisibilityProperties.
Import PCBSystemViewer Notions Samples.

Lemma shown_complete (E : gset string) (r d : ModuleNode) :
  d ∈ descendants r →
  (∀ a, a = r ∨ a ∈ descendants r → d ∈ descendants a → path a ∈ E) →
  d ∈ shown E r.
Proof.
  induction r as [r IH] using ModuleNode_ind. rewrite Forall_forall in IH.
  intros Hd Hanc. pose proof (Hanc r (or_introl eq_refl) Hd) as HrE.
  apply elem_of_descendants in Hd as (c & Hc & Hd).
  destruct r as [n p pp cs l t k]; simpl in *. rewrite decide_True by done.
  apply elem_of_flat_map. exists c. split; [done |].
  destruct Hd as [-> | Hd]; [by left | right].
  apply IH; [done | done |]. intros a Ha Hda. apply Hanc; [| done]. right.
  apply elem_of_flat_map. exists c. split; [done |].
  destruct Ha as [-> | Ha]; [by left | by right].
Qed.

(** X5. In a well-formed tree a module is listed by [getVisibleModules] exactly
    when every module above it is expanded; the roots, which have nothing
    above them, always are. *)
Theorem visible_iff_ancestors_expanded (roots : list ModuleNode) (E : gset string)
    (d : ModuleNode) :
  wf_forest roots → d ∈ all_nodes roots →
  (d ∈ getVisibleModulesOf roots E ↔
   ∀ a, a ∈ all_nodes roots → d ∈ descendants a → path a ∈ E).
Proof.
  intros Hwf Hd. split.
  - intros Hvis a Ha Hda.
    apply (visible_below roots E a d Hwf Ha Hda).
    unfold includes. apply bool_decide_eq_true. by apply list_elem_of_fmap_2.
  - intros Hanc. rewrite getVisibleModulesOf_flat_map.
    apply elem_of_all_nodes in Hd as (r & Hr & Hd).
    apply elem_of_flat_map. exists r. split; [done |].
    destruct Hd as [-> | Hd]; [by left | right].
    apply shown_complete; [done |]. intros a Ha Hda. apply Hanc; [| done].
    apply elem_of_all_nodes. exists r. split; [done |].
    destruct Ha as [-> | Ha]; [by left | by right].
Qed.

Lemma visible_iff_ancestors_expanded_witness :
  D ∈ getVisibleModulesOf roots {["A"; "A/B"]} ↔
  ∀ a, a ∈ all_nodes roots → D ∈ descendants a →
       path a ∈ ({["A"; "A/B"]} : gset string).
Proof.
  apply (visible_iff_ancestors_expanded roots {["A"; "A/B"]} D).
  - exact roots_wf.
  - vm_compute. repeat constructor.
Defined.

Lemma shown_sublist (E : gset string) (m : ModuleNode) :
  shown E m `sublist_of` descendants m.
Proof.
  induction m as [m IH] using ModuleNode_ind.
  destruct m as [n p pp cs l t k]; simpl in *.
  destruct (decide (p ∈ E)); [| apply sublist_nil_l].
  induction IH as [| c cs Hc _ IHcs]; simpl; [done |].
  apply sublist_skip, sublist_app; done.
Qed.

Lemma visible_sublist (roots : list ModuleNode) (E : gset string) :
  getVisibleModulesOf roots E `sublist_of` all_nodes roots.
Proof.
  rewrite getVisibleModulesOf_flat_map. unfold all_nodes.
  induction roots as [| r roots IH]; simpl; [done |].
  apply sublist_skip, sublist_app; [apply shown_sublist | done].
Qed.

(** X6. With unique paths no module is listed twice, and the list keeps the
    pre-order of the tree. *)
Theorem visible_no_duplicates (roots : list ModuleNode) (E : gset string) :
  NoDup (path <$> all_nodes roots) →
  NoDup (path <$> getVisibleModulesOf roots E) ∧
  getVisibleModulesOf roots E `sublist_of` all_nodes roots.
Proof.
  intros Hnd. split; [| apply visible_sublist].
  eapply sublist_NoDup; [exact Hnd |]. apply fmap_sublist, visible_sublist.
Qed.

Lemma visible_no_duplicates_witness :
  NoDup (path <$> getVisibleModulesOf roots {["A"]}) ∧
  getVisibleModulesOf roots {["A"]} `sublist_of` all_nodes roots.
Proof. apply (visible_no_duplicates roots {["A"]}). exact roots_unique. Defined.

Lemma shown_mono (E E' : gset string) (m d : ModuleNode) :
  E ⊆ E' → d ∈ shown E m → d ∈ shown E' m.
Proof.
  intros Hsub. induction m as [m IH] using ModuleNode_ind.
  rewrite Forall_forall in IH.
  destruct m as [n p pp cs l t k]; simpl in *.
  destruct (decide (p ∈ E)) as [HpE |]; [| by intros ?%elem_of_nil].
  rewrite decide_True by (by apply Hsub).
  intros (c & Hc & Hd)%elem_of_flat_map. apply elem_of_flat_map.
  exists c. split; [done |].
  apply elem_of_cons in Hd as [-> | Hd]; [by left | right]. by apply IH.
Qed.

(** X7. Expanding more never hides a module. *)
Theorem visible_monotone (roots : list ModuleNode) (E E' : gset string)
    (d : ModuleNode) :
  E ⊆ E' → d ∈ getVisibleModulesOf roots E → d ∈ getVisibleModulesOf roots E'.
Proof.
  intros Hsub. rewrite !getVisibleModulesOf_flat_map.
  intros (r & Hr & Hd)%elem_of_flat_map. apply elem_of_flat_map.
  exists r. split; [done |].
  apply elem_of_cons in Hd as [-> | Hd]; [by left | right].
  by eapply shown_mono.
Qed.

Lemma visible_monotone_witness :
  B ∈ getVisibleModulesOf roots {["A"; "A/B"]}.
Proof.
  apply (visible_monotone roots {["A"]} {["A"; "A/B"]} B).
  - set_solver.
  - vm_compute. repeat constructor.
Defined.

(** X8. With nothing expanded the list is the list of root modules, in their
    order. *)
Theorem visible_collapsed_is_roots (roots : list ModuleNode) :
  getVisibleModulesOf roots ∅ = roots.
Proof.
  rewrite getVisibleModulesOf_flat_map.
  induction roots as [| r roots IH]; simpl; [done |].
  destruct r as [n p pp cs l t k]; simpl.
  rewrite decide_False by set_solver. simpl. by rewrite IH.
Qed.

Lemma parents_first_app (E : gset string) (exempt pre a b : list ModuleNode) :
  parents_first E exempt pre a → parents_first E exempt (pre ++ a) b →
  parents_first E exempt pre (a ++ b).
Proof.
  intros Ha Hb l1 d l2 Heq.
  apply app_eq_inv in Heq as [(k & -> & Hk) | (k & -> & ->)].
  - destruct k as [| d' k]; simpl in Hk.
    + destruct (Hb [] d l2) as [? | (p & Hp & ?)]; [by rewrite Hk | by left |].
      right. exists p. by rewrite !app_nil_r in *.
    + injection Hk as <- ->. apply (Ha l1 d k eq_refl).
  - destruct (Hb k d l2 eq_refl) as [? | (p & Hp & ?)]; [by left |].
    right. exists p. by rewrite app_assoc.
Qed.

Lemma parents_first_one (E : gset string) (exempt pre : list ModuleNode)
    (d : ModuleNode) :
  (d ∈ exempt ∨ ∃ p, p ∈ pre ∧ path p ∈ E ∧ d ∈ children p) →
  parents_first E exempt pre [d].
Proof.
  intros Hd l1 d' l2 Heq.
  destruct l1 as [| x l1]; simpl in Heq.
  - injection Heq as <- <-. by rewrite app_nil_r.
  - injection Heq as _ Heq. by destruct l1.
Qed.

Lemma shown_parents_first (E : gset string) (exempt : list ModuleNode) (m : ModuleNode) :
  ∀ pre, m ∈ pre → parents_first E exempt pre (shown E m).
Proof.
  induction m as [m IH] using ModuleNode_ind. intros pre Hm.
  destruct (decide (path m ∈ E)) as [HmE | HmE].
  2:{ destruct m; simpl in *. rewrite decide_False by done.
      intros l1 d l2 Heq. by destruct l1. }
  assert (∀ cs, Forall (λ c, c ∈ children m) cs →
            Forall (λ c, ∀ pre, c ∈ pre → parents_first E exempt pre (shown E c)) cs →
            ∀ pre, m ∈ pre →
              parents_first E exempt pre (flat_map (λ c, c :: shown E c) cs)) as Hcs.
  { clear pre Hm. intros cs Hin Hall.
    induction Hall as [| c cs Hc _ IHcs]; intros pre Hm; simpl.
    - intros l1 d l2 Heq. by destruct l1.
    - apply Forall_cons in Hin as [Hcm Hin].
      change (c :: shown E c ++ flat_map (λ c, c :: shown E c) cs)
        with (([c] ++ shown E c) ++ flat_map (λ c, c :: shown E c) cs).
      apply parents_first_app; [apply parents_first_app |].
      + apply parents_first_one. right. by exists m.
      + apply Hc. apply elem_of_app. right. by left.
      + apply IHcs; [done |]. apply elem_of_app. by left. }
  specialize (Hcs (children m)).
  destruct m as [n p pp cs l t k]; simpl in *. rewrite decide_True by done.
  apply Hcs; [by apply Forall_forall | done | done].
Qed.

Lemma visible_parents_first (roots : list ModuleNode) (E : gset string) :
  parents_first E roots [] (getVisibleModulesOf roots E).
Proof.
  rewrite getVisibleModulesOf_flat_map.
  assert (∀ rs pre, Forall (λ r, r ∈ roots) rs →
            parents_first E roots pre (flat_map (λ r, r :: shown E r) rs)) as Hall.
  { induction rs as [| r rs IH]; intros pre Hrs; simpl.
    - intros k1 x k2 Heq. by destruct k1.
    - apply Forall_cons in Hrs as [Hr Hrs].
      change (r :: shown E r ++ flat_map (λ r, r :: shown E r) rs)
        with (([r] ++ shown E r) ++ flat_map (λ r, r :: shown E r) rs).
      apply parents_first_app; [apply parents_first_app |].
      + apply parents_first_one. by left.
      + apply shown_parents_first. apply elem_of_app. right. by left.
      + by apply IH. }
  apply Hall. by apply Forall_forall.
Qed.

(** X9. The list is drawn containers first: a module that is not a root comes
    after its expanded parent. *)
Theorem visible_parent_before_child (roots : list ModuleNode) (E : gset string)
    (l1 l2 : list ModuleNode) (d : ModuleNode) :
  getVisibleModulesOf roots E = l1 ++ d :: l2 →
  d ∈ roots ∨ ∃ p, p ∈ l1 ∧ path p ∈ E ∧ d ∈ children p.
Proof. intros Heq. apply (visible_parents_first roots E l1 d l2 Heq). Qed.

Lemma visible_parent_before_child_witness :
  D ∈ roots ∨ ∃ p, p ∈ [A; B] ∧ path p ∈ ({["A"; "A/B"]} : gset string) ∧
                   D ∈ children p.
Proof.
  apply (visible_parent_before_child roots {["A"; "A/B"]} [A; B] [C] D).
  reflexivity.
Defined.

End VisibilityProperties.

(** ** Expansion *)

Section ExpansionProperties.
Import PCBSystemViewer Notions Samples.

Lemma toggle_expansion_ok (roots : list ModuleNode) (E : gset string) (m : ModuleNode) :
  m ∈ all_nodes roots → expansion_ok roots E →
  expansion_ok roots (toggleModuleExpansion m E).
Proof.
  intros Hm Hok. unfold toggleModuleExpansion.
  destruct (children m) as [| c cs] eqn:Hcs; [done |].
  destruct (decide (path m ∈ E)).
  - rewrite collapseModule_spec. intros q [Hq _]%elem_of_difference. by apply Hok.
  - intros q [Hq | ->%elem_of_singleton]%elem_of_union; [by apply Hok |].
    exists m. by rewrite Hcs.
Qed.

(** X10. Whatever modules of the tree are toggled, in whatever order, starting
    with nothing expanded, the expansion set holds only paths of modules of
    the tree that have children. *)
Theorem toggles_expand_parents_only (roots : list ModuleNode) (ms : list ModuleNode) :
  Forall (λ m, m ∈ all_nodes roots) ms →
  ∀ q, q ∈ fold_left (λ E m, toggleModuleExpansion m E) ms ∅ →
       ∃ n, n ∈ all_nodes roots ∧ path n = q ∧ children n ≠ [].
Proof.
  intros Hms.
  assert (∀ E, expansion_ok roots E →
               expansion_ok roots (fold_left (λ E m, toggleModuleExpansion m E) ms E))
    as Hfold.
  { induction Hms as [| m ms Hm _ IH]; intros E HE; simpl; [done |].
    by apply IH, toggle_expansion_ok. }
  apply Hfold. intros q Hq. by apply not_elem_of_empty in Hq.
Qed.

Lemma toggles_expand_parents_only_witness :
  ∃ n, n ∈ all_nodes roots ∧ path n = "A/B" ∧ children n ≠ [].
Proof.
  apply (toggles_expand_parents_only roots [A; D; B; C]).
  - repeat (constructor; [vm_compute; repeat constructor |]). constructor.
  - by_computation.
Defined.

(** X11. Expanding a module below which nothing is expanded and then collapsing
    it again gives back the expansion set. *)
Theorem expand_then_collapse (E : gset string) (m : ModuleNode) :
  children m ≠ [] → path m ∉ E →
  (∀ d, d ∈ descendants m → path d ∉ E) →
  toggleModuleExpansion m E = E ∪ {[path m]} ∧
  toggleModuleExpansion m (toggleModuleExpansion m E) = E.
Proof.
  intros Hcs HmE Hbelow. unfold toggleModuleExpansion.
  destruct (children m) as [| c cs]; [done |].
  rewrite decide_False by done. split; [done |].
  rewrite decide_True by (apply elem_of_union_r; by apply elem_of_singleton).
  rewrite collapseModule_spec. apply set_eq. intros q.
  rewrite elem_of_difference, elem_of_union, elem_of_singleton, elem_of_subtree_paths.
  split.
  - intros [[Hq | ->] Hn]; [done |]. destruct Hn. by left.
  - intros Hq. split; [by left |]. intros [-> | (d & Hd & <-)]; [done |].
    by apply (Hbelow d).
Qed.

Lemma expand_then_collapse_witness :
  toggleModuleExpansion B {["A"]} = ({["A"]} : gset string) ∪ {[path B]} ∧
  toggleModuleExpansion B (toggleModuleExpansion B {["A"]}) = {["A"]}.
Proof.
  apply (expand_then_collapse {["A"]} B).
  - discriminate.
  - by_computation.
  - intros d Hd. vm_compute in Hd. apply list_elem_of_singleton in Hd as ->.
    by_computation.
Defined.

End ExpansionProperties.

(** ** Automatic placement *)

Section LayoutProperties.
Import PCBSystemViewer Notions Samples.

Lemma calculateModulePositions_loop_spec (v : Viewer) (modules : list ModuleNode) :
  ∀ rest positions stored positions' stored',
    calculateModulePositions_loop v modules rest positions stored
    = Some (positions', stored') →
    length positions' = (length positions + length rest)%nat ∧
    (∀ q b, stored !! q = Some b → stored' !! q = Some b) ∧
    (∀ m, m ∈ rest → is_Some (stored' !! path m)) ∧
    (∀ q, q ∉ path <$> rest → stored' !! q = stored !! q) ∧
    (∀ i pos m, positions' !! (length positions + i)%nat = Some pos →
                rest !! i = Some m →
                ∃ b, stored' !! path m = Some b ∧
                     x (posBox pos) = x b ∧ y (posBox pos) = y b) ∧
    (∀ i, (i < length positions)%nat → positions' !! i = positions !! i).
Proof.
  induction rest as [| m rest IH]; intros positions stored positions' stored' Hrun;
    simpl in Hrun.
  - injection Hrun as <- <-. split; [simpl; lia |]. split; [done |].
    split; [by intros m ?%elem_of_nil |]. split; [done |]. split; [| done].
    intros i pos m _ Hm. by rewrite lookup_nil in Hm.
  - assert (∃ pos stored1,
              calculateModulePositions_loop v modules rest (positions ++ [pos]) stored1
              = Some (positions', stored') ∧
              (∀ q b, stored !! q = Some b → stored1 !! q = Some b) ∧
              (∀ q, q ≠ path m → stored1 !! q = stored !! q) ∧
              ∃ b, stored1 !! path m = Some b ∧
                   x (posBox pos) = x b ∧ y (posBox pos) = y b)
      as (pos & stored1 & Hrest & Hkeep & Hother & b & Hb & Hx & Hy).
    { destruct (stored !! path m) as [storedPos |] eqn:Hstored.
      - eexists _, stored. split; [exact Hrun |]. split; [done |]. split; [done |].
        by exists storedPos.
      - destruct (calculateInitialPosition v m modules positions) as [pos |];
          [| done].
        exists pos, (<[path m := posBox pos]> stored). split; [exact Hrun |].
        split; [| split].
        + intros q b' Hq. rewrite lookup_insert_ne; [done |]. congruence.
        + intros q Hq. by rewrite lookup_insert_ne.
        + exists (posBox pos). by rewrite lookup_insert_eq. }
    destruct (IH _ _ _ _ Hrest) as (Hlen & Hkeep' & Hall & Hout & Hdrawn & Hpre).
    rewrite length_app in Hlen, Hdrawn, Hpre. simpl in *.
    split; [lia |]. split; [by intros q b' Hq; apply Hkeep', Hkeep |].
    split; [| split; [| split]].
    + intros u [-> | Hu]%elem_of_cons; [| by apply Hall].
      exists b. by apply Hkeep'.
    + intros q Hq. csimpl in Hq. apply not_elem_of_cons in Hq as [Hq1 Hq2].
      rewrite Hout by done. by apply Hother.
    + intros i pos' u Hpos Hu. destruct i as [| i]; simpl in Hu.
      * injection Hu as <-. rewrite Nat.add_0_r in Hpos.
        rewrite Hpre in Hpos by lia.
        rewrite lookup_app_r, Nat.sub_diag in Hpos by lia. injection Hpos as <-.
        exists b. split; [by apply Hkeep' | done].
      * apply (Hdrawn i pos' u); [| done].
        by replace (length positions + 1 + i)%nat with (length positions + S i)%nat by lia.
    + intros i Hi. rewrite Hpre by lia. by rewrite lookup_app_l.
Qed.

(** X12. Automatic placement never overwrites a stored box: after
    [calculateModulePositions] every module of the list has a stored box,
    the boxes stored before are unchanged, one position is returned per
    module, and each returned position is the stored position of its
    module. *)
Theorem calculateModulePositions_stores (v v' : Viewer) (modules : list ModuleNode)
    (positions : list Position) :
  calculateModulePositions v modules = Some (positions, v') →
  same_tree v v' ∧
  length positions = length modules ∧
  (∀ q b, modulePositions v !! q = Some b → modulePositions v' !! q = Some b) ∧
  (∀ m, m ∈ modules → is_Some (modulePositions v' !! path m)) ∧
  (∀ q, q ∉ path <$> modules → modulePositions v' !! q = modulePositions v !! q) ∧
  (∀ i pos m, positions !! i = Some pos → modules !! i = Some m →
              ∃ b, modulePositions v' !! path m = Some b ∧
                   x (posBox pos) = x b ∧ y (posBox pos) = y b).
Proof.
  unfold calculateModulePositions.
  destruct (calculateModulePositions_loop _ _ _ _ _) as [[ps stored] |] eqn:Hrun;
    [| done].
  intros Heq. injection Heq as -> <-.
  destruct (calculateModulePositions_loop_spec _ _ _ _ _ _ _ Hrun)
    as (Hlen & Hkeep & Hall & Hout & Hdrawn & _).
  split; [done |]. split; [done |]. split; [done |]. split; [done |].
  split; [done |]. intros i pos m. apply (Hdrawn i pos m).
Qed.

Lemma calculateModulePositions_stores_witness :
  ∃ positions v',
    calculateModulePositions (viewer ∅ ∅) roots = Some (positions, v') ∧
    same_tree (viewer ∅ ∅) v' ∧
    length positions = length roots ∧
    (∀ q b, modulePositions (viewer ∅ ∅) !! q = Some b →
            modulePositions v' !! q = Some b) ∧
    (∀ m, m ∈ roots → is_Some (modulePositions v' !! path m)) ∧
    (∀ q, q ∉ path <$> roots →
          modulePositions v' !! q = modulePositions (viewer ∅ ∅) !! q) ∧
    (∀ i pos m, positions !! i = Some pos → roots !! i = Some m →
                ∃ b, modulePositions v' !! path m = Some b ∧
                     x (posBox pos) = x b ∧ y (posBox pos) = y b).
Proof.
  destruct (calculateModulePositions (viewer ∅ ∅) roots) as [[ps v'] |] eqn:Hrun.
  - exists ps, v'. split; [done |].
    apply (calculateModulePositions_stores (viewer ∅ ∅) v' roots ps Hrun).
  - vm_compute in Hrun. discriminate.
Defined.

Lemma ceil_sqrt_pos (n : nat) : (0 < n)%nat → (0 < ceil_sqrt n)%Z.
Proof.
  intros Hn. unfold ceil_sqrt.
  destruct (Nat.eqb_spec (Nat.sqrt n * Nat.sqrt n) n) as [Heq |]; [| lia].
  destruct (Nat.sqrt n); simpl in *; lia.
Qed.

Lemma indexOf_found (l : list ModuleNode) (m p : ModuleNode) :
  p ∈ l → path p = path m →
  ∃ i x, indexOf l m = Z.of_nat i ∧ l !! i = Some x ∧ path x = path m ∧
         ∀ j y, l !! j = Some y → path y = path m → (i ≤ j)%nat.
Proof.
  intros Hp Heq. unfold indexOf.
  destruct (list_find_elem_of (λ x, path x = path m) l p Hp Heq) as [[i x] Hfind].
  rewrite Hfind. apply list_find_Some in Hfind as (Hi & Hx & Hmin).
  exists i, x. split; [done |]. split; [done |]. split; [done |].
  intros j y Hj Hy. destruct (decide (i ≤ j)%nat) as [| Hlt]; [done |].
  destruct (Hmin j y Hj); [lia | done].
Qed.

Lemma gridCell_is_Some (index : Z) (n : nat) :
  (0 < n)%nat → is_Some (gridCell index (ceil_sqrt n)).
Proof.
  intros Hn. unfold gridCell. pose proof (ceil_sqrt_pos n Hn).
  destruct (decide (ceil_sqrt n = 0%Z)); [lia | by eexists].
Qed.

Lemma calculateExpandedSize_is_Some (children : list ModuleNode) :
  children ≠ [] → is_Some (calculateExpandedSize children).
Proof.
  intros Hne. unfold calculateExpandedSize.
  assert (0 < length children)%nat as Hlen by (destruct children; simpl; [done | lia]).
  pose proof (ceil_sqrt_pos _ Hlen).
  destruct (decide (ceil_sqrt (length children) = 0%Z)); [lia | by eexists].
Qed.

(** A module that is laid out on the root grid always gets a position. *)
Lemma calculateInitialPosition_grid (v : Viewer) (m : ModuleNode)
    (modules : list ModuleNode) (positions : list Position) :
  m ∈ modules → isChildOfExpandedParent v m = false →
  is_Some (calculateInitialPosition v m modules positions).
Proof.
  intros Hm Hroot. unfold calculateInitialPosition. rewrite Hroot.
  set (rootModules := filter _ modules).
  assert (0 < length rootModules)%nat as Hlen.
  { assert (m ∈ rootModules) as Hin by (by apply list_elem_of_filter).
    destruct rootModules; [by apply elem_of_nil in Hin | simpl; lia]. }
  destruct (gridCell_is_Some (indexOf rootModules m) _ Hlen) as [[col row] ->].
  destruct (bool_decide (path m ∈ expandedModules v)
            && bool_decide (0 < length (children m))%nat); [| by eexists].
  destruct (filter _ (children m)) as [| c cs] eqn:Hvis; [by eexists |].
  destruct (calculateExpandedSize_is_Some (c :: cs)) as [[w h] ->]; [done |].
  by eexists.
Qed.

(** A child of an expanded parent gets a position when its parent stands
    earlier in the list. *)
Lemma calculateChildPosition_is_Some (v : Viewer) (d : ModuleNode)
    (l1 l2 : list ModuleNode) (positions : list Position) :
  (∀ parent, allModules v !! parentPath d = Some parent →
             parent ∈ l1 ∧ d ∈ children parent) →
  length positions = length l1 →
  is_Some (calculateChildPosition v d (l1 ++ d :: l2) positions).
Proof.
  intros Hparent Hlen. unfold calculateChildPosition.
  destruct (allModules v !! parentPath d) as [parent |]; [| by eexists].
  destruct (Hparent parent eq_refl) as [Hp Hd].
  destruct (decide (indexOf (l1 ++ d :: l2) parent = (-1)%Z)); [by eexists |].
  assert (parent ∈ l1 ++ d :: l2) as Hin by (apply elem_of_app; by left).
  destruct (indexOf_found _ parent parent Hin eq_refl) as (i & x0 & -> & _ & _ & Hmin).
  apply list_elem_of_lookup in Hp as [j Hj].
  assert (i ≤ j)%nat as Hij.
  { apply (Hmin j parent); [| done]. by apply lookup_app_l_Some. }
  pose proof (lookup_lt_Some _ _ _ Hj) as Hjl.
  rewrite Nat2Z.id.
  destruct (lookup_lt_is_Some_2 positions i) as [parentPosition ->]; [lia |].
  set (siblings := filter _ (children parent)).
  assert (0 < length siblings)%nat as Hs.
  { assert (d ∈ siblings) as Hds.
    { apply list_elem_of_filter. split; [| done]. unfold includes.
      apply bool_decide_eq_true. apply list_elem_of_fmap_2, elem_of_app.
      right. by left. }
    destruct siblings; [by apply elem_of_nil in Hds | simpl; lia]. }
  destruct (gridCell_is_Some (indexOf siblings d) _ Hs) as [[col row] ->].
  by eexists.
Qed.

Lemma calculateModulePositions_loop_is_Some (v : Viewer) (modules : list ModuleNode) :
  (∀ l1 d l2 positions, modules = l1 ++ d :: l2 → length positions = length l1 →
     is_Some (calculateInitialPosition v d modules positions)) →
  ∀ rest pre positions stored,
    modules = pre ++ rest → length positions = length pre →
    is_Some (calculateModulePositions_loop v modules rest positions stored).
Proof.
  intros Hinit. induction rest as [| d rest IH]; intros pre positions stored Heq Hlen;
    simpl; [by eexists |].
  assert (modules = (pre ++ [d]) ++ rest) as Heq' by (by rewrite <- app_assoc).
  destruct (stored !! path d) as [storedPos |].
  - apply (IH (pre ++ [d])); [done |]. rewrite !length_app. simpl. lia.
  - destruct (Hinit pre d rest positions Heq Hlen) as [position ->].
    apply (IH (pre ++ [d])); [done |]. rewrite !length_app. simpl. lia.
Qed.

(** In a well-formed tree every visible module gets a position: the grid
    has at least one column, and the parent of a child is placed before
    it. *)
Lemma calculateInitialPosition_visible (v : Viewer) (l1 l2 : list ModuleNode)
    (d : ModuleNode) (positions : list Position) :
  wf_tree v → getVisibleModules v = l1 ++ d :: l2 →
  length positions = length l1 →
  is_Some (calculateInitialPosition v d (l1 ++ d :: l2) positions).
Proof.
  intros [[Hnd Hlinks] Hindex] Hvis Hlen.
  destruct (isChildOfExpandedParent v d) eqn:Hchild.
  2:{ apply calculateInitialPosition_grid; [| done]. apply elem_of_app. right. by left. }
  unfold calculateInitialPosition. rewrite Hchild.
  apply calculateChildPosition_is_Some; [| done].
  intros parent Hparent.
  apply andb_true_iff in Hchild as [Hlevel _]. apply bool_decide_eq_true in Hlevel.
  destruct (visible_parents_first _ _ l1 d l2 Hvis) as [Hroot | (p & Hp & HpE & Hdp)].
  { destruct Hlinks as [Hroots _]. rewrite Forall_forall in Hroots.
    destruct (Hroots d Hroot). lia. }
  assert (p ∈ all_nodes (rootModules v)) as Hpn.
  { apply (visible_all_nodes _ (expandedModules v)). unfold getVisibleModules in Hvis.
    rewrite Hvis. apply elem_of_app. by left. }
  destruct (wf_links_child _ p d Hlinks Hpn Hdp) as (Hpp & _ & _).
  rewrite Hpp in Hparent. apply Hindex in Hparent as [Hparent Hpath].
  assert (parent = p) as -> by (by apply (unique_path (rootModules v))).
  done.
Qed.

Lemma calculateModulePositions_visible (v : Viewer) :
  wf_tree v →
  ∃ positions stored,
    calculateModulePositions_loop v (getVisibleModules v) (getVisibleModules v) []
      (modulePositions v) = Some (positions, stored).
Proof.
  intros Hwf.
  destruct (calculateModulePositions_loop_is_Some v (getVisibleModules v))
    with (rest := getVisibleModules v) (pre := @nil ModuleNode)
         (positions := @nil Position) (stored := modulePositions v)
    as [[positions stored] Hrun]; [| done | done | by eexists _, _].
  intros l1 d l2 positions Heq Hlen. rewrite Heq.
  by apply calculateInitialPosition_visible.
Qed.

Lemma same_tree_visible (v v' : Viewer) :
  same_tree v v' → getVisibleModules v' = getVisibleModules v.
Proof. intros (_ & HE & HR & _). unfold getVisibleModules. by rewrite HE, HR. Qed.

Lemma renderAllVisibleModules_spec (v : Viewer) :
  wf_tree v →
  ∃ v', renderAllVisibleModules v = Some v' ∧ same_tree v v' ∧ layout_ok v' ∧
        (∀ q b, modulePositions v !! q = Some b → modulePositions v' !! q = Some b) ∧
        (∀ q, q ∉ path <$> getVisibleModules v →
              modulePositions v' !! q = modulePositions v !! q).
Proof.
  intros Hwf. destruct (calculateModulePositions_visible v Hwf) as (ps & stored & Hrun).
  unfold renderAllVisibleModules, calculateModulePositions. rewrite Hrun.
  destruct (calculateModulePositions_loop_spec _ _ _ _ _ _ _ Hrun)
    as (_ & Hkeep & Hall & Hout & _).
  exists (set_modulePositions v stored). split; [done |]. split; [done |].
  split; [| split; [done | done]].
  intros u Hu. apply Hall. by rewrite (same_tree_visible v) in Hu.
Qed.

Lemma renderSystem_spec (v : Viewer) :
  wf_tree v →
  ∃ v', renderSystem v = Some v' ∧ same_tree v v' ∧ layout_ok v' ∧
        (∀ q b, modulePositions v !! q = Some b → modulePositions v' !! q = Some b) ∧
        (∀ q, q ∉ path <$> getVisibleModules v →
              modulePositions v' !! q = modulePositions v !! q).
Proof.
  intros Hwf. unfold renderSystem.
  destruct (rootModules v) as [| r rs] eqn:Hroots;
    [| by apply renderAllVisibleModules_spec].
  exists v. split; [done |]. split; [done |]. split; [| done].
  intros u Hu. unfold getVisibleModules in Hu. rewrite Hroots in Hu.
  by apply elem_of_nil in Hu.
Qed.

(** X13. Rendering a well-formed tree never fails, gives every visible module a
    stored box, keeps every box that was stored before, and touches
    nothing but the boxes of visible modules. *)
Theorem renderSystem_lays_out (v : Viewer) :
  wf_tree v →
  ∃ v', renderSystem v = Some v' ∧ same_tree v v' ∧ layout_ok v' ∧
        (∀ q b, modulePositions v !! q = Some b → modulePositions v' !! q = Some b) ∧
        (∀ q, q ∉ path <$> getVisibleModules v →
              modulePositions v' !! q = modulePositions v !! q).
Proof. apply renderSystem_spec. Qed.

Lemma renderSystem_lays_out_witness :
  ∃ v', renderSystem (viewer {["A"; "A/B"]} ∅) = Some v' ∧
        same_tree (viewer {["A"; "A/B"]} ∅) v' ∧ layout_ok v' ∧
        (∀ q b, modulePositions (viewer {["A"; "A/B"]} ∅) !! q = Some b →
                modulePositions v' !! q = Some b) ∧
        (∀ q, q ∉ path <$> getVisibleModules (viewer {["A"; "A/B"]} ∅) →
              modulePositions v' !! q = modulePositions (viewer {["A"; "A/B"]} ∅) !! q).
Proof. apply (renderSystem_lays_out (viewer {["A"; "A/B"]} ∅)), viewer_wf. Defined.

(** *** The grids *)

Lemma num_of_Z_add (a b : Z) : (num_of_Z a + num_of_Z b)%Qc = num_of_Z (a + b).
Proof.
  apply Qc_is_canon. unfold num_of_Z, dec. simpl. rewrite !Qred_correct.
  unfold Qeq, Qplus. simpl. lia.
Qed.

Lemma num_of_Z_le (a b : Z) : (a ≤ b)%Z → (num_of_Z a ≤ num_of_Z b)%Qc.
Proof.
  intros Hle. unfold Qcle, num_of_Z, dec. simpl. rewrite !Qred_correct.
  unfold Qle. simpl. lia.
Qed.

Lemma shifted_le (p : num) (a d b : Z) :
  (a + d ≤ b)%Z → (p + num_of_Z a + num_of_Z d ≤ p + num_of_Z b)%Qc.
Proof.
  intros Hle. rewrite <- Qcplus_assoc, num_of_Z_add.
  apply Qcplus_le_compat; [apply Qcle_refl | by apply num_of_Z_le].
Qed.

(** Two different cells of a grid differ in their column or in their
    row. *)
Lemma gridCell_injective (i j : nat) (cols : Z) (ci ri cj rj : Z) :
  i ≠ j → (0 < cols)%Z →
  gridCell (Z.of_nat i) cols = Some (ci, ri) →
  gridCell (Z.of_nat j) cols = Some (cj, rj) →
  (0 ≤ ci ∧ 0 ≤ cj ∧ 0 ≤ ri ∧ 0 ≤ rj)%Z ∧ (ci ≠ cj ∨ ri ≠ rj).
Proof.
  unfold gridCell. intros Hne Hpos.
  destruct (decide (cols = 0%Z)) as [| Hcols]; [lia |].
  intros Hi Hj. injection Hi as <- <-. injection Hj as <- <-.
  rewrite !Z.rem_mod_nonneg by lia.
  pose proof (Z.mod_pos_bound (Z.of_nat i) cols Hpos).
  pose proof (Z.mod_pos_bound (Z.of_nat j) cols Hpos).
  pose proof (Z.div_mod (Z.of_nat i) cols Hcols).
  pose proof (Z.div_mod (Z.of_nat j) cols Hcols).
  split.
  - pose proof (Z.div_pos (Z.of_nat i) cols). pose proof (Z.div_pos (Z.of_nat j) cols).
    lia.
  - destruct (decide ((Z.of_nat i mod cols)%Z = (Z.of_nat j mod cols)%Z)) as [Hc |];
      [| by left].
    right. intros Hr. rewrite Hc, Hr in *. lia.
Qed.

Lemma apart_cells (px py : num) (ox pw oy ph c1 r1 c2 r2 : Z) :
  (0 < pw)%Z → (0 < ph)%Z → c1 ≠ c2 ∨ r1 ≠ r2 →
  apart pw ph
    (mkBox (px + num_of_Z (ox + c1 * pw))%Qc (py + num_of_Z (oy + r1 * ph))%Qc 0 0)
    (mkBox (px + num_of_Z (ox + c2 * pw))%Qc (py + num_of_Z (oy + r2 * ph))%Qc 0 0).
Proof.
  intros Hw Hh Hne. unfold apart. simpl.
  destruct (Z.lt_total c1 c2) as [Hc | [Hc | Hc]].
  - left. apply shifted_le. nia.
  - destruct Hne as [Hne | Hne]; [done |].
    destruct (Z.lt_total r1 r2) as [Hr | [Hr | Hr]]; [| done |].
    + right. right. left. apply shifted_le. nia.
    + right. right. right. apply shifted_le. nia.
  - right. left. apply shifted_le. nia.
Qed.

Lemma indexOf_distinct (l : list ModuleNode) (m1 m2 : ModuleNode) :
  m1 ∈ l → m2 ∈ l → path m1 ≠ path m2 →
  ∃ i j, indexOf l m1 = Z.of_nat i ∧ indexOf l m2 = Z.of_nat j ∧ i ≠ j.
Proof.
  intros H1 H2 Hne.
  destruct (indexOf_found l m1 m1 H1 eq_refl) as (i & x1 & -> & Hi & Hx1 & _).
  destruct (indexOf_found l m2 m2 H2 eq_refl) as (j & x2 & -> & Hj & Hx2 & _).
  exists i, j. split; [done |]. split; [done |]. intros ->. congruence.
Qed.

(** X14. The children of an expanded parent are laid out on a grid of cells
    160 wide and 100 high below the parent's corner: two different
    children that are placed against the same parent position get boxes of
    140 by 80 whose corners are at least 160 apart horizontally or 100
    apart vertically, so that the boxes are at least 20 apart. *)
Theorem siblings_placed_apart (v : Viewer) (modules : list ModuleNode)
    (ps1 ps2 : list Position) (parent c1 c2 : ModuleNode) (p1 p2 : Position) :
  allModules v !! parentPath c1 = Some parent → parentPath c2 = parentPath c1 →
  parent ∈ modules →
  c1 ∈ children parent → c2 ∈ children parent → c1 ∈ modules → c2 ∈ modules →
  path c1 ≠ path c2 →
  ps1 `prefix_of` ps2 →
  calculateChildPosition v c1 modules ps1 = Some p1 →
  calculateChildPosition v c2 modules ps2 = Some p2 →
  apart 160 100 (posBox p1) (posBox p2) ∧
  width (posBox p1) = dec 140 1 ∧ height (posBox p1) = dec 80 1 ∧
  width (posBox p2) = dec 140 1 ∧ height (posBox p2) = dec 80 1.
Proof.
  intros Hparent Hpp Hpm Hc1 Hc2 Hm1 Hm2 Hne Hpre.
  unfold calculateChildPosition. rewrite Hpp, Hparent.
  destruct (indexOf_found modules parent parent Hpm eq_refl) as (i & x0 & -> & _).
  destruct (decide (Z.of_nat i = (-1)%Z)); [lia |]. rewrite Nat2Z.id.
  destruct (ps1 !! i) as [pp |] eqn:Hpp1; [| done].
  rewrite (prefix_lookup_Some _ _ _ _ Hpp1 Hpre).
  set (siblings := filter _ (children parent)).
  assert (∀ c, c ∈ children parent → c ∈ modules → c ∈ siblings) as Hsib.
  { intros c Hc Hm. apply list_elem_of_filter. split; [| done].
    apply bool_decide_eq_true. by apply list_elem_of_fmap_2. }
  destruct (indexOf_distinct siblings c1 c2) as (i1 & i2 & -> & -> & Hi);
    [by apply Hsib | by apply Hsib | done |].
  assert (0 < ceil_sqrt (length siblings))%Z as Hcols.
  { apply ceil_sqrt_pos. pose proof (Hsib c1 Hc1 Hm1) as Hin.
    destruct siblings; [by apply elem_of_nil in Hin | simpl; lia]. }
  destruct (gridCell (Z.of_nat i1) _) as [[col1 row1] |] eqn:Hg1; [| done].
  destruct (gridCell (Z.of_nat i2) _) as [[col2 row2] |] eqn:Hg2; [| done].
  destruct (gridCell_injective _ _ _ _ _ _ _ Hi Hcols Hg1 Hg2) as [_ Hcells].
  intros Heq1 Heq2. injection Heq1 as <-. injection Heq2 as <-. simpl.
  split; [| done].
  exact (apart_cells (x (posBox pp)) (y (posBox pp)) 40 160 100 100
           col1 row1 col2 row2 eq_refl eq_refl Hcells).
Qed.

(** X15. The modules that are not children of an expanded parent are laid out on
    a grid of cells 300 wide and 170 high: two different ones get corners
    at least 300 apart horizontally or 170 apart vertically, so that boxes
    of the base size 250 by 120 are at least 50 apart. *)
Theorem roots_placed_apart (v : Viewer) (modules : list ModuleNode)
    (ps1 ps2 : list Position) (m1 m2 : ModuleNode) (p1 p2 : Position) :
  m1 ∈ modules → m2 ∈ modules → path m1 ≠ path m2 →
  isChildOfExpandedParent v m1 = false → isChildOfExpandedParent v m2 = false →
  calculateInitialPosition v m1 modules ps1 = Some p1 →
  calculateInitialPosition v m2 modules ps2 = Some p2 →
  apart 300 170 (posBox p1) (posBox p2).
Proof.
  intros Hm1 Hm2 Hne Hr1 Hr2. unfold calculateInitialPosition. rewrite Hr1, Hr2.
  set (rootModules := filter _ modules).
  assert (m1 ∈ rootModules) as Hin1 by (by apply list_elem_of_filter).
  assert (m2 ∈ rootModules) as Hin2 by (by apply list_elem_of_filter).
  destruct (indexOf_distinct rootModules m1 m2 Hin1 Hin2 Hne) as (i1 & i2 & -> & -> & Hi).
  assert (0 < ceil_sqrt (length rootModules))%Z as Hcols.
  { apply ceil_sqrt_pos. destruct rootModules; [by apply elem_of_nil in Hin1 | simpl; lia]. }
  destruct (gridCell (Z.of_nat i1) _) as [[col1 row1] |] eqn:Hg1; [| done].
  destruct (gridCell (Z.of_nat i2) _) as [[col2 row2] |] eqn:Hg2; [| done].
  destruct (gridCell_injective _ _ _ _ _ _ _ Hi Hcols Hg1 Hg2) as [_ Hcells].
  match goal with
  | |- match ?s1 with Some _ => _ | None => _ end = _ →
       match ?s2 with Some _ => _ | None => _ end = _ → _ =>
      destruct s1 as [[w1 h1] |]; [| done]; destruct s2 as [[w2 h2] |]; [| done]
  end.
  intros Heq1 Heq2. injection Heq1 as <-. injection Heq2 as <-.
  pose proof (apart_cells 0 0 50 300 50 170 col1 row1 col2 row2 eq_refl eq_refl Hcells)
    as Hapart.
  unfold apart in *. simpl in *.
  rewrite !Qcplus_0_l in Hapart.
  replace (col1 * (250 + 50) + 50)%Z with (50 + col1 * 300)%Z by lia.
  replace (col2 * (250 + 50) + 50)%Z with (50 + col2 * 300)%Z by lia.
  replace (row1 * (120 + 50) + 50)%Z with (50 + row1 * 170)%Z by lia.
  replace (row2 * (120 + 50) + 50)%Z with (50 + row2 * 170)%Z by lia.
  exact Hapart.
Qed.

Lemma siblings_placed_apart_witness :
  ∃ p1 p2,
    calculateChildPosition hub_viewer hub_k1 [hub; hub_k1; hub_k2] [hub_position]
    = Some p1 ∧
    calculateChildPosition hub_viewer hub_k2 [hub; hub_k1; hub_k2] [hub_position; p1]
    = Some p2 ∧
    apart 160 100 (posBox p1) (posBox p2) ∧
    width (posBox p1) = dec 140 1 ∧ height (posBox p1) = dec 80 1 ∧
    width (posBox p2) = dec 140 1 ∧ height (posBox p2) = dec 80 1.
Proof.
  destruct (calculateChildPosition hub_viewer hub_k1 [hub; hub_k1; hub_k2]
              [hub_position]) as [p1 |] eqn:H1;
    [| vm_compute in H1; discriminate].
  destruct (calculateChildPosition hub_viewer hub_k2 [hub; hub_k1; hub_k2]
              [hub_position; p1]) as [p2 |] eqn:H2;
    [| vm_compute in H2; discriminate].
  exists p1, p2. split; [done |]. split; [done |].
  apply (siblings_placed_apart hub_viewer [hub; hub_k1; hub_k2]
           [hub_position] [hub_position; p1] hub hub_k1 hub_k2 p1 p2).
  - reflexivity.
  - reflexivity.
  - apply list_elem_of_here.
  - apply list_elem_of_here.
  - apply list_elem_of_further, list_elem_of_here.
  - apply list_elem_of_further, list_elem_of_here.
  - apply list_elem_of_further, list_elem_of_further, list_elem_of_here.
  - discriminate.
  - by exists [p1].
  - exact H1.
  - exact H2.
Defined.

Lemma roots_placed_apart_witness :
  ∃ p1 p2,
    calculateInitialPosition (viewer ∅ ∅) A roots [] = Some p1 ∧
    calculateInitialPosition (viewer ∅ ∅) C roots [p1] = Some p2 ∧
    apart 300 170 (posBox p1) (posBox p2).
Proof.
  destruct (calculateInitialPosition (viewer ∅ ∅) A roots []) as [p1 |] eqn:H1;
    [| vm_compute in H1; discriminate].
  destruct (calculateInitialPosition (viewer ∅ ∅) C roots [p1]) as [p2 |] eqn:H2;
    [| vm_compute in H2; discriminate].
  exists p1, p2. split; [done |]. split; [done |].
  apply (roots_placed_apart (viewer ∅ ∅) roots [] [p1] A C p1 p2).
  - apply list_elem_of_here.
  - apply list_elem_of_further, list_elem_of_here.
  - discriminate.
  - reflexivity.
  - reflexivity.
  - exact H1.
  - exact H2.
Defined.

End LayoutProperties.

(** ** What the handlers keep *)

Section HandlerProperties.
Import PCBSystemViewer Notions Samples.

Lemma moveChildren_dom (vis : list ModuleNode) (E : gset string) (dx dy : num)
    (m : ModuleNode) :
  ∀ boxes, dom (moveChildren vis E dx dy m boxes) =@{gset string} dom boxes.
Proof.
  induction m as [m IH] using ModuleNode_ind.
  destruct m as [n p pp cs l t c]; simpl in *. clear n p pp l t c.
  induction cs as [| c cs IHcs]; intros boxes; simpl; [done |].
  apply Forall_cons in IH as [IHc IH]. rewrite (IHcs IH).
  destruct (includes vis c); [| done].
  destruct (boxes !! path c) as [b |] eqn:Hb; [| done].
  destruct (decide (path c ∈ E)).
  - rewrite IHc. apply dom_insert_lookup_L. by eexists.
  - apply dom_insert_lookup_L. by eexists.
Qed.

Lemma updateModulePosition_dom (v : Viewer) (doc : Document) (m : ModuleNode)
    (wx wy : num) :
  dom (modulePositions (updateModulePosition v doc m wx wy))
  =@{gset string} {[path m]} ∪ dom (modulePositions v).
Proof.
  unfold updateModulePosition. cbv zeta.
  destruct (_ && _); simpl.
  - unfold moveAllDescendants. simpl. rewrite moveChildren_dom. apply dom_insert_L.
  - apply dom_insert_L.
Qed.

Lemma recalculateParentBounds_dom (v : Viewer) (doc : Document) (parent : ModuleNode) :
  dom (modulePositions v)
  ⊆@{gset string} dom (modulePositions (recalculateParentBounds v doc parent)).
Proof.
  unfold recalculateParentBounds. cbv zeta.
  destruct (doc !! path parent); [| done].
  destruct (filter _ (children parent)).
  - simpl. rewrite dom_insert_L. set_solver.
  - destruct (boundsOf _ _) as [[[[minX minY] maxX] maxY] |]; [| done].
    simpl. rewrite dom_insert_L. set_solver.
Qed.

Lemma updateParentContainer_loop_grows (doc : Document) (fuel : nat) :
  ∀ v cur,
    same_tree v (updateParentContainer_loop fuel v doc cur) ∧
    dom (modulePositions v)
    ⊆@{gset string} dom (modulePositions (updateParentContainer_loop fuel v doc cur)).
Proof.
  induction fuel as [| fuel IH]; intros v cur; simpl; [done |].
  destruct (bool_decide (parentPath cur ≠ "")); [| done].
  destruct (allModules v !! parentPath cur) as [parent |] eqn:Hparent; [| done].
  destruct (bool_decide (path parent ∈ expandedModules v)); [| done].
  destruct (IH (recalculateParentBounds v doc parent) parent) as [Hsame Hdom].
  destruct (recalculateParentBounds_frame v doc parent) as [Hsame1 _].
  split; [by eapply same_tree_trans |].
  etrans; [apply (recalculateParentBounds_dom v doc parent) | exact Hdom].
Qed.

Lemma layout_ok_grows (v v' : Viewer) :
  expandedModules v' = expandedModules v → rootModules v' = rootModules v →
  dom (modulePositions v) ⊆@{gset string} dom (modulePositions v') →
  layout_ok v → layout_ok v'.
Proof.
  intros HE HR Hdom Hok u Hu. unfold getVisibleModules in Hu.
  rewrite HE, HR in Hu. apply elem_of_dom, Hdom, elem_of_dom. by apply Hok.
Qed.

Lemma updateModuleDrag_grows (v : Viewer) (doc : Document) (e : MouseEvent) :
  same_tree v (updateModuleDrag v doc e) ∧
  dom (modulePositions v)
  ⊆@{gset string} dom (modulePositions (updateModuleDrag v doc e)).
Proof.
  unfold updateModuleDrag.
  destruct (draggedModule (dragState v)) as [m |]; [| done].
  destruct (isDragging (dragState v)); [| done]. cbv zeta.
  set (v1 := updateModulePosition v doc m _ _).
  destruct (updateParentContainer_loop_grows doc (S (level m)) v1 m) as [Hsame Hdom].
  split.
  - eapply same_tree_trans; [apply updateModulePosition_same_tree | exact Hsame].
  - etrans; [| exact Hdom]. subst v1. rewrite updateModulePosition_dom. set_solver.
Qed.

Lemma endModuleDrag_ok (v : Viewer) :
  viewer_ok v → viewer_ok (endModuleDrag v) ∧
  modulePositions (endModuleDrag v) = modulePositions v.
Proof.
  intros (Hwf & Hlay & _ & _ & Hexp). split; [| done].
  split; [done |]. split; [done |]. split; [| split; [done | done]].
  simpl. unfold drag_ok. simpl. split; [done | by intros [? ?]].
Qed.

Lemma same_tree_ok (v v' : Viewer) :
  same_tree v v' →
  dom (modulePositions v) ⊆@{gset string} dom (modulePositions v') →
  viewer_ok v → viewer_ok v'.
Proof.
  intros Hsame Hdom (Hwf & Hlay & Hdrag & Hheld & Hexp).
  pose proof Hsame as (Ha & HE & HR & HD & HC).
  split; [by apply (same_tree_wf v) |].
  split; [by apply (layout_ok_grows v) |].
  rewrite HD, HR, HE. done.
Qed.

Lemma cancelDrag_ok (v : Viewer) (doc : Document) :
  viewer_ok v →
  viewer_ok (cancelDrag v doc) ∧ allModules (cancelDrag v doc) = allModules v ∧
  rootModules (cancelDrag v doc) = rootModules v ∧
  expandedModules (cancelDrag v doc) = expandedModules v ∧
  camera (cancelDrag v doc) = camera v.
Proof.
  intros Hok. unfold cancelDrag.
  set (v1 := match isDragging (dragState v) with true => _ | false => _ end).
  assert (same_tree v v1 ∧
          dom (modulePositions v) ⊆@{gset string} dom (modulePositions v1))
    as [Hsame Hdom].
  { subst v1. destruct (isDragging (dragState v)); [| done].
    destruct (draggedModule (dragState v)) as [m |]; [| done].
    destruct (modulePositions v !! path m) as [b |]; [| done].
    split; [apply updateModulePosition_same_tree |].
    rewrite updateModulePosition_dom. set_solver. }
  destruct (endModuleDrag_ok v1 (same_tree_ok v v1 Hsame Hdom Hok)) as [Hok1 _].
  destruct Hsame as (Ha & HE & HR & _ & HC). done.
Qed.

Lemma toggleModuleExpansion_viewer_spec (v : Viewer) (doc : Document) (m : ModuleNode) :
  wf_tree v → m ∈ all_nodes (rootModules v) →
  ∃ v', toggleModuleExpansion_viewer v doc m = Some v' ∧
        allModules v' = allModules v ∧ rootModules v' = rootModules v ∧
        dragState v' = dragState v ∧ camera v' = camera v ∧
        expandedModules v' = toggleModuleExpansion m (expandedModules v) ∧
        (layout_ok v ∨ children m ≠ [] → layout_ok v') ∧
        (∀ q b, q ≠ path m →
                (∀ a, a ∈ all_nodes (rootModules v) → m ∈ descendants a → path a ≠ q) →
                modulePositions v !! q = Some b → modulePositions v' !! q = Some b).
Proof.
  intros Hwf Hm. unfold toggleModuleExpansion_viewer, toggleModuleExpansion.
  destruct (children m) as [| c cs] eqn:Hcs.
  { exists v. repeat (split; [done |]). split; [| done]. by intros [? | ?]. }
  set (E' := if decide (path m ∈ expandedModules v) then _ else _).
  set (v1 := set_expandedModules v E').
  assert (wf_tree v1) as Hwf1 by done.
  destruct (renderSystem_spec v1 Hwf1) as (v2 & -> & Hsame2 & Hlay2 & Hkeep2 & _).
  set (v3 := recalculateParentBounds v2 doc m).
  destruct (recalculateParentBounds_frame v2 doc m) as [Hsame3 Hframe3]. fold v3 in Hsame3, Hframe3.
  pose proof (recalculateParentBounds_dom v2 doc m) as Hdom3. fold v3 in Hdom3.
  pose proof (same_tree_wf _ _ Hsame2 Hwf1) as Hwf2.
  pose proof (same_tree_wf _ _ Hsame3 Hwf2) as Hwf3.
  assert (rootModules v3 = rootModules v) as HR3.
  { destruct Hsame2 as (_ & _ & HR2 & _), Hsame3 as (_ & _ & HR3 & _).
    by rewrite HR3, HR2. }
  assert (m ∈ all_nodes (rootModules v3)) as Hm3 by (by rewrite HR3).
  destruct (updateParentContainer_loop_grows doc (S (level m)) v3 m) as [Hsame4 Hdom4].
  destruct (updateParentContainer_loop_frame doc (S (level m)) v3 m Hwf3 Hm3)
    as [_ Hframe4].
  fold (updateParentContainer v3 doc m) in Hsame4, Hdom4, Hframe4.
  set (v4 := updateParentContainer v3 doc m) in *.
  pose proof (same_tree_trans _ _ _ Hsame2 (same_tree_trans _ _ _ Hsame3 Hsame4))
    as (Ha & HE & HR & HD & HC).
  exists v4. split; [done |]. repeat (split; [done |]). split.
  - intros _. apply (layout_ok_grows v2).
    + destruct Hsame3 as (_ & HE3 & _), Hsame4 as (_ & HE4 & _).
      by rewrite HE4, HE3.
    + destruct Hsame3 as (_ & _ & HR3' & _), Hsame4 as (_ & _ & HR4 & _).
      by rewrite HR4, HR3'.
    + by etrans.
    + done.
  - intros q b Hq Hanc Hb. rewrite Hframe4.
    + rewrite Hframe3 by done. by apply Hkeep2.
    + rewrite HR3. exact Hanc.
Qed.



Lemma handle_step (v : Viewer) (ev : ViewerEvent) :
  viewer_ok v → about_tree (rootModules v) ev →
  (∃ v', handle v ev = Some v' ∧ viewer_ok v' ∧ allModules v' = allModules v ∧
         rootModules v' = rootModules v ∧ camera v' = camera v) ∨
  (handle v ev = None ∧
   ∃ doc module mouseEvent,
     ev = ModuleMouseDown doc module 2 mouseEvent ∧ doc !! path module = None).
Proof.
  intros Hok Hev. pose proof Hok as (Hwf & Hlay & Hdrag & Hheld & Hexp).
  destruct ev as [doc m button e | doc e | button | | doc]; simpl in *.
  - unfold handleModuleMouseDown.
    destruct (decide (button = 0%Z)) as [_ | _].
    { left. destruct (toggleModuleExpansion_viewer_spec v doc m Hwf Hev)
        as (v' & -> & Ha & HR & HD & HC & HE & Hlay' & _).
      exists v'. split; [done |]. split; [| done].
      split; [unfold wf_tree; by rewrite Ha, HR |].
      split; [apply Hlay'; by left |]. rewrite HD, HR, HE.
      split; [done |]. split; [done |]. by apply toggle_expansion_ok. }
    destruct (decide (button = 2%Z)) as [-> | _].
    2:{ left. by exists v. }
    unfold startModuleDrag. destruct (doc !! path m) as [el |] eqn:Hel.
    2:{ right. split; [done |]. by exists doc, m, e. }
    left. eexists. split; [done |]. split; [| done].
    split; [done |]. split; [done |]. simpl.
    split; [| split; [| done]].
    + unfold drag_ok. simpl. split; [by eexists | done].
    + intros m' Hm'. by injection Hm' as <-.
  - left. eexists. split; [done |]. unfold handleCanvasMouseMove.
    destruct (isDragging (dragState v)); [| done].
    destruct (updateModuleDrag_grows v doc e) as [Hsame Hdom].
    split; [by apply (same_tree_ok v) |].
    by destruct Hsame as (? & _ & ? & _ & ?).
  - left. eexists. split; [done |]. unfold handleCanvasMouseUp.
    destruct (_ && _); [| done].
    split; [by apply endModuleDrag_ok | done].
  - left. eexists. split; [done |]. unfold handleCanvasMouseLeave.
    destruct (isDragging (dragState v)); [| done].
    split; [by apply endModuleDrag_ok | done].
  - left. eexists. split; [done |]. unfold handleEscape.
    destruct (isDragging (dragState v)); [| done].
    destruct (cancelDrag_ok v doc Hok) as (? & ? & ? & _ & ?). done.
Qed.


Lemma collapsed_ok : viewer_ok collapsed.
Proof.
  split; [apply viewer_wf |]. split; [| split; [| split]].
  - intros u Hu. change (getVisibleModules collapsed) with [A; C] in Hu.
    apply elem_of_cons in Hu as [-> | Hu]; [by eexists |].
    apply list_elem_of_singleton in Hu as ->. by eexists.
  - split; [done | by intros [? ?]].
  - done.
  - intros q Hq. by apply not_elem_of_empty in Hq.
Qed.



(** X18. The only handler that can raise is a right-button press on a module
    that has no element in the document. *)
Theorem handlers_raise_only_without_element (events : list ViewerEvent) :
  ∀ v, viewer_ok v → Forall (about_tree (rootModules v)) events →
    handle_all v events = None →
    ∃ doc module mouseEvent,
      ModuleMouseDown doc module 2 mouseEvent ∈ events ∧ doc !! path module = None.
Proof.
  induction events as [| ev events IH]; intros v Hok Hevs Hrun; simpl in Hrun;
    [done |].
  apply Forall_cons in Hevs as [Hev Hevs].
  destruct (handle_step v ev Hok Hev)
    as [(v1 & Hv1 & Hok1 & Ha & HR & HC) | [_ (doc & m & e & -> & Hel)]].
  - rewrite Hv1 in Hrun. rewrite <- HR in Hevs.
    destruct (IH v1 Hok1 Hevs Hrun) as (doc & m & e & Hin & Hel).
    exists doc, m, e. split; [by apply list_elem_of_further | done].
  - exists doc, m, e. split; [apply list_elem_of_here | done].
Qed.

Lemma handlers_raise_only_without_element_witness :
  ∃ doc module mouseEvent,
    ModuleMouseDown doc module 2 mouseEvent ∈ blind_press ∧
    doc !! path module = None.
Proof.
  apply (handlers_raise_only_without_element blind_press collapsed).
  - exact collapsed_ok.
  - constructor; [| constructor]. vm_compute. repeat constructor.
  - reflexivity.
Defined.

End HandlerProperties.

(** ** Dragging with the pointer *)

Section DragProperties.
Import PCBSystemViewer Notions Samples.

Lemma moveChildren_frame (vis : list ModuleNode) (E : gset string) (dx dy : num)
    (m : ModuleNode) (q : string) :
  (∀ d, d ∈ descendants m → path d ≠ q) →
  ∀ boxes, moveChildren vis E dx dy m boxes !! q = boxes !! q.
Proof.
  induction m as [m IH] using ModuleNode_ind.
  destruct m as [n p pp cs l t c]; simpl in *. clear n p pp l t c.
  induction cs as [| c cs IHcs]; intros Hq boxes; simpl; [done |].
  apply Forall_cons in IH as [IHc IH]. rewrite (IHcs IH).
  2:{ intros d Hd. apply Hq. simpl. apply list_elem_of_further, elem_of_app. by right. }
  assert (path c ≠ q) as Hc by (apply Hq; simpl; apply list_elem_of_here).
  destruct (includes vis c); [| done].
  destruct (boxes !! path c) as [b |] eqn:Hb; [| done].
  destruct (decide (path c ∈ E)).
  - rewrite IHc; [by rewrite lookup_insert_ne |].
    intros d Hd. apply Hq. simpl. apply list_elem_of_further, elem_of_app. by left.
  - by rewrite lookup_insert_ne.
Qed.

(** The box [updateModulePosition] stores for the module itself. *)
Lemma updateModulePosition_own (v : Viewer) (doc : Document) (m : ModuleNode)
    (wx wy : num) :
  (∀ d, d ∈ descendants m → path d ≠ path m) →
  modulePositions (updateModulePosition v doc m wx wy) !! path m
  = Some (mkBox wx wy
            (match doc !! path m with Some el => offsetWidth el | None => dec 250 1 end)
            (match doc !! path m with Some el => offsetHeight el | None => dec 120 1 end)).
Proof.
  intros Hbelow. unfold updateModulePosition. cbv zeta.
  destruct (_ && _); simpl.
  - unfold moveAllDescendants. simpl. rewrite moveChildren_frame by done.
    by rewrite lookup_insert_eq.
  - by rewrite lookup_insert_eq.
Qed.

Lemma updateModuleDrag_own (v : Viewer) (doc : Document) (m : ModuleNode)
    (e : MouseEvent) :
  wf_tree v → m ∈ all_nodes (rootModules v) →
  isDragging (dragState v) = true → draggedModule (dragState v) = Some m →
  modulePositions (updateModuleDrag v doc e) !! path m
  = Some (mkBox (CanvasManager.px (dragTarget v e)) (CanvasManager.py (dragTarget v e))
            (match doc !! path m with Some el => offsetWidth el | None => dec 250 1 end)
            (match doc !! path m with Some el => offsetHeight el | None => dec 120 1 end)).
Proof.
  intros Hwf Hm Hdrag Hheld. pose proof Hwf as [Hforest _].
  rewrite (updateModuleDrag_steps v doc m e Hdrag Hheld).
  set (v1 := updateModulePosition v doc m _ _).
  pose proof (updateModulePosition_same_tree v doc m
                (CanvasManager.px (dragTarget v e)) (CanvasManager.py (dragTarget v e)))
    as Hsame. fold v1 in Hsame.
  pose proof (same_tree_wf _ _ Hsame Hwf) as Hwf1.
  assert (rootModules v1 = rootModules v) as HR by (by destruct Hsame as (_ & _ & ? & _)).
  destruct (updateParentContainer_loop_frame doc (S (level m)) v1 m Hwf1) as [_ Hframe];
    [by rewrite HR |].
  unfold updateParentContainer. rewrite Hframe.
  - subst v1. apply updateModulePosition_own.
    intros d Hd. by apply (path_not_below (rootModules v)).
  - intros a Ha Hma Heq. rewrite HR in Ha.
    by apply (path_not_below (rootModules v) a m Hforest Ha Hma).
Qed.

(** X19. Dragging follows the pointer.  A right-button press at [e0] on a
    module whose element is [el], followed by a pointer move to [e] with
    the container where it was, stores the module at the world position of
    the element's corner displaced by the pointer's displacement, less
    twice the container's offset.  When the element is drawn where the
    module's stored box [b] says, this is [b] displaced by the pointer's
    displacement less the container's offset, divided by the zoom: with
    the container at the origin of the viewport the module moves exactly
    as the pointer does. *)
Theorem drag_follows_pointer (v : Viewer) (doc doc' : Document) (m : ModuleNode)
    (el : Element) (e0 e : MouseEvent) :
  wf_tree v → m ∈ all_nodes (rootModules v) →
  doc !! path m = Some el →
  containerLeft e = containerLeft e0 → containerTop e = containerTop e0 →
  ∃ v1, startModuleDrag v doc m e0 = Some v1 ∧
    let v2 := handleCanvasMouseMove v1 doc' e in
    let cam := camera v in
    let X := ((rectLeft el + (clientX e - clientX e0)
               - containerLeft e0 - containerLeft e0
               - CanvasManager.x cam) / CanvasManager.zoom cam)%Qc in
    let Y := ((rectTop el + (clientY e - clientY e0)
               - containerTop e0 - containerTop e0
               - CanvasManager.y cam) / CanvasManager.zoom cam)%Qc in
    (∃ w h, modulePositions v2 !! path m = Some (mkBox X Y w h)) ∧
    (∀ b, (CanvasManager.minZoom ≤ CanvasManager.zoom cam)%Qc →
          rectLeft el
          = (containerLeft e0
             + CanvasManager.px (CanvasManager.worldToScreen cam (x b) (y b)))%Qc →
          rectTop el
          = (containerTop e0
             + CanvasManager.py (CanvasManager.worldToScreen cam (x b) (y b)))%Qc →
          X = (x b + (clientX e - clientX e0 - containerLeft e0)
                     / CanvasManager.zoom cam)%Qc ∧
          Y = (y b + (clientY e - clientY e0 - containerTop e0)
                     / CanvasManager.zoom cam)%Qc).
Proof.
  intros Hwf Hm Hel HcL HcT. unfold startModuleDrag. rewrite Hel.
  eexists. split; [done |]. cbv zeta. split.
  - unfold handleCanvasMouseMove. simpl.
    rewrite (updateModuleDrag_own _ doc' m e); [| done | done | done | done].
    eexists _, _. unfold dragTarget. simpl. rewrite HcL, HcT.
    match goal with
    | |- Some (mkBox (?a / _)%Qc (?b / _)%Qc _ _) = Some (mkBox (?a' / _)%Qc (?b' / _)%Qc _ _) =>
        replace a with a' by ring; replace b with b' by ring
    end.
    reflexivity.
  - intros b Hzoom HL HT. pose proof (valid_zoom_nonzero _ Hzoom) as Hz.
    rewrite HL, HT. simpl. split; field; exact Hz.
Qed.

Lemma drag_follows_pointer_witness :
  ∃ v1, startModuleDrag collapsed document A press = Some v1 ∧
    let v2 := handleCanvasMouseMove v1 document move in
    let cam := camera collapsed in
    let X := ((rectLeft (mkElement (dec 250 1) (dec 120 1) (dec 50 1) (dec 50 1))
               + (clientX move - clientX press)
               - containerLeft press - containerLeft press
               - CanvasManager.x cam) / CanvasManager.zoom cam)%Qc in
    let Y := ((rectTop (mkElement (dec 250 1) (dec 120 1) (dec 50 1) (dec 50 1))
               + (clientY move - clientY press)
               - containerTop press - containerTop press
               - CanvasManager.y cam) / CanvasManager.zoom cam)%Qc in
    (∃ w h, modulePositions v2 !! path A = Some (mkBox X Y w h)) ∧
    (∀ b, (CanvasManager.minZoom ≤ CanvasManager.zoom cam)%Qc →
          rectLeft (mkElement (dec 250 1) (dec 120 1) (dec 50 1) (dec 50 1))
          = (containerLeft press
             + CanvasManager.px (CanvasManager.worldToScreen cam (x b) (y b)))%Qc →
          rectTop (mkElement (dec 250 1) (dec 120 1) (dec 50 1) (dec 50 1))
          = (containerTop press
             + CanvasManager.py (CanvasManager.worldToScreen cam (x b) (y b)))%Qc →
          X = (x b + (clientX move - clientX press - containerLeft press)
                     / CanvasManager.zoom cam)%Qc ∧
          Y = (y b + (clientY move - clientY press - containerTop press)
                     / CanvasManager.zoom cam)%Qc).
Proof.
  apply (drag_follows_pointer collapsed document document A
           (mkElement (dec 250 1) (dec 120 1) (dec 50 1) (dec 50 1)) press move).
  - apply viewer_wf.
  - vm_compute. repeat constructor.
  - reflexivity.
  - reflexivity.
  - reflexivity.
Defined.

(** *** Re-bounding a container *)

Lemma Math_min_spec (a b : num) :
  (Math_min a b ≤ a)%Qc ∧ (Math_min a b ≤ b)%Qc ∧ (Math_min a b = a ∨ Math_min a b = b).
Proof.
  unfold Math_min. destruct (decide (a ≤ b)%Qc) as [Hle | Hnle].
  - split; [apply Qcle_refl |]. split; [done | by left].
  - split; [by apply Qclt_le_weak, Qcnot_le_lt |]. split; [apply Qcle_refl | by right].
Qed.

Lemma Math_max_spec (a b : num) :
  (a ≤ Math_max a b)%Qc ∧ (b ≤ Math_max a b)%Qc ∧ (Math_max a b = a ∨ Math_max a b = b).
Proof.
  unfold Math_max. destruct (decide (a ≤ b)%Qc) as [Hle | Hnle].
  - split; [done |]. split; [apply Qcle_refl | by right].
  - split; [apply Qcle_refl |]. split; [by apply Qclt_le_weak, Qcnot_le_lt | by left].
Qed.

Lemma boundsOf_snoc (positions : gmap string Box) (cs : list ModuleNode)
    (c : ModuleNode) :
  boundsOf positions (cs ++ [c])
  = match positions !! path c with
    | Some pos =>
        Some match boundsOf positions cs with
             | None => (x pos, y pos, (x pos + width pos)%Qc, (y pos + height pos)%Qc)
             | Some (minX, minY, maxX, maxY) =>
                 (Math_min minX (x pos), Math_min minY (y pos),
                  Math_max maxX (x pos + width pos)%Qc,
                  Math_max maxY (y pos + height pos)%Qc)
             end
    | None => boundsOf positions cs
    end.
Proof. unfold boundsOf. by rewrite fold_left_app. Qed.

Lemma boxesOf_snoc (positions : gmap string Box) (cs : list ModuleNode)
    (c : ModuleNode) :
  boxesOf positions (cs ++ [c])
  = boxesOf positions cs ++ match positions !! path c with
                            | Some pos => [pos]
                            | None => []
                            end.
Proof.
  unfold boxesOf. rewrite omap_app. simpl. by destruct (positions !! path c).
Qed.

(** [boundsOf] computes the bounding box of the stored boxes, and nothing
    when there is none. *)
Lemma boundsOf_bounding (positions : gmap string Box) (cs : list ModuleNode) :
  match boundsOf positions cs with
  | Some r => bounding (boxesOf positions cs) r
  | None => boxesOf positions cs = []
  end.
Proof.
  induction cs as [| c cs IH] using rev_ind; [done |].
  rewrite boundsOf_snoc, boxesOf_snoc.
  destruct (positions !! path c) as [pos |]; [| by rewrite app_nil_r].
  destruct (boundsOf positions cs) as [[[[minX minY] maxX] maxY] |].
  - destruct IH as (Hall & (b1 & Hb1 & H1) & (b2 & Hb2 & H2) & (b3 & Hb3 & H3)
                    & (b4 & Hb4 & H4)).
    destruct (Math_min_spec minX (x pos)) as (Hx1 & Hx2 & Hx3).
    destruct (Math_min_spec minY (y pos)) as (Hy1 & Hy2 & Hy3).
    destruct (Math_max_spec maxX (x pos + width pos)%Qc) as (Hw1 & Hw2 & Hw3).
    destruct (Math_max_spec maxY (y pos + height pos)%Qc) as (Hh1 & Hh2 & Hh3).
    split; [| split; [| split; [| split]]].
    + intros b [Hb | Hb]%elem_of_app.
      * destruct (Hall b Hb) as (Ha & Hb' & Hc & Hd).
        split; [exact (Qcle_trans _ _ _ Hx1 Ha) |].
        split; [exact (Qcle_trans _ _ _ Hy1 Hb') |].
        split; [exact (Qcle_trans _ _ _ Hc Hw1) | exact (Qcle_trans _ _ _ Hd Hh1)].
      * apply list_elem_of_singleton in Hb as ->. done.
    + destruct Hx3 as [-> | ->].
      * exists b1. split; [apply elem_of_app; by left | done].
      * exists pos. split; [apply elem_of_app; right; apply list_elem_of_here | done].
    + destruct Hy3 as [-> | ->].
      * exists b2. split; [apply elem_of_app; by left | done].
      * exists pos. split; [apply elem_of_app; right; apply list_elem_of_here | done].
    + destruct Hw3 as [-> | ->].
      * exists b3. split; [apply elem_of_app; by left | done].
      * exists pos. split; [apply elem_of_app; right; apply list_elem_of_here | done].
    + destruct Hh3 as [-> | ->].
      * exists b4. split; [apply elem_of_app; by left | done].
      * exists pos. split; [apply elem_of_app; right; apply list_elem_of_here | done].
  - rewrite IH. simpl.
    assert (pos ∈ [pos]) as Hpos by apply list_elem_of_here.
    split; [| split; [| split; [| split]]]; [| by exists pos ..].
    intros b Hb. apply list_elem_of_singleton in Hb as ->.
    split; [apply Qcle_refl |]. split; [apply Qcle_refl |].
    split; apply Qcle_refl.
Qed.

Lemma boxesOf_insert_ne (positions : gmap string Box) (k : string) (b : Box)
    (l : list ModuleNode) :
  (∀ c, c ∈ l → path c ≠ k) →
  boxesOf (<[k := b]> positions) l = boxesOf positions l.
Proof.
  intros Hne. induction l as [| c l IH]; [done |].
  assert (boxesOf (<[k := b]> positions) l = boxesOf positions l) as IH'.
  { apply IH. intros c' Hc'. by apply Hne, list_elem_of_further. }
  unfold boxesOf in *. cbn [omap list_omap].
  rewrite lookup_insert_ne by (intros Heq; apply (Hne c); [apply list_elem_of_here | done]).
  fold (omap (M := list) (λ m, <[k := b]> positions !! path m) l).
  fold (omap (M := list) (λ m, positions !! path m) l).
  by rewrite IH'.
Qed.

(** X20. Re-bounding a container whose element is in the document and which has
    a visible child with a stored box: the container's new box encloses
    the stored box of every visible child with a margin of 40, and 60 more
    at the top for the title; each margin is exact for some child; no other
    box changes. *)
Theorem recalculateParentBounds_encloses (v : Viewer) (doc : Document)
    (parent : ModuleNode) :
  is_Some (doc !! path parent) →
  (∀ c, c ∈ children parent → path c ≠ path parent) →
  let visibleChildren := filter (λ c, includes (getVisibleModules v) c = true)
                                (children parent) in
  let v' := recalculateParentBounds v doc parent in
  boxesOf (modulePositions v) visibleChildren ≠ [] →
  ∃ pb, modulePositions v' !! path parent = Some pb ∧
        (∀ b, b ∈ boxesOf (modulePositions v) visibleChildren → encloses pb b) ∧
        hugs pb (boxesOf (modulePositions v) visibleChildren) ∧
        boxesOf (modulePositions v') visibleChildren
        = boxesOf (modulePositions v) visibleChildren ∧
        (∀ q, q ≠ path parent → modulePositions v' !! q = modulePositions v !! q).
Proof.
  intros [el Hel] Hne. cbv zeta. intros Hboxes.
  destruct (recalculateParentBounds_frame v doc parent) as [_ Hframe].
  unfold recalculateParentBounds in *. cbv zeta in *. rewrite Hel in *.
  set (vis := filter _ (children parent)) in *.
  pose proof (boundsOf_bounding (modulePositions v) vis) as Hbound.
  assert (∀ c, c ∈ vis → path c ≠ path parent) as Hne'.
  { intros c [_ Hc]%list_elem_of_filter. by apply Hne. }
  destruct vis as [| c0 vis0] eqn:Hvis; [done |]. rewrite <- Hvis in *.
  destruct (boundsOf (modulePositions v) vis) as [[[[minX minY] maxX] maxY] |];
    [| done].
  destruct Hbound as (Hall & (b1 & Hb1 & H1) & (b2 & Hb2 & H2) & (b3 & Hb3 & H3)
                      & (b4 & Hb4 & H4)).
  simpl in *. eexists. split; [by rewrite lookup_insert_eq |].
  split; [| split; [| split; [| done]]].
  - intros b Hb. destruct (Hall b Hb) as (Ha & Hb' & Hc & Hd).
    unfold encloses. simpl.
    replace (minX - dec 40 1 + dec 40 1)%Qc with minX by ring.
    replace (minY - dec 60 1 - dec 40 1 + dec 60 1 + dec 40 1)%Qc with minY by ring.
    replace (minX - dec 40 1 + (maxX - minX + dec 40 1 * 2))%Qc
      with (maxX + dec 40 1)%Qc by ring.
    replace (minY - dec 60 1 - dec 40 1 + (maxY - minY + dec 60 1 + dec 40 1 * 2))%Qc
      with (maxY + dec 40 1)%Qc by ring.
    split; [done |]. split; [done |].
    split; (apply Qcplus_le_compat; [done | apply Qcle_refl]).
  - unfold hugs. simpl.
    replace (minX - dec 40 1 + dec 40 1)%Qc with minX by ring.
    replace (minY - dec 60 1 - dec 40 1 + dec 60 1 + dec 40 1)%Qc with minY by ring.
    replace (minX - dec 40 1 + (maxX - minX + dec 40 1 * 2))%Qc
      with (maxX + dec 40 1)%Qc by ring.
    replace (minY - dec 60 1 - dec 40 1 + (maxY - minY + dec 60 1 + dec 40 1 * 2))%Qc
      with (maxY + dec 40 1)%Qc by ring.
    split; [by exists b1 |]. split; [by exists b2 |].
    split; [exists b3 | exists b4]; (split; [done |]); congruence.
  - by apply boxesOf_insert_ne.
Qed.

Lemma recalculateParentBounds_encloses_witness :
  ∃ pb, modulePositions (recalculateParentBounds opened document_open A) !! path A
        = Some pb ∧
        (∀ b, b ∈ boxesOf (modulePositions opened)
                    (filter (λ c, includes (getVisibleModules opened) c = true)
                            (children A)) →
              encloses pb b) ∧
        hugs pb (boxesOf (modulePositions opened)
                   (filter (λ c, includes (getVisibleModules opened) c = true)
                           (children A))) ∧
        boxesOf (modulePositions (recalculateParentBounds opened document_open A))
          (filter (λ c, includes (getVisibleModules opened) c = true) (children A))
        = boxesOf (modulePositions opened)
            (filter (λ c, includes (getVisibleModules opened) c = true) (children A)) ∧
        (∀ q, q ≠ path A →
              modulePositions (recalculateParentBounds opened document_open A) !! q
              = modulePositions opened !! q).
Proof.
  apply (recalculateParentBounds_encloses opened document_open A).
  - by eexists.
  - intros c Hc. apply list_elem_of_singleton in Hc as ->. discriminate.
  - vm_compute. discriminate.
Defined.

(** X21. The loop of [updateParentContainer] ends: in a well-formed tree it has
    nothing left to do after one turn per level above the moved module, so
    any larger number of turns gives the same state. *)
Theorem updateParentContainer_terminates (v : Viewer) (doc : Document)
    (m : ModuleNode) (turns : nat) :
  wf_tree v → m ∈ all_nodes (rootModules v) → (S (level m) ≤ turns)%nat →
  updateParentContainer_loop turns v doc m = updateParentContainer v doc m.
Proof.
  intros Hwf Hm Hturns. unfold updateParentContainer.
  apply (updateParentContainer_loop_fuel doc (S (level m))); [done | done | lia | done].
Qed.

Lemma updateParentContainer_terminates_witness :
  updateParentContainer_loop 10 dragging_B document_open B
  = updateParentContainer dragging_B document_open B.
Proof.
  apply (updateParentContainer_terminates dragging_B document_open B 10).
  - exact dragging_B_wf.
  - vm_compute. repeat constructor.
  - simpl. lia.
Defined.

End DragProperties.

(** ** Connections between visible modules *)

Section ConnectionProperties.
Import PCBSystemViewer Notions Samples.

Lemma append_cons (c : ascii) (s1 s2 : string) :
  (String c s1 ++ s2)%string = String c (s1 ++ s2)%string.
Proof. reflexivity. Qed.

Lemma append_nil_r (s : string) : (s ++ "")%string = s.
Proof. induction s as [| c s IH]; [done |]. by rewrite append_cons, IH. Qed.

Lemma append_assoc (s1 s2 s3 : string) :
  ((s1 ++ s2) ++ s3)%string = (s1 ++ (s2 ++ s3))%string.
Proof. induction s1 as [| c s1 IH]; [done |]. by rewrite !append_cons, IH. Qed.

Lemma has_slash_app (s1 s2 : string) :
  has_slash (s1 ++ s2)%string = has_slash s1 || has_slash s2.
Proof.
  induction s1 as [| c s1 IH]; [done |]. rewrite append_cons. simpl.
  by rewrite IH, orb_assoc.
Qed.

Lemma lastSegment_from_spec (s : string) :
  ∀ acc, has_slash acc = false →
    has_slash (lastSegment_from acc s) = false ∧
    ((has_slash s = false ∧ lastSegment_from acc s = (acc ++ s)%string) ∨
     ∃ p, s = (p ++ "/" ++ lastSegment_from acc s)%string).
Proof.
  induction s as [| c s IH]; intros acc Hacc; simpl.
  - split; [done |]. left. split; [done | by rewrite append_nil_r].
  - destruct (Ascii.eqb c "/"%char) eqn:Hc.
    + apply Ascii.eqb_eq in Hc as ->.
      destruct (IH "" eq_refl) as [Hno [[Hs Heq] | [p Hp]]].
      * split; [done |]. right. exists "". by rewrite Heq.
      * split; [done |]. right. exists (String "/" p). by rewrite append_cons, <- Hp.
    + destruct (IH (acc ++ String c "")%string) as [Hno [[Hs Heq] | [p Hp]]].
      * rewrite has_slash_app, Hacc. simpl. by rewrite Hc.
      * split; [done |]. left. split; [done |]. by rewrite Heq, append_assoc.
      * split; [done |]. right. exists (String c p). by rewrite append_cons, <- Hp.
Qed.

(** X23. The name a target is looked up by, [targetPath.split('/').pop()], is
    the part of the target after its last [/]: it holds no [/], and it is
    the whole target when the target holds none. *)
Theorem lastSegment_after_last_slash (s : string) :
  has_slash (lastSegment s) = false ∧
  ((has_slash s = false ∧ lastSegment s = s) ∨
   ∃ p, s = (p ++ "/" ++ lastSegment s)%string).
Proof. apply (lastSegment_from_spec s "" eq_refl). Qed.

Lemma has_arrow_tail (c : ascii) (s : string) :
  has_arrow (String c s) = false → has_arrow s = false.
Proof. simpl. by intros [_ ?]%orb_false_elim. Qed.

Lemma arrow_split_head (p t1 t2 : string) :
  has_arrow p = false → ("->" ++ t1)%string = (p ++ "->" ++ t2)%string →
  p = "" ∧ t1 = t2.
Proof.
  intros Hp Heq. destruct p as [| c p].
  - split; [done |]. simpl in Heq. by simplify_eq.
  - exfalso. rewrite append_cons in Heq. injection Heq as <- Heq.
    destruct p as [| d p].
    + simpl in Heq. by simplify_eq.
    + rewrite append_cons in Heq. injection Heq as <- Heq. by simpl in Hp.
Qed.

Lemma arrow_split_unique (p1 : string) :
  ∀ p2 t1 t2, has_arrow p1 = false → has_arrow p2 = false →
    (p1 ++ "->" ++ t1)%string = (p2 ++ "->" ++ t2)%string →
    p1 = p2 ∧ t1 = t2.
Proof.
  induction p1 as [| c p1 IH]; intros p2 t1 t2 H1 H2 Heq.
  - destruct (arrow_split_head p2 t1 t2 H2 Heq) as [-> ->]. done.
  - destruct p2 as [| c' p2].
    + symmetry in Heq. destruct (arrow_split_head _ _ _ H1 Heq). done.
    + rewrite !append_cons in Heq. injection Heq as <- Heq.
      destruct (IH p2 t1 t2) as [-> ->];
        [by eapply has_arrow_tail | by eapply has_arrow_tail | done | done].
Qed.

(** Where no source path holds [->], the key tells the pair. *)
Lemma pairKey_injective (m1 t1 m2 t2 : ModuleNode) :
  has_arrow (path m1) = false → has_arrow (path m2) = false →
  pairKey m1 t1 = pairKey m2 t2 → path m1 = path m2 ∧ path t1 = path t2.
Proof. intros H1 H2. unfold pairKey. by apply arrow_split_unique. Qed.

Lemma findByName_Some (n : string) (vis : list ModuleNode) (m : ModuleNode) :
  findByName n vis = Some m → m ∈ vis ∧ name m = n.
Proof.
  unfold findByName. intros [Hin Hn]%find_some.
  split; [by apply list_elem_of_In | by apply bool_decide_eq_true in Hn].
Qed.

Lemma findByName_None (n : string) (vis : list ModuleNode) :
  findByName n vis = None → ∀ m, m ∈ vis → name m ≠ n.
Proof.
  unfold findByName. intros Hnone m Hm%list_elem_of_In.
  pose proof (find_none _ _ Hnone m Hm) as Hf. simpl in Hf.
  by apply bool_decide_eq_false in Hf.
Qed.

Lemma findTargetModule_spec (v : Viewer) (t : string) :
  wf_tree v →
  let vis := getVisibleModules v in
  (∀ m, findTargetModule v t vis = Some m →
        m ∈ vis ∧ (path m = t ∨ name m = lastSegment t)) ∧
  (∀ m, m ∈ vis → path m = t →
        String.prefix "../" t = false → String.prefix "./" t = false →
        findTargetModule v t vis = Some m) ∧
  (findTargetModule v t vis = None → ∀ m, m ∈ vis → name m ≠ lastSegment t).
Proof.
  intros [[Hnd Hlinks] Hindex]. cbv zeta.
  assert (∀ m, allModules v !! t = Some m →
               includes (getVisibleModules v) m = true →
               m ∈ getVisibleModules v ∧ path m = t) as Hdirect.
  { intros m Hm Hinc. apply Hindex in Hm as [Hm Hpath]. split; [| done].
    apply (includes_elem (rootModules v)); [done | | done | done].
    intros u Hu. by apply (visible_all_nodes _ (expandedModules v)). }
  unfold findTargetModule. split; [| split].
  - intros m. destruct (_ || _).
    { intros [? ?]%findByName_Some. split; [done | by right]. }
    destruct (allModules v !! t) as [tm |] eqn:Htm.
    2:{ intros [? ?]%findByName_Some. split; [done | by right]. }
    destruct (includes (getVisibleModules v) tm) eqn:Hinc.
    2:{ intros [? ?]%findByName_Some. split; [done | by right]. }
    intros Heq. injection Heq as <-. destruct (Hdirect tm eq_refl Hinc).
    split; [done | by left].
  - intros m Hm Hpath -> ->. simpl.
    assert (allModules v !! t = Some m) as ->.
    { apply Hindex. split; [| done]. by apply (visible_all_nodes _ (expandedModules v)). }
    assert (includes (getVisibleModules v) m = true) as ->; [| done].
    apply bool_decide_eq_true. by apply list_elem_of_fmap_2.
  - destruct (_ || _); [apply findByName_None |].
    destruct (allModules v !! t) as [tm |]; [| apply findByName_None].
    destruct (includes (getVisibleModules v) tm); [done | apply findByName_None].
Qed.

(** X22. A connection target resolves to a visible module only: the visible
    module whose path is the target when the target is not relative and
    such a module is visible, otherwise a visible module named like the
    target's last path segment; it resolves to nothing only when no
    visible module bears that name. *)
Theorem findTargetModule_visible (v : Viewer) (t : string) :
  wf_tree v →
  let vis := getVisibleModules v in
  (∀ m, findTargetModule v t vis = Some m →
        m ∈ vis ∧ (path m = t ∨ name m = lastSegment t)) ∧
  (∀ m, m ∈ vis → path m = t →
        String.prefix "../" t = false → String.prefix "./" t = false →
        findTargetModule v t vis = Some m) ∧
  (findTargetModule v t vis = None → ∀ m, m ∈ vis → name m ≠ lastSegment t).
Proof. apply findTargetModule_spec. Qed.

Lemma findTargetModule_visible_witness :
  let vis := getVisibleModules opened in
  (∀ m, findTargetModule opened "../C" vis = Some m →
        m ∈ vis ∧ (path m = "../C" ∨ name m = lastSegment "../C")) ∧
  (∀ m, m ∈ vis → path m = "../C" →
        String.prefix "../" "../C" = false → String.prefix "./" "../C" = false →
        findTargetModule opened "../C" vis = Some m) ∧
  (findTargetModule opened "../C" vis = None →
   ∀ m, m ∈ vis → name m ≠ lastSegment "../C").
Proof. apply (findTargetModule_visible opened "../C"), viewer_wf. Defined.

Lemma elem_of_resolved (v : Viewer) (vis : list ModuleNode) (m t : ModuleNode)
    (conn : Connection) :
  (m, t, conn) ∈ resolved v vis ↔
  m ∈ vis ∧ conn ∈ getConnectionsForModule m vis ∧
  findTargetModule v (target conn) vis = Some t.
Proof.
  unfold resolved, resolveConnections. rewrite elem_of_flat_map. split.
  - intros (m' & Hm' & Hin). apply elem_of_flat_map in Hin as (c & Hc & Hin).
    destruct (findTargetModule v (target c) vis) as [t' |] eqn:Ht;
      [| by apply elem_of_nil in Hin].
    apply list_elem_of_singleton in Hin. by injection Hin as -> -> ->.
  - intros (Hm & Hc & Ht). exists m. split; [done |].
    apply elem_of_flat_map. exists conn. split; [done |]. rewrite Ht.
    apply list_elem_of_here.
Qed.

(** When no visible module has [->] in its path, the entries are the
    pairs: an entry holds exactly the resolved connections of its pair of
    paths. *)
Lemma grouped_by_pair_without_arrows (v : Viewer) (vis : list ModuleNode) :
  (∀ m, m ∈ vis → has_arrow (path m) = false) →
  ∀ e, e ∈ calculateConnectionPairs v vis →
    pair_connections e
    = snd <$> filter (λ i, path i.1.1 = path (from e) ∧ path i.1.2 = path (to e))
                     (resolved v vis).
Proof.
  intros Hvis e He.
  destruct (connections_grouped_by_pair v vis) as (_ & Hent & _).
  destruct (Hent e He) as ((conn & Hitem) & _ & Hpairs).
  apply Hpairs. intros [[m t] c] Hi Hkey. simpl.
  apply elem_of_resolved in Hi as (Hm & _). apply elem_of_resolved in Hitem as (Hf & _).
  apply pairKey_injective; [by apply Hvis | by apply Hvis | exact Hkey].
Qed.

Lemma length_filter_split {A} (P : A → Prop) `{∀ x, Decision (P x)} (l : list A) :
  length l = (length (filter P l) + length (filter (λ x, ¬ P x) l))%nat.
Proof.
  induction l as [| a l IH]; [done |].
  rewrite !filter_cons. destruct (decide (P a)), (decide (¬ P a)); simpl; try done; lia.
Qed.

(** Counting a list by the keys of its elements: the groups of a
    duplicate-free list of keys that covers the list add up to it. *)
Lemma length_by_key {A} (key : A → string) (ks : list string) :
  NoDup ks → ∀ items : list A, (∀ i, i ∈ items → key i ∈ ks) →
  sum_list ((λ k, length (filter (λ i, key i = k) items)) <$> ks) = length items.
Proof.
  induction 1 as [| k ks Hk Hnd IH]; intros items Hcover.
  - destruct items as [| i items]; [done |].
    by destruct (not_elem_of_nil (key i)); apply Hcover, list_elem_of_here.
  - csimpl. rewrite (length_filter_split (λ i, key i = k) items). f_equal.
    rewrite <- (IH (filter (λ i, ¬ key i = k) items)).
    + f_equal. apply Forall_fmap_ext_1, Forall_forall. intros k' Hk'.
      f_equal. symmetry. apply list_filter_filter_l. intros i Hi Heq.
      apply Hk. by rewrite <- Heq, Hi.
    + intros i [Hne Hi]%list_elem_of_filter. specialize (Hcover i Hi).
      apply elem_of_cons in Hcover as [? | ?]; done.
Qed.

(** X24. Every arrow joins two visible modules and carries at least one
    connection, and the arrows carry, between them, each resolved connection
    exactly once: their numbers of connections add up to the number of
    resolved connections. *)
Theorem edges_join_visible_modules (v : Viewer) :
  wf_tree v →
  let vis := getVisibleModules v in
  let edges := calculateConnectionPairs v vis in
  (∀ e, e ∈ edges →
        from e ∈ vis ∧ to e ∈ vis ∧ pair_connections e ≠ []) ∧
  sum_list ((λ e, length (pair_connections e)) <$> edges)
  = length (resolved v vis).
Proof.
  intros Hwf. cbv zeta. unfold calculateConnectionPairs.
  destruct (resolved_grouped v (getVisibleModules v)) as (Hnd & Hentries & Hcover).
  set (items := resolved v (getVisibleModules v)) in *.
  set (pairs := connectionPairsMap v (getVisibleModules v)) in *.
  split.
  - intros e ([k e'] & -> & Hin)%list_elem_of_fmap. simpl.
    destruct (Hentries k e' Hin) as (Hk & Hconns & conn & Hitem).
    pose proof Hitem as Hitem'. apply elem_of_resolved in Hitem' as (Hfrom & _ & Hto).
    destruct (findTargetModule_spec v (target conn) Hwf) as (Hvis & _).
    destruct (Hvis _ Hto) as [Hto' _].
    split; [done |]. split; [done |]. rewrite Hconns.
    assert ((from e', to e', conn) ∈ filter (λ i, itemKey i = k) items) as Hf.
    { apply list_elem_of_filter. split; [by rewrite Hk | done]. }
    intros Hnil. apply fmap_nil_inv in Hnil. rewrite Hnil in Hf.
    by apply elem_of_nil in Hf.
  - rewrite <- (length_by_key itemKey pairs.*1 Hnd items Hcover).
    assert (∀ l : list (string * Pair),
              (∀ k e, (k, e) ∈ l →
                 pair_connections e = snd <$> filter (λ i, itemKey i = k) items) →
              sum_list ((λ e, length (pair_connections e)) <$> l.*2)
              = sum_list ((λ k, length (filter (λ i, itemKey i = k) items)) <$> l.*1))
      as Hsum.
    { induction l as [| [k e] l IH]; intros Hl; [done |]. csimpl.
      rewrite (Hl k e) by apply list_elem_of_here. rewrite length_fmap. f_equal.
      apply IH. intros k' e' Hin. by apply Hl, list_elem_of_further. }
    apply Hsum. intros k e Hin. by destruct (Hentries k e Hin) as (_ & ? & _).
Qed.

Lemma edges_join_visible_modules_witness :
  let vis := getVisibleModules opened in
  let edges := calculateConnectionPairs opened vis in
  (∀ e, e ∈ edges →
        from e ∈ vis ∧ to e ∈ vis ∧ pair_connections e ≠ []) ∧
  sum_list ((λ e, length (pair_connections e)) <$> edges)
  = length (resolved opened vis).
Proof. apply (edges_join_visible_modules opened), viewer_wf. Defined.

Lemma flat_map_flat_map {A B C} (f : B → list C) (g : A → list B) (l : list A) :
  flat_map f (flat_map g l) = flat_map (λ a, flat_map f (g a)) l.
Proof.
  induction l as [| a l IH]; [done |]. simpl. by rewrite flat_map_app, IH.
Qed.

(** X25. A module below which nothing is visible stands for its whole subtree:
    it is given the connections declared by itself and by every module
    below it, in tree order.  The count shown in its title, which
    [getConnectionCount] computes, never exceeds the number of these
    connections. *)
Theorem collapsed_module_gathers_subtree (vis : list ModuleNode) (m : ModuleNode) :
  (∀ d, d ∈ descendants m → includes vis d = false) →
  getConnectionsForModule m vis = flat_map declared (m :: descendants m) ∧
  (getConnectionCount m ≤ length (getConnectionsForModule m vis))%nat.
Proof.
  induction m as [m IH] using ModuleNode_ind. intros Hhidden.
  assert (existsb (includes vis) (children m) = false) as Hnone.
  { apply not_true_iff_false. intros (c & Hc & Hinc)%existsb_exists.
    rewrite Hhidden in Hinc; [done |]. apply elem_of_descendants.
    exists c. split; [by apply list_elem_of_In | by left]. }
  assert (Forall (λ c, getConnectionsForModule c vis
                       = flat_map declared (c :: descendants c) ∧
                       (getConnectionCount c ≤ length (getConnectionsForModule c vis))%nat)
                 (children m)) as Hcs.
  { rewrite Forall_forall in IH. apply Forall_forall. intros c Hc. apply IH; [done |].
    intros d Hd. apply Hhidden, elem_of_descendants. exists c. split; [done | by right]. }
  clear IH Hhidden.
  rewrite getConnectionsForModule_eq, Hnone, (gather_all_children _ _ _ Hnone).
  assert (flat_map (λ c, getConnectionsForModule c vis) (children m)
          = flat_map declared (descendants m)) as Hgather.
  { destruct m as [n p pp cs l t k]; simpl in *. rewrite flat_map_flat_map.
    clear Hnone. induction Hcs as [| c cs [Hc _] _ IHcs]; [done |].
    simpl in *. by rewrite Hc, IHcs. }
  assert (sum_list (getConnectionCount <$> children m)
          ≤ length (flat_map (λ c, getConnectionsForModule c vis) (children m)))%nat
    as Hcount.
  { clear Hnone Hgather. induction Hcs as [| c cs [_ Hc] _ IHcs]; [done |].
    csimpl. rewrite length_app. lia. }
  split.
  - rewrite Hgather. simpl. unfold declared at 2.
    by destruct (declaredConnections m).
  - rewrite length_app.
    destruct m as [n p pp cs l t k]; simpl in *.
    unfold declaredConnections in *. simpl in *.
    destruct k as [[[own |]] |]; simpl; [lia | |]; rewrite count_fold; lia.
Qed.

Lemma collapsed_module_gathers_subtree_witness :
  getConnectionsForModule A [A; C] = flat_map declared (A :: descendants A) ∧
  (getConnectionCount A ≤ length (getConnectionsForModule A [A; C]))%nat.
Proof.
  apply (collapsed_module_gathers_subtree [A; C] A).
  intros d Hd. vm_compute in Hd.
  apply elem_of_cons in Hd as [-> | Hd]; [reflexivity |].
  apply list_elem_of_singleton in Hd as ->. reflexivity.
Defined.

End ConnectionProperties.

(** ** Where an arrow starts and ends *)

Section AnchorProperties.
Import PCBSystemViewer Notions Samples.

Lemma sub_pos (p q : num) : (0 < q - p)%Qc ↔ (p < q)%Qc.
Proof. symmetry. apply Qclt_minus_iff. Qed.

Lemma sub_nonneg (p q : num) : (0 ≤ q - p)%Qc ↔ (p ≤ q)%Qc.
Proof. symmetry. apply Qcle_minus_iff. Qed.

Lemma Math_abs_sub (p q : num) : Math_abs (p - q) = Math_abs (q - p).
Proof.
  unfold Math_abs.
  destruct (decide (0 ≤ p - q)%Qc) as [H1 | H1], (decide (0 ≤ q - p)%Qc) as [H2 | H2].
  - apply (proj1 (sub_nonneg _ _)) in H1. apply (proj1 (sub_nonneg _ _)) in H2.
    rewrite (Qcle_antisym _ _ H1 H2). ring.
  - ring.
  - ring.
  - exfalso. apply H2, Qclt_le_weak. apply Qcnot_le_lt in H1.
    apply (proj1 (Qclt_minus_iff _ _)) in H1.
    replace (0 + - (p - q))%Qc with (q - p)%Qc in H1 by ring. exact H1.
Qed.

Lemma Math_abs_zero (p q : num) : Math_abs (q - p) = 0%Qc ↔ p = q.
Proof.
  unfold Math_abs. split.
  - destruct (decide (0 ≤ q - p)%Qc); intros H0.
    + replace p with (q - (q - p))%Qc by ring. rewrite H0. ring.
    + replace p with (q + - (q - p))%Qc by ring. rewrite H0. ring.
  - intros ->. replace (q - q)%Qc with 0%Qc by ring. by destruct (decide _).
Qed.

Lemma Math_abs_nonneg (d : num) : (0 ≤ Math_abs d)%Qc.
Proof.
  unfold Math_abs. destruct (decide (0 ≤ d)%Qc) as [| Hneg]; [done |].
  apply Qcnot_le_lt in Hneg. apply (proj1 (Qclt_minus_iff _ _)) in Hneg.
  replace (0 + - d)%Qc with (- d)%Qc in Hneg by ring. by apply Qclt_le_weak.
Qed.

Lemma not_lt_cases (p q : num) : ¬ (p < q)%Qc → p ≠ q → (q < p)%Qc.
Proof. intros Hnlt Hne. by destruct (Qc_dec p q) as [[? | ?] | ?]. Qed.

Lemma anchors_swap (a b : Rect) :
  centre a ≠ centre b →
  ∀ startX startY endX endY,
    connectionAnchors a b = (startX, startY, endX, endY) →
    connectionAnchors b a = (endX, endY, startX, startY).
Proof.
  intros Hne sx sy ex ey. unfold connectionAnchors, centre in *. cbv zeta.
  set (ax := (left a + rwidth a / dec 2 1)%Qc) in *.
  set (ay := (top a + rheight a / dec 2 1)%Qc) in *.
  set (bx := (left b + rwidth b / dec 2 1)%Qc) in *.
  set (by_ := (top b + rheight b / dec 2 1)%Qc) in *.
  rewrite (Math_abs_sub ax bx), (Math_abs_sub ay by_).
  destruct (decide (Math_abs (by_ - ay) < Math_abs (bx - ax))%Qc) as [Hh | Hv].
  - assert (ax ≠ bx) as Hx.
    { intros Heq. apply Math_abs_zero in Heq. rewrite Heq in Hh.
      exact (Qclt_not_le _ _ Hh (Math_abs_nonneg _)). }
    assert (bx ≠ ax) as Hx' by (intros Heq; by apply Hx).
    destruct (decide (0 < bx - ax)%Qc) as [Hpos | Hnpos],
             (decide (0 < ax - bx)%Qc) as [Hpos' | Hnpos'];
      (try by (intros Heq; injection Heq as <- <- <- <-)); exfalso.
    + apply (proj1 (sub_pos _ _)) in Hpos. apply (proj1 (sub_pos _ _)) in Hpos'.
      exact (Qclt_not_le _ _ Hpos (Qclt_le_weak _ _ Hpos')).
    + apply Hnpos', (proj2 (sub_pos _ _)). apply not_lt_cases; [| done].
      intros Hlt. by apply Hnpos, (proj2 (sub_pos _ _)).
  - assert (by_ ≠ ay) as Hy.
    { intros Hy. apply Hne. f_equal; [| done].
      apply Qcnot_lt_le in Hv. symmetry in Hy.
      apply (proj2 (Math_abs_zero _ _)) in Hy. rewrite Hy in Hv.
      apply Math_abs_zero. apply Qcle_antisym; [done | apply Math_abs_nonneg]. }
    assert (ay ≠ by_) as Hy' by (intros Heq; by apply Hy).
    destruct (decide (0 < by_ - ay)%Qc) as [Hpos | Hnpos],
             (decide (0 < ay - by_)%Qc) as [Hpos' | Hnpos'];
      (try by (intros Heq; injection Heq as <- <- <- <-)); exfalso.
    + apply (proj1 (sub_pos _ _)) in Hpos. apply (proj1 (sub_pos _ _)) in Hpos'.
      exact (Qclt_not_le _ _ Hpos (Qclt_le_weak _ _ Hpos')).
    + apply Hnpos', (proj2 (sub_pos _ _)). apply not_lt_cases; [| done].
      intros Hlt. by apply Hnpos, (proj2 (sub_pos _ _)).
Qed.

(** X26. The arrow from [b] to [a] runs along the arrow from [a] to [b]: when
    the two rectangles do not have the same centre, the anchors chosen for
    the one are the anchors chosen for the other, start and end
    exchanged. *)
Theorem anchors_reverse (a b : Rect) :
  centre a ≠ centre b →
  connectionAnchors b a
  = let '(startX, startY, endX, endY) := connectionAnchors a b in
    (endX, endY, startX, startY).
Proof.
  intros Hne.
  destruct (connectionAnchors a b) as [[[startX startY] endX] endY] eqn:Hab.
  by apply anchors_swap.
Qed.

Lemma anchors_reverse_witness :
  connectionAnchors rect_C rect_A
  = let '(startX, startY, endX, endY) := connectionAnchors rect_A rect_C in
    (endX, endY, startX, startY).
Proof.
  apply (anchors_reverse rect_A rect_C).
  intros Heq. apply (f_equal fst), (f_equal this) in Heq.
  vm_compute in Heq. discriminate.
Defined.

End AnchorProperties.
